(** * generate.py: header flattening and parser-option generation

    A shallow embedding of [generate.py] (hkva/ghidra-directx-data), the
    properties its specification states about it and, after them, further
    properties of the code: the files and the exit status of a run, the
    outcomes of the compiler runs, the shape of the generated flags and
    what the sanitizer leaves.

    - Python [str] values are sequences of Unicode code points: [str] is
      [list N].
    - [re.sub] and [re.search] are embedded as a backtracking matcher over
      the fragment of the pattern language the script uses (literals,
      escaped literals, [.], negated classes, greedy [*] on one-character
      atoms, capturing groups); the patterns are kept as the strings of the
      source and compiled by [re_compile].
    - The script itself ([require_command], [run_gcc] and the [__main__]
      block) is embedded in a state-and-exception monad over a world that
      holds the printed lines, the files on disk, the buffers of the open
      files and the four module-level lists.  What the compiler does is a
      parameter. *)

From Stdlib Require Import String Ascii List NArith ZArith Bool Arith Lia.
From Equations Require Import Equations.
Import ListNotations.

(** ** Text *)

Abbreviation char := N (only parsing).
Abbreviation str := (list N) (only parsing).

(** A source-level string literal. *)
Definition lit (s : string) : str := map N_of_ascii (list_ascii_of_string s).

Definition nl : char := 10%N.
Definition dq : char := 34%N.

(** A text given by its lines, each one ended by a newline. *)
Definition text (ls : list str) : str :=
  concat (map (fun l => l ++ [nl]) ls).

Fixpoint str_eqb (a b : str) : bool :=
  match a, b with
  | [], [] => true
  | x :: a', y :: b' => N.eqb x y && str_eqb a' b'
  | _, _ => false
  end.

(** [prefixb p s]: [s.startswith(p)]. *)
Fixpoint prefixb (p s : str) : bool :=
  match p, s with
  | [], _ => true
  | x :: p', y :: s' => N.eqb x y && prefixb p' s'
  | _ :: _, [] => false
  end.

(** [occursb p s]: [p in s]. *)
Fixpoint occursb (p s : str) : bool :=
  prefixb p s || match s with [] => false | _ :: s' => occursb p s' end.

(** ** Regular expressions *)

Module Re.

(** One-character atoms. *)
Inductive cset :=
| CAny                    (* [.]: any character except a newline *)
| CLit (c : char)         (* a literal character *)
| CNot (cs : list char).  (* [[^...]] *)

Definition accepts (c : cset) (x : char) : bool :=
  match c with
  | CAny => negb (N.eqb x nl)
  | CLit y => N.eqb x y
  | CNot cs => negb (existsb (N.eqb x) cs)
  end.

Inductive item :=
| One (c : cset)
| Many (c : cset)         (* greedy [c*] *)
| Open (g : nat)          (* start of capturing group [g] *)
| Close (g : nat).        (* end of capturing group [g] *)

Definition regex := list item.

Definition captures := list (nat * str).

Fixpoint lookup (g : nat) (l : captures) : option str :=
  match l with
  | [] => None
  | (h, v) :: l' => if Nat.eqb g h then Some v else lookup g l'
  end.

(** [match_here re s opens groups]: match [re] at the start of [s].  The
    result is the text left after the match and the captured groups.
    [opens] remembers the text left when each group was opened.  A star
    first tries to take one more character and gives it back only when the
    rest of the pattern fails: the order of the backtracking matcher. *)
Fixpoint match_here (re : regex) (s : str) (opens groups : captures)
  : option (str * captures) :=
  match re with
  | [] => Some (s, groups)
  | One c :: re' =>
      match s with
      | x :: s' => if accepts c x then match_here re' s' opens groups else None
      | [] => None
      end
  | Many c :: re' =>
      (fix star (s : str) : option (str * captures) :=
         match s with
         | x :: s' =>
             if accepts c x then
               match star s' with
               | Some r => Some r
               | None => match_here re' s opens groups
               end
             else match_here re' s opens groups
         | [] => match_here re' s opens groups
         end) s
  | Open g :: re' => match_here re' s ((g, s) :: opens) groups
  | Close g :: re' =>
      match lookup g opens with
      | Some s0 =>
          match_here re' s opens
            ((g, firstn (length s0 - length s) s0) :: groups)
      | None => None
      end
  end.

(** *** Compiling a pattern string *)

Inductive pmode :=
| PNormal
| PEscape                      (* after a backslash *)
| PClassStart                  (* after [[] *)
| PClass (cs : list char).     (* inside [[^...]], characters so far *)

Definition is_special (c : char) : bool :=
  existsb (N.eqb c) (lit "+?{}|^$]").

Definition is_alnum (c : char) : bool :=
  ((48 <=? c) && (c <=? 57) || (65 <=? c) && (c <=? 90)
   || (97 <=? c) && (c <=? 122))%N.

(** [parse p mode ngroups stack acc]: [acc] holds the items read so far,
    last one first; [stack] the groups still open. *)
Fixpoint parse (p : str) (mode : pmode) (ngroups : nat) (stack : list nat)
  (acc : regex) : option regex :=
  match p with
  | [] =>
      match mode, stack with
      | PNormal, [] => Some (rev acc)
      | _, _ => None
      end
  | c :: p' =>
      match mode with
      | PEscape =>
          if is_alnum c then None
          else parse p' PNormal ngroups stack (One (CLit c) :: acc)
      | PClassStart =>
          if N.eqb c 94 then parse p' (PClass []) ngroups stack acc else None
      | PClass cs =>
          if N.eqb c 93 then
            match cs with
            | [] => None
            | _ => parse p' PNormal ngroups stack (One (CNot (rev cs)) :: acc)
            end
          else if N.eqb c 92 then None
          else parse p' (PClass (c :: cs)) ngroups stack acc
      | PNormal =>
          if N.eqb c 92 then parse p' PEscape ngroups stack acc
          else if N.eqb c 46 then
            parse p' PNormal ngroups stack (One CAny :: acc)
          else if N.eqb c 91 then parse p' PClassStart ngroups stack acc
          else if N.eqb c 40 then
            parse p' PNormal (S ngroups) (S ngroups :: stack)
              (Open (S ngroups) :: acc)
          else if N.eqb c 41 then
            match stack with
            | g :: stack' => parse p' PNormal ngroups stack' (Close g :: acc)
            | [] => None
            end
          else if N.eqb c 42 then
            match acc with
            | One a :: acc' => parse p' PNormal ngroups stack (Many a :: acc')
            | _ => None
            end
          else if is_special c then None
          else parse p' PNormal ngroups stack (One (CLit c) :: acc)
      end
  end.

(** [re.compile]; a pattern outside the fragment compiles to [None]. *)
Definition re_compile (p : string) : option regex :=
  parse (lit p) PNormal 0 [] [].

(** *** Match objects, [re.search] and [re.sub] *)

Record re_match := {
  m_start : nat;            (* [m.start()] *)
  m_text : str;             (* [m[0]] *)
  m_rest : str;             (* the subject after [m.end()] *)
  m_groups : captures
}.

(** [m[g]] for [g >= 1]. *)
Definition group (m : re_match) (g : nat) : option str :=
  lookup g (m_groups m).

Fixpoint search_from (re : regex) (s : str) (i : nat) : option re_match :=
  match match_here re s [] [] with
  | Some (rest, gs) =>
      Some {| m_start := i;
              m_text := firstn (length s - length rest) s;
              m_rest := rest;
              m_groups := gs |}
  | None =>
      match s with
      | [] => None
      | _ :: s' => search_from re s' (S i)
      end
  end.

Definition search (re : regex) (s : str) : option re_match :=
  search_from re s 0.

(** [re.sub(re, repl, s)] for a replacement without backslashes: every
    leftmost non-overlapping match is replaced by [repl].  After an empty
    match one character is copied, as in Python 3.7 and later. *)
Equations sub (re : regex) (repl : str) (s : str) : str by wf (length s) lt :=
  sub re repl [] with match_here re [] [] [] := {
    | Some _ := repl
    | None := [] };
  sub re repl (c :: s') with match_here re (c :: s') [] [] := {
    | Some (rest, _) with le_lt_dec (length (c :: s')) (length rest) := {
        | left _ := repl ++ c :: sub re repl s'
        | right _ := repl ++ sub re repl rest }
    | None := c :: sub re repl s' }.

End Re.

(** ** The sanitizer *)

Definition asm_pattern : string := "__asm__ .*\(.*\);".
Definition asm_repl : str :=
  lit "(void)123; /* GHIDRA: Removed __asm__ statement */".
Definition int128_pattern : string := "(__int128)".
Definition int128_repl : str := lit "long /* GHIDRA: Removed __int128 */".
Definition f16_pattern : string := "(\.0f16)".
Definition f16_repl : str := lit ".0f /* GHIDRA: Removed f16 */".

(** [re.sub(pattern, repl, source)] with the pattern given as in the source;
    the three patterns of the script all compile (see [asm_re_eq] and its
    siblings below). *)
Definition re_sub (pattern : string) (repl source : str) : str :=
  match Re.re_compile pattern with
  | Some re => Re.sub re repl source
  | None => source
  end.

Definition process_source (source : str) : str :=
  (* No __asm__ *)
  let source := re_sub asm_pattern asm_repl source in
  (* No __int128 *)
  let source := re_sub int128_pattern int128_repl source in
  (* No float16 specifier *)
  let source := re_sub f16_pattern f16_repl source in
  source.

(** ** Lines and lists *)

(** The line boundaries of [str.splitlines]. *)
Definition is_linebreak (c : char) : bool :=
  existsb (N.eqb c) [10; 13; 11; 12; 28; 29; 30; 133; 8232; 8233]%N.

(** [str.splitlines()]: [cur] is the current line, last character first;
    a carriage return followed by a line feed is one boundary. *)
Fixpoint splitlines_from (s : str) (cur : str) : list str :=
  match s with
  | [] => match cur with [] => [] | _ => [rev cur] end
  | c :: s' =>
      if is_linebreak c then
        rev cur ::
          (if N.eqb c 13 then
             match s' with
             | d :: s'' =>
                 if N.eqb d 10 then splitlines_from s'' []
                 else splitlines_from s' []
             | [] => splitlines_from s' []
             end
           else splitlines_from s' [])
      else splitlines_from s' (c :: cur)
  end.

Definition splitlines (s : str) : list str := splitlines_from s [].

(** The characters [str.strip()] removes. *)
Definition is_space (c : char) : bool :=
  ((9 <=? c) && (c <=? 13) || (28 <=? c) && (c <=? 32)
   || (c =? 133) || (c =? 160) || (c =? 5760)
   || (8192 <=? c) && (c <=? 8202)
   || (c =? 8232) || (c =? 8233) || (c =? 8239) || (c =? 8287)
   || (c =? 12288))%N.

Fixpoint lstrip (s : str) : str :=
  match s with
  | c :: s' => if is_space c then lstrip s' else s
  | [] => []
  end.

Definition strip (s : str) : str := rev (lstrip (rev (lstrip s))).

(** [l.index(x)]: the first position of [x], [None] for [ValueError]. *)
Fixpoint index (x : str) (l : list str) : option nat :=
  match l with
  | [] => None
  | y :: l' =>
      if str_eqb y x then Some 0
      else match index x l' with Some n => Some (S n) | None => None end
  end.

(** [l[lo:hi]] for indices that are not negative. *)
Definition slice (l : list str) (lo hi : nat) : list str :=
  firstn (hi - lo) (skipn lo l).

(** ** The world of the script *)

Inductive exn :=
| SystemExit (code : Z)
| TypeError
| ValueError
| IndexError
| FileNotFoundError         (* raised by [subprocess.Popen] *)
| UnicodeDecodeError
| UnicodeEncodeError
| OSError.                  (* raised by [open]: [OSError] or one of its
                               subclasses *)

Inductive res (A : Type) :=
| Ok (a : A)
| Raised (e : exn).
Arguments Ok {A} a.
Arguments Raised {A} e.

(** The module-level lists.  They are objects: a name bound to one of them
    ([opts = MINGW_OPTIONS]) shares it. *)
Inductive list_ref :=
| MINGW_OPTIONS
| DEFAULT_OPTIONS_32
| DEFAULT_OPTIONS_64
| GCC_FLAGS.

Record lists := {
  l_mingw : list str;
  l_default32 : list str;
  l_default64 : list str;
  l_gcc : list str
}.

(** The files on disk, by the path they are opened with.  Two paths that
    name one file are not told apart from two files: the properties below
    speak of a file by the path the script opens it with. *)
Definition filesystem := str -> option str.

Record world := {
  printed : list str;       (* the arguments of [print], in order *)
  files : filesystem;       (* the files on disk, by name *)
  buffers : filesystem;     (* for each open file, the text written to it
                               that is not on disk yet *)
  heap : lists;
  unwritable : str -> bool  (* the paths [open(path, 'w')] fails on: the
                               directory is missing, the path is too long,
                               writing is not permitted *)
}.

Definition load (r : list_ref) (h : lists) : list str :=
  match r with
  | MINGW_OPTIONS => l_mingw h
  | DEFAULT_OPTIONS_32 => l_default32 h
  | DEFAULT_OPTIONS_64 => l_default64 h
  | GCC_FLAGS => l_gcc h
  end.

Definition store (r : list_ref) (v : list str) (h : lists) : lists :=
  match r with
  | MINGW_OPTIONS =>
      {| l_mingw := v; l_default32 := l_default32 h;
         l_default64 := l_default64 h; l_gcc := l_gcc h |}
  | DEFAULT_OPTIONS_32 =>
      {| l_mingw := l_mingw h; l_default32 := v;
         l_default64 := l_default64 h; l_gcc := l_gcc h |}
  | DEFAULT_OPTIONS_64 =>
      {| l_mingw := l_mingw h; l_default32 := l_default32 h;
         l_default64 := v; l_gcc := l_gcc h |}
  | GCC_FLAGS =>
      {| l_mingw := l_mingw h; l_default32 := l_default32 h;
         l_default64 := l_default64 h; l_gcc := v |}
  end.

Definition quoted (s : str) : str := dq :: s ++ [dq].

Definition MINGW_OPTIONS_0 : list str :=
  [ lit "-DCONST=" ++ quoted (lit "const");
    lit "-D__restrict__=" ++ quoted [];
    lit "-D__always_inline__=" ++ quoted (lit "inline");
    lit "-D__gnu_inline__=" ++ quoted (lit "inline");
    lit "-D__builtin_va_list=" ++ quoted (lit "void *") ].

Definition DEFAULT_OPTIONS_32_0 : list str :=
  [ lit "-D_X86_";
    lit "-D__STDC__";
    lit "-D_GNU_SOURCE";
    lit "-D__WORDSIZE=32";
    lit "-D__builtin_va_list=void *";
    lit "-D__DO_NOT_DEFINE_COMPILE";
    lit "-D_Complex";
    lit "-D__NO_STRING_INLINES";
    lit "-D__NO_LONG_DOUBLE_MATH";
    lit "-D__signed__";
    lit "-D__extension__=" ++ quoted [];
    lit "-D__GLIBC_HAVE_LONG_LONG=1";
    lit "-Daligned_u64=uint64_t" ].

Definition DEFAULT_OPTIONS_64_0 : list str :=
  [ lit "-D_X86_";
    lit "-D__STDC__";
    lit "-D_GNU_SOURCE";
    lit "-D__WORDSIZE=64";
    lit "-D__builtin_va_list=void *";
    lit "-D__DO_NOT_DEFINE_COMPILE";
    lit "-D_Complex";
    lit "-D__NO_STRING_INLINES";
    lit "-D__signed__";
    lit "-D__extension__=" ++ quoted [];
    lit "-D__GLIBC_HAVE_LONG_LONG=1";
    lit "-D__need_sigset_t";
    lit "-Daligned_u64=uint64_t" ].

Definition GCC_FLAGS_0 : list str :=
  [ lit "-std=c99";
    lit "-I." ].

(** The lists as the module body creates them. *)
Definition initial_lists : lists :=
  {| l_mingw := MINGW_OPTIONS_0;
     l_default32 := DEFAULT_OPTIONS_32_0;
     l_default64 := DEFAULT_OPTIONS_64_0;
     l_gcc := GCC_FLAGS_0 |}.

Definition DEFAULT_SOURCE : str :=
  text [ [];
         lit "// This file was generated by https://github.com/hkva/ghidra-directx-data";
         [];
         lit "// BEGIN MANUAL DEFINITIONS";
         [];
         lit "typedef struct _Float16 {";
         lit "    float m[16];";
         lit "} _Float16;";
         [];
         lit "typedef unsigned short __bf16;";
         [];
         lit "// END MANUAL DEFINITIONS";
         [] ].

(** *** The monad: state, and exceptions that keep the state *)

Definition M (A : Type) : Type := world -> res A * world.

Definition ret {A} (a : A) : M A := fun w => (Ok a, w).

Definition bind {A B} (c : M A) (k : A -> M B) : M B :=
  fun w =>
    match c w with
    | (Ok a, w') => k a w'
    | (Raised e, w') => (Raised e, w')
    end.

Definition raise {A} (e : exn) : M A := fun w => (Raised e, w).

Declare Scope py_scope.
Delimit Scope py_scope with py.
Notation "x <- c ;; k" := (bind c (fun x => k))
  (at level 61, c at next level, right associativity) : py_scope.
Notation "c ;; k" := (bind c (fun _ => k))
  (at level 61, right associativity) : py_scope.
Local Open Scope py_scope.

(** The world after [print(msg)]. *)
Definition says (w : world) (msg : str) : world :=
  {| printed := printed w ++ [msg]; files := files w;
     buffers := buffers w; heap := heap w; unwritable := unwritable w |}.

Definition with_files (w : world) (fs : filesystem) : world :=
  {| printed := printed w; files := fs; buffers := buffers w;
     heap := heap w; unwritable := unwritable w |}.

Definition with_buffers (w : world) (bs : filesystem) : world :=
  {| printed := printed w; files := files w; buffers := bs;
     heap := heap w; unwritable := unwritable w |}.

Definition with_heap (w : world) (h : lists) : world :=
  {| printed := printed w; files := files w; buffers := buffers w;
     heap := h; unwritable := unwritable w |}.

(** [print(s)].  The standard output is taken to accept every string. *)
Definition print (s : str) : M unit :=
  fun w => (Ok tt, says w s).

(** [exit(code)] raises [SystemExit]. *)
Definition exit {A} (code : Z) : M A := raise (SystemExit code).

Definition fs_set (path content : str) (fs : filesystem) : filesystem :=
  fun p => if str_eqb p path then Some content else fs p.

Definition fs_drop (path : str) (fs : filesystem) : filesystem :=
  fun p => if str_eqb p path then None else fs p.

(** The text of a file, empty when there is none. *)
Definition content (fs : filesystem) (f : str) : str :=
  match fs f with Some c => c | None => [] end.

(** The world after [open(path, 'w')]: the file is created or truncated on
    disk, and its buffer is empty. *)
Definition opened (path : str) (w : world) : world :=
  with_buffers (with_files w (fs_set path [] (files w)))
    (fs_set path [] (buffers w)).

(** [open(path, 'w')].  The file object is named by its path.  When the
    path cannot be opened the call raises and no file is created. *)
Definition open_w (path : str) : M str :=
  fun w =>
    if unwritable w path then (Raised OSError, w)
    else (Ok path, opened path w).

(** [f.write(s)]: the text goes to the buffer of the file; writing to a
    file that is not open raises [ValueError]. *)
Definition write (f : str) (s : str) : M unit :=
  fun w =>
    match buffers w f with
    | Some b => (Ok tt, with_buffers w (fs_set f (b ++ s) (buffers w)))
    | None => (Raised ValueError, w)
    end.

(** The world after [f.close()]: the buffer goes to the disk. *)
Definition closed (f : str) (w : world) : world :=
  match buffers w f with
  | Some b =>
      with_buffers (with_files w (fs_set f (content (files w) f ++ b) (files w)))
        (fs_drop f (buffers w))
  | None => w
  end.

Definition close (f : str) : M unit :=
  fun w => (Ok tt, closed f w).

(** [try: c finally: cleanup] *)
Definition finally {A} (c : M A) (cleanup : M unit) : M A :=
  fun w =>
    match c w with
    | (r, w') =>
        match cleanup w' with
        | (Ok _, w'') => (r, w'')
        | (Raised e, w'') => (Raised e, w'')
        end
    end.

(** [with open(path, 'w') as f: body]: every way out of the block closes
    the file; when [open] raises, the block is not entered. *)
Definition with_open {A} (path : str) (body : str -> M A) : M A :=
  f <- open_w path ;;
  finally (body f) (close f).

(** Reading a list object. *)
Definition get_list (r : list_ref) : M (list str) :=
  fun w => (Ok (load r (heap w)), w).

(** [r += xs] and [r.append(x)]: the list object is extended in place. *)
Definition extend (r : list_ref) (xs : list str) : M unit :=
  fun w => (Ok tt, with_heap w (store r (load r (heap w) ++ xs) (heap w))).

Fixpoint for_each {A} (l : list A) (body : A -> M unit) : M unit :=
  match l with
  | [] => ret tt
  | x :: l' => body x ;; for_each l' body
  end.

(** [bytes.decode()]: [None] stands for bytes that are not valid UTF-8. *)
Definition decode (b : option str) : M str :=
  match b with
  | Some s => ret s
  | None => raise UnicodeDecodeError
  end.


(** [str.encode()]: the code points [U+D800] to [U+DFFF] have no UTF-8
    encoding. *)
Definition is_surrogate (c : char) : bool :=
  ((55296 <=? c) && (c <=? 57343))%N.

Definition encodable (s : str) : bool :=
  forallb (fun c => negb (is_surrogate c)) s.

Definition encode (s : str) : M unit :=
  if encodable s then ret tt else raise UnicodeEncodeError.

(** A finished child process: its return code and the two captured
    streams, decoded. *)
Record completed := {
  returncode : Z;
  s_out : option str;
  s_err : option str
}.

Section Script.

(** [subprocess.Popen(args, ...).communicate(input)]: what the command does
    is outside the script.  The command may read the files the script has
    written so far, and is taken to write none; [None] stands for a
    command that cannot be started. *)
Variable popen : filesystem -> list str -> str -> option completed.

Definition run_gcc (gcc : str) (flags : list str) (input : str)
  (capture_stderr : bool) : M str :=
  gcc_flags <- get_list GCC_FLAGS ;;
  fun w =>
    match popen (files w) ([gcc] ++ gcc_flags ++ flags ++ [lit "-"]) input with
    | None => raise FileNotFoundError w
    | Some p =>
        (encode input ;;
         if negb (Z.eqb (returncode p) 0) then
           e <- decode (s_err p) ;;
           print (lit "GCC command failed: " ++ e) ;;
           exit 1
         else if capture_stderr then decode (s_err p) else decode (s_out p)) w
    end.

Definition search_starts : str := lit "#include <...> search starts here:".
Definition search_ends : str := lit "End of search list.".
Definition define_pattern : string := "#define ([^ ]*) (.*)".

(** [re.search(pattern, s)] with the pattern given as in the source. *)
Definition re_search (pattern : string) (s : str) : option Re.re_match :=
  match Re.re_compile pattern with
  | Some re => Re.search re s
  | None => None
  end.

(** [m[g]] in an f-string. *)
Definition fmt_group (m : Re.re_match) (g : nat) : str :=
  match Re.group m g with
  | Some t => t
  | None => lit "None"
  end.

(** The table chosen by
    [DEFAULT_OPTIONS_64 if a_arch == 'x64' else DEFAULT_OPTIONS_32]. *)
Definition default_options (a_arch : str) : list_ref :=
  if str_eqb a_arch (lit "x64") then DEFAULT_OPTIONS_64
  else DEFAULT_OPTIONS_32.

(** The include flags:
    [[f'-I{inc.strip()}' for inc in out[out.index(..)+1:out.index(..)]]]. *)
Definition include_flags (out : list str) : M (list str) :=
  match index search_starts out with
  | None => raise ValueError
  | Some i =>
      match index search_ends out with
      | None => raise ValueError
      | Some j =>
          ret (map (fun inc => lit "-I" ++ strip inc) (slice out (i + 1) j))
      end
  end.

(** The body of the loop over the dumped macros. *)
Definition define_flag (opts : list_ref) (i : str) : M unit :=
  match re_search define_pattern i with
  | None => raise TypeError
  | Some m =>
      extend opts
        [lit "-D" ++ fmt_group m 1 ++ lit "=" ++ quoted (fmt_group m 2)]
  end.

(** [f'{a_name}_{a_arch}.h'] and [f'{a_name}_{a_arch}_parser_options.txt'] *)
Definition header_file (a_name a_arch : str) : str :=
  a_name ++ lit "_" ++ a_arch ++ lit ".h".

Definition options_file (a_name a_arch : str) : str :=
  a_name ++ lit "_" ++ a_arch ++ lit "_parser_options.txt".

Definition flatten_header (gcc_cmd a_name a_arch : str) : M unit :=
  print (lit "Processing sources...") ;;
  with_open (header_file a_name a_arch) (fun f =>
    write f DEFAULT_SOURCE ;;
    src <- run_gcc gcc_cmd [lit "-P"; lit "-E"]
             (lit "#include <" ++ a_name ++ lit ".h>") false ;;
    write f (process_source src)).

Definition generate_options (gcc_cmd a_name a_arch : str) : M unit :=
  print (lit "Generating parser options...") ;;
  with_open (options_file a_name a_arch) (fun f =>
    let opts := MINGW_OPTIONS in
    more <- get_list (default_options a_arch) ;;
    extend opts more ;;
    let empty_file := lit " /* :) */ " in
    (* Compile empty file to get include paths *)
    err <- run_gcc gcc_cmd [lit "-xc"; lit "-E"; lit "-v"] empty_file true ;;
    incs <- include_flags (splitlines err) ;;
    extend opts incs ;;
    (* Compile empty file to get preprocessor definitions *)
    out <- run_gcc gcc_cmd [lit "-dM"; lit "-E"] empty_file false ;;
    for_each (splitlines out) (define_flag opts) ;;
    all <- get_list opts ;;
    for_each all (fun opt => write f (opt ++ [nl]))).

(** ['x86_64-w64-mingw32-gcc' if a_arch == '64' else 'i686-w64-mingw32-gcc'] *)
Definition gcc_cmd_of (a_arch : str) : str :=
  if str_eqb a_arch (lit "64") then lit "x86_64-w64-mingw32-gcc"
  else lit "i686-w64-mingw32-gcc".

(** The [__main__] block; [argv] is [sys.argv]. *)
Definition main (argv : list str) : M unit :=
  match argv with
  | [_; a_name; a_arch] =>
      if negb (str_eqb a_arch (lit "32")) && negb (str_eqb a_arch (lit "64"))
      then
        print (lit "Architecture must be either 32 or 64") ;;
        exit 1
      else
        print (lit "Generating profile " ++ a_name ++ lit " (" ++ a_arch
               ++ lit "-bit)") ;;
        let gcc_cmd := gcc_cmd_of a_arch in
        (* Generate flattened header *)
        flatten_header gcc_cmd a_name a_arch ;;
        (* Generate parser options *)
        generate_options gcc_cmd a_name a_arch
  | _ =>
      match argv with
      | prog :: _ =>
          print (lit "Usage: " ++ prog ++ lit " <target> <32|64>") ;;
          exit 1
      | [] => raise IndexError
      end
  end.

End Script.

(** The exit status of the process. *)
Definition exit_status (r : res unit) : Z :=
  match r with
  | Ok _ => 0
  | Raised (SystemExit code) => code
  | Raised _ => 1
  end.

(** The world at start: nothing printed, no file open, the lists as
    created; every path can be opened. *)
Definition initial_world (fs : filesystem) : world :=
  {| printed := []; files := fs; buffers := fun _ => None;
     heap := initial_lists; unwritable := fun _ => false |}.

(** The same with one path that cannot be opened. *)
Definition locked_world (fs : filesystem) (path : str) : world :=
  {| printed := []; files := fs; buffers := fun _ => None;
     heap := initial_lists; unwritable := fun p => str_eqb p path |}.

(** * The vocabulary of the properties *)

Import Re.



Definition profile_message (a_name a_arch : str) : str :=
  lit "Generating profile " ++ a_name ++ lit " (" ++ a_arch ++ lit "-bit)".

(** The compiler of each accepted architecture. *)
Definition compiler_for (a_arch gcc : str) : Prop :=
  a_arch = lit "32" /\ gcc = lit "i686-w64-mingw32-gcc"
  \/ a_arch = lit "64" /\ gcc = lit "x86_64-w64-mingw32-gcc".

(** [grown_by P h h']: from [h] to [h'] the list [MINGW_OPTIONS] has only
    been extended at its end, by flags that satisfy [P], and the three
    other lists are the same. *)
Definition grown_by (P : str -> Prop) (h h' : lists) : Prop :=
  (exists more, l_mingw h' = l_mingw h ++ more /\ Forall P more)
  /\ l_default32 h' = l_default32 h
  /\ l_default64 h' = l_default64 h
  /\ l_gcc h' = l_gcc h.

Definition grown : lists -> lists -> Prop := grown_by (fun _ => True).

(** The flags the loop over the dumped macros appends start with [-D]. *)
Definition is_define_flag (d : str) : Prop := prefixb (lit "-D") d = true.

(** [diverge x y]: [x] and [y] differ at a position both have. *)
Fixpoint diverge (x y : str) : bool :=
  match x, y with
  | a :: x', b :: y' => negb (N.eqb a b) || diverge x' y'
  | _, _ => false
  end.

(** [enters p w]: no suffix of [p] that is not empty starts [w]. *)
Fixpoint enters (p w : str) : bool :=
  match p with
  | [] => true
  | _ :: p' => negb (prefixb p w) && enters p' w
  end.

(** [blocks p q b]: in [q ++ b], [p] starts at no position of [q]. *)
Fixpoint blocks (p q b : str) : bool :=
  match q with
  | [] => true
  | _ :: q' => negb (prefixb p (q ++ b)) && blocks p q' b
  end.

(** The same with [diverge], which holds whatever follows [q]. *)
Fixpoint enters_any (p q : str) : bool :=
  match p with
  | [] => true
  | _ :: p' => diverge p q && enters_any p' q
  end.

Fixpoint blocks_any (p q : str) : bool :=
  match q with
  | [] => true
  | _ :: q' => diverge p q && blocks_any p q'
  end.

(** [apart p q]: no occurrence of [p] in a text can share a position with
    an occurrence of [q]. *)
Definition apart (p q : str) : bool := enters_any p q && blocks_any p q.

(** [free cs q]: no character of [cs] is in [q]. *)
Definition free (cs : list N) (q : str) : bool :=
  forallb (fun c => negb (existsb (N.eqb c) cs)) q.

(** The text up to the first newline. *)
Fixpoint first_line (s : str) : str :=
  match s with
  | [] => []
  | c :: s' => if N.eqb c nl then [] else c :: first_line s'
  end.

(** The text after the last newline. *)
Fixpoint last_line (s : str) : str :=
  match s with
  | [] => []
  | _ :: s' => if existsb (N.eqb nl) s then last_line s' else s
  end.

(** [untouched s]: none of the three patterns can match in [s]. *)
Definition untouched (s : str) : bool :=
  negb (occursb (lit "__asm__ ") s) && negb (occursb (lit "__int128") s)
  && negb (occursb (lit ".0f16") s).

(** The pattern that matches the text [p] literally. *)
Definition lits (p : str) : regex := map (fun c => One (CLit c)) p.

(** A literal in a capturing group, as in [(__int128)]. *)
Definition group_lit (p : str) : regex := Open 1 :: lits p ++ [Close 1].


Definition kw : str := lit "__asm__ ".

Definition asm_re : regex :=
  lits kw ++ [Many CAny; One (CLit 40%N); Many CAny; One (CLit 41%N);
              One (CLit 59%N)].


(** [after_close s]: what [.*\);] leaves of [s]: the text after the last
    [);] of the first line of [s]. *)
Fixpoint after_close (s : str) : option str :=
  match s with
  | [] => None
  | c :: s' =>
      if N.eqb c nl then None
      else
        match after_close s' with
        | Some r => Some r
        | None => if prefixb (lit ");") s then Some (skipn 2 s) else None
        end
  end.

(** [after_args s]: what [.*\(.*\);] leaves of [s]. *)
Fixpoint after_args (s : str) : option str :=
  match s with
  | [] => None
  | c :: s' =>
      if N.eqb c nl then None
      else
        match after_args s' with
        | Some r => Some r
        | None => if N.eqb c 40 then after_close s' else None
        end
  end.

(** [matches_asm s]: the pattern matches at the start of [s]. *)
Definition matches_asm (s : str) : bool :=
  match match_here asm_re s [] [] with
  | Some _ => true
  | None => false
  end.

(** [has_asm s]: the pattern matches somewhere in [s]. *)
Fixpoint has_asm (s : str) : bool :=
  matches_asm s || match s with [] => false | _ :: s' => has_asm s' end.

(** The rules of [process_source] that follow the inline-assembly rule. *)
Definition after_asm (t : str) : str :=
  re_sub f16_pattern f16_repl (re_sub int128_pattern int128_repl t).

Definition no_files : filesystem := fun _ => None.

Definition sample_argv (a_arch : string) : list str :=
  [lit "generate.py"; lit "d3d9"; lit a_arch].

(** [keeps R c]: the lists before and after every run of [c] are related
    by [R]; [R] is [eq] for code that leaves the lists alone and [grown]
    for code that appends to [MINGW_OPTIONS]. *)
Definition keeps (R : lists -> lists -> Prop) {A : Type} (c : M A) : Prop :=
  forall w, R (heap w) (heap (snd (c w))).

(** *** Sample environments *)

Definition sample_search_output : str :=
  text [ lit "ignoring nonexistent directory";
         lit "#include <...> search starts here:";
         lit " /usr/lib/gcc/i686-w64-mingw32/10-win32/include";
         lit " /usr/i686-w64-mingw32/include";
         lit "End of search list." ].

Definition sample_dump : str :=
  text [ lit "#define __SIZEOF_INT__ 4";
         lit "#define __VERSION__ 10-win32 20210110" ].

Definition odd_dump : str :=
  text [ lit "#define __SIZEOF_INT__ 4";
         [];
         lit "#define NAME" ].

Definition sample_error : str :=
  lit "fatal error: d3d9.h: No such file or directory".

(** A compiler that succeeds, with a short search list and two macros. *)
Definition sample_popen (fs : filesystem) (args : list str) (input : str)
  : option completed :=
  if existsb (str_eqb (lit "-v")) args then
    Some {| returncode := 0; s_out := Some [];
            s_err := Some sample_search_output |}
  else if existsb (str_eqb (lit "-dM")) args then
    Some {| returncode := 0; s_out := Some sample_dump; s_err := Some [] |}
  else
    Some {| returncode := 0;
            s_out := Some (text [lit "typedef __int128 wide_t;"]);
            s_err := Some [] |}.

(** A compiler that fails on every input. *)
Definition failing_popen (fs : filesystem) (args : list str) (input : str)
  : option completed :=
  Some {| returncode := 1; s_out := Some []; s_err := Some sample_error |}.

(** A compiler whose macro dump has an empty line and a macro without a
    value. *)
Definition odd_dump_popen (fs : filesystem) (args : list str) (input : str)
  : option completed :=
  if existsb (str_eqb (lit "-dM")) args then
    Some {| returncode := 0; s_out := Some odd_dump; s_err := Some [] |}
  else sample_popen fs args input.

(** *** Files, outcomes and lines *)

(** [preserves R c]: the worlds before and after every run of [c] are
    related by [R]. *)
Definition preserves (R : world -> world -> Prop) {A : Type} (c : M A)
  : Prop :=
  forall w, R w (snd (c w)).

(** [touches fs w w']: from [w] to [w'] no file outside [fs] has changed,
    on disk or as an open file. *)
Definition touches (fs : list str) (w w' : world) : Prop :=
  forall g, ~ In g fs -> files w' g = files w g /\ buffers w' g = buffers w g.

(** [one_line s]: [s] holds no line boundary of [str.splitlines]. *)
Definition one_line (s : str) : bool :=
  forallb (fun c => negb (is_linebreak c)) s.

(** [tidy h]: no flag of the lists the flag list is built from holds a
    line boundary. *)
Definition tidy (h : lists) : bool :=
  forallb one_line (l_mingw h) && forallb one_line (l_default32 h)
  && forallb one_line (l_default64 h).

(** [trimmed s]: [s] neither starts nor ends with a character that
    [str.strip] removes. *)
Definition trimmed (s : str) : bool :=
  match s with
  | [] => true
  | c :: _ => negb (is_space c) && negb (is_space (last s c))
  end.

(** The flag the loop over the dumped macros appends for a line, [None]
    when the pattern does not match the line. *)
Definition define_flag_of (line : str) : option str :=
  match re_search define_pattern line with
  | Some m =>
      Some (lit "-D" ++ fmt_group m 1 ++ lit "=" ++ [34%N] ++ fmt_group m 2
            ++ [34%N])
  | None => None
  end.

(** The messages of the two steps and of [run_gcc]. *)
Definition flatten_message : str := lit "Processing sources...".
Definition options_message : str := lit "Generating parser options...".
Definition failure_message (e : str) : str := lit "GCC command failed: " ++ e.

(** The three command lines of the script, and the text on their standard
    input. *)
Definition flatten_args (gcc_cmd : str) (gcc_flags : list str) : list str :=
  [gcc_cmd] ++ gcc_flags ++ [lit "-P"; lit "-E"] ++ [lit "-"].
Definition search_args (gcc_cmd : str) (gcc_flags : list str) : list str :=
  [gcc_cmd] ++ gcc_flags ++ [lit "-xc"; lit "-E"; lit "-v"] ++ [lit "-"].
Definition dump_args (gcc_cmd : str) (gcc_flags : list str) : list str :=
  [gcc_cmd] ++ gcc_flags ++ [lit "-dM"; lit "-E"] ++ [lit "-"].
Definition include_line (a_name : str) : str :=
  lit "#include <" ++ a_name ++ lit ".h>".
Definition empty_file : str := lit " /* :) */ ".

(** A system without the compiler. *)
Definition missing_popen (fs : filesystem) (args : list str) (input : str)
  : option completed := None.

(** A compiler whose verbose run prints an end marker before the search
    list. *)
Definition early_end_output : str :=
  text [ lit "End of search list.";
         lit "#include <...> search starts here:";
         lit " /usr/i686-w64-mingw32/include";
         lit "End of search list." ].

Definition early_end_popen (fs : filesystem) (args : list str) (input : str)
  : option completed :=
  if existsb (str_eqb (lit "-v")) args then
    Some {| returncode := 0; s_out := Some [];
            s_err := Some early_end_output |}
  else sample_popen fs args input.

(** A compiler whose verbose run prints no search list. *)
Definition no_list_popen (fs : filesystem) (args : list str) (input : str)
  : option completed :=
  if existsb (str_eqb (lit "-v")) args then
    Some {| returncode := 0; s_out := Some [];
            s_err := Some (text [lit "ignoring nonexistent directory"]) |}
  else sample_popen fs args input.

(** * Properties *)

(** ** Text *)

Lemma str_eqb_refl (a : str) : str_eqb a a = true.
Proof.
  induction a as [|x a IH]; simpl; [reflexivity|].
  rewrite N.eqb_refl. exact IH.
Qed.

Lemma str_eqb_eq (a b : str) : str_eqb a b = true <-> a = b.
Proof.
  split.
  - revert b. induction a as [|x a IH]; intros [|y b] H; simpl in H;
      try discriminate; [reflexivity|].
    apply andb_true_iff in H. destruct H as [Hx Ha].
    apply N.eqb_eq in Hx. subst y. f_equal. apply IH, Ha.
  - intros ->. apply str_eqb_refl.
Qed.

Lemma str_eqb_neq {a b : str} : a <> b -> str_eqb a b = false.
Proof.
  intros H. destruct (str_eqb a b) eqn:E; [|reflexivity].
  apply str_eqb_eq in E. contradiction.
Qed.

(** ** Invocation *)



(** ** The list objects *)

Lemma grown_by_refl P h : grown_by P h h.
Proof.
  repeat split; try reflexivity. exists [].
  split; [symmetry; apply app_nil_r|constructor].
Qed.

Lemma grown_by_trans P h1 h2 h3 :
  grown_by P h1 h2 -> grown_by P h2 h3 -> grown_by P h1 h3.
Proof.
  intros [[m1 [E1 F1]] [A1 [B1 C1]]] [[m2 [E2 F2]] [A2 [B2 C2]]].
  repeat split; try congruence.
  exists (m1 ++ m2). split.
  - rewrite E2, E1. symmetry. apply app_assoc.
  - apply Forall_app. split; assumption.
Qed.

Lemma grown_refl h : grown h h.
Proof. apply grown_by_refl. Qed.

Lemma grown_trans h1 h2 h3 : grown h1 h2 -> grown h2 h3 -> grown h1 h3.
Proof. apply grown_by_trans. Qed.

Lemma bind_ok {A B} (c : M A) (k : A -> M B) w a w' :
  c w = (Ok a, w') -> bind c k w = k a w'.
Proof. unfold bind. intros ->. reflexivity. Qed.

Lemma bind_raised {A B} (c : M A) (k : A -> M B) w e w' :
  c w = (Raised e, w') -> bind c k w = (Raised e, w').
Proof. unfold bind. intros ->. reflexivity. Qed.

Lemma print_bind {B} s (k : unit -> M B) w :
  bind (print s) k w = k tt (says w s).
Proof. reflexivity. Qed.

Lemma open_w_bind {B} p (k : str -> M B) w :
  unwritable w p = false ->
  bind (open_w p) k w = k p (opened p w).
Proof. intros H. unfold bind, open_w. rewrite H. reflexivity. Qed.

Lemma open_w_fails {B} p (k : str -> M B) w :
  unwritable w p = true ->
  bind (open_w p) k w = (Raised OSError, w).
Proof. intros H. unfold bind, open_w. rewrite H. reflexivity. Qed.

Lemma write_bind {B} f s (k : unit -> M B) w b :
  buffers w f = Some b ->
  bind (write f s) k w = k tt (with_buffers w (fs_set f (b ++ s) (buffers w))).
Proof. intros H. unfold bind, write. rewrite H. reflexivity. Qed.

Lemma finally_close {A} (c : M A) f w :
  finally c (close f) w = (fst (c w), closed f (snd (c w))).
Proof. unfold finally, close. destruct (c w). reflexivity. Qed.

Lemma with_open_eq {A} p (body : str -> M A) w :
  unwritable w p = false ->
  with_open p body w
  = (fst (body p (opened p w)), closed p (snd (body p (opened p w)))).
Proof.
  intros H. unfold with_open. rewrite (open_w_bind _ _ _ H).
  apply finally_close.
Qed.

Lemma with_open_fails {A} p (body : str -> M A) w :
  unwritable w p = true ->
  with_open p body w = (Raised OSError, w).
Proof. intros H. unfold with_open. apply open_w_fails, H. Qed.

Lemma encode_bind {B} s (k : unit -> M B) w :
  encodable s = true -> bind (encode s) k w = k tt w.
Proof. intros H. unfold bind, encode. rewrite H. reflexivity. Qed.

Lemma encode_fails {B} s (k : unit -> M B) w :
  encodable s = false -> bind (encode s) k w = (Raised UnicodeEncodeError, w).
Proof. intros H. unfold bind, encode. rewrite H. reflexivity. Qed.

Lemma encodable_include a_name :
  encodable (lit "#include <" ++ a_name ++ lit ".h>") = encodable a_name.
Proof.
  unfold encodable. rewrite !forallb_app.
  change (forallb (fun c => negb (is_surrogate c)) (lit "#include <"))
    with true.
  change (forallb (fun c => negb (is_surrogate c)) (lit ".h>")) with true.
  rewrite andb_true_r. reflexivity.
Qed.

Lemma heap_closed f w : heap (closed f w) = heap w.
Proof. unfold closed. destruct (buffers w f); reflexivity. Qed.

Lemma printed_closed f w : printed (closed f w) = printed w.
Proof. unfold closed. destruct (buffers w f); reflexivity. Qed.

Lemma get_list_bind {B} r (k : list str -> M B) w :
  bind (get_list r) k w = k (load r (heap w)) w.
Proof. reflexivity. Qed.

Lemma extend_bind {B} r xs (k : unit -> M B) w :
  bind (extend r xs) k w
  = k tt (with_heap w (store r (load r (heap w) ++ xs) (heap w))).
Proof. reflexivity. Qed.

(** A computation [keeps R] when the lists before and after every run of
    it are related by [R]; [R] is [eq] for code that leaves the lists
    alone and [grown] for code that appends to [MINGW_OPTIONS]. *)
Section Keeps.

Variable R : lists -> lists -> Prop.
Hypothesis R_refl : forall h, R h h.
Hypothesis R_trans : forall h1 h2 h3, R h1 h2 -> R h2 h3 -> R h1 h3.

Lemma keeps_bind {A B} (c : M A) (k : A -> M B) :
  keeps R c -> (forall a, keeps R (k a)) -> keeps R (bind c k).
Proof.
  intros Hc Hk w. unfold bind. specialize (Hc w).
  destruct (c w) as [[a|e] w1]; simpl in *; [|exact Hc].
  eapply R_trans; [exact Hc|apply Hk].
Qed.

Lemma keeps_ret {A} (a : A) : keeps R (ret a).
Proof. intros w. apply R_refl. Qed.

Lemma keeps_raise {A} e : keeps R (@raise A e).
Proof. intros w. apply R_refl. Qed.

Lemma keeps_print s : keeps R (print s).
Proof. intros w. apply R_refl. Qed.

Lemma keeps_open_w p : keeps R (open_w p).
Proof.
  intros w. unfold open_w. destruct (unwritable w p); apply R_refl.
Qed.

Lemma keeps_write f s : keeps R (write f s).
Proof.
  intros w. unfold write. destruct (buffers w f); apply R_refl.
Qed.

Lemma keeps_with_open {A} p (body : str -> M A) :
  (forall f, keeps R (body f)) -> keeps R (with_open p body).
Proof.
  intros Hb w. destruct (unwritable w p) eqn:Hp.
  - rewrite (with_open_fails _ _ _ Hp). apply R_refl.
  - rewrite (with_open_eq _ _ _ Hp). cbn [snd]. rewrite heap_closed.
    apply (Hb p (opened p w)).
Qed.

Lemma keeps_get_list r : keeps R (get_list r).
Proof. intros w. apply R_refl. Qed.

Lemma keeps_decode b : keeps R (decode b).
Proof. destruct b; [apply keeps_ret|apply keeps_raise]. Qed.

Lemma keeps_encode s : keeps R (encode s).
Proof.
  unfold encode. destruct (encodable s); [apply keeps_ret|apply keeps_raise].
Qed.

Lemma keeps_for_each {A} (l : list A) (body : A -> M unit) :
  (forall x, keeps R (body x)) -> keeps R (for_each l body).
Proof.
  intros Hb. induction l as [|x l IH]; simpl.
  - apply keeps_ret.
  - apply keeps_bind; [apply Hb|intros _; exact IH].
Qed.

Variable popen : filesystem -> list str -> str -> option completed.

Lemma keeps_run_gcc gcc flags input cap :
  keeps R (run_gcc popen gcc flags input cap).
Proof.
  unfold run_gcc. apply keeps_bind; [apply keeps_get_list|].
  intros gcc_flags w.
  destruct (popen (files w) _ input) as [p|]; [|apply R_refl].
  apply keeps_bind; [apply keeps_encode|]. intros _.
  destruct (negb (returncode p =? 0)%Z).
  - apply keeps_bind; [apply keeps_decode|]. intros e.
    apply keeps_bind; [apply keeps_print|]. intros _. apply keeps_raise.
  - destruct cap; apply keeps_decode.
Qed.

Lemma keeps_include_flags out : keeps R (include_flags out).
Proof.
  unfold include_flags.
  destruct (index search_starts out); [|apply keeps_raise].
  destruct (index search_ends out); [apply keeps_ret|apply keeps_raise].
Qed.

Lemma keeps_flatten_header gcc_cmd a_name a_arch :
  keeps R (flatten_header popen gcc_cmd a_name a_arch).
Proof.
  unfold flatten_header.
  apply keeps_bind; [apply keeps_print|intros _].
  apply keeps_with_open. intros f.
  apply keeps_bind; [apply keeps_write|intros _].
  apply keeps_bind; [apply keeps_run_gcc|intros src].
  apply keeps_write.
Qed.

End Keeps.

Section ScriptFacts.

Variable popen : filesystem -> list str -> str -> option completed.

Lemma grown_by_extend (P : str -> Prop) xs :
  Forall P xs -> keeps (grown_by P) (extend MINGW_OPTIONS xs).
Proof.
  intros H w. simpl. repeat split; try reflexivity. exists xs.
  split; [reflexivity|exact H].
Qed.

Lemma grown_extend xs : keeps grown (extend MINGW_OPTIONS xs).
Proof. apply grown_by_extend. apply Forall_forall. intros; exact I. Qed.

Lemma grown_define_flag i : keeps grown (define_flag MINGW_OPTIONS i).
Proof.
  unfold define_flag.
  destruct (re_search define_pattern i);
    [apply grown_extend|apply keeps_raise, grown_refl].
Qed.

(** What is left of option generation once the default table is appended. *)
Lemma grown_options_tail gcc_cmd f :
  keeps grown
    (err <- run_gcc popen gcc_cmd [lit "-xc"; lit "-E"; lit "-v"]
              (lit " /* :) */ ") true ;;
     incs <- include_flags (splitlines err) ;;
     extend MINGW_OPTIONS incs ;;
     out <- run_gcc popen gcc_cmd [lit "-dM"; lit "-E"] (lit " /* :) */ ")
              false ;;
     for_each (splitlines out) (define_flag MINGW_OPTIONS) ;;
     all <- get_list MINGW_OPTIONS ;;
     for_each all (fun opt => write f (opt ++ [nl])))%py.
Proof.
  pose proof grown_refl as Hr. pose proof grown_trans as Ht.
  apply keeps_bind; [assumption|apply keeps_run_gcc; assumption|intros err].
  apply keeps_bind; [assumption|apply keeps_include_flags; assumption|].
  intros incs.
  apply keeps_bind; [assumption|apply grown_extend|intros _].
  apply keeps_bind; [assumption|apply keeps_run_gcc; assumption|intros out].
  apply keeps_bind; [assumption| |intros _].
  { apply keeps_for_each; [assumption..|]. intros. apply grown_define_flag. }
  apply keeps_bind; [assumption|apply keeps_get_list; assumption|intros all].
  apply keeps_for_each; [assumption..|]. intros. apply keeps_write, Hr.
Qed.

Lemma default_options_32_or_64 {a_arch} :
  a_arch = lit "32" \/ a_arch = lit "64" ->
  default_options a_arch = DEFAULT_OPTIONS_32.
Proof. intros [-> | ->]; reflexivity. Qed.

(** When the options file cannot be opened, option generation ends there:
    it has printed its progress line and done nothing else. *)
Lemma generate_options_locked gcc_cmd a_name a_arch w :
  unwritable w (options_file a_name a_arch) = true ->
  generate_options popen gcc_cmd a_name a_arch w
  = (Raised OSError, says w (lit "Generating parser options...")).
Proof.
  intros H. unfold generate_options. rewrite print_bind.
  apply with_open_fails, H.
Qed.

(** Option generation first appends the chosen table to [MINGW_OPTIONS],
    and whatever follows only appends more. *)
Lemma generate_options_appends gcc_cmd a_name a_arch w :
  unwritable w (options_file a_name a_arch) = false ->
  exists more,
    l_mingw (heap (snd (generate_options popen gcc_cmd a_name a_arch w)))
    = l_mingw (heap w) ++ load (default_options a_arch) (heap w) ++ more
    /\ l_default32 (heap (snd (generate_options popen gcc_cmd a_name a_arch w)))
       = l_default32 (heap w)
    /\ l_default64 (heap (snd (generate_options popen gcc_cmd a_name a_arch w)))
       = l_default64 (heap w)
    /\ l_gcc (heap (snd (generate_options popen gcc_cmd a_name a_arch w)))
       = l_gcc (heap w).
Proof.
  intros Ho. unfold generate_options.
  rewrite print_bind, with_open_eq by exact Ho. cbn [snd].
  rewrite !heap_closed.
  rewrite get_list_bind, extend_bind.
  match goal with |- context [bind ?c ?k ?w1] =>
    destruct (grown_options_tail gcc_cmd (options_file a_name a_arch) w1)
      as [[more [Em _]] [E32 [E64 Eg]]]
  end.
  cbn [heap with_heap with_files with_buffers opened says] in *.
  cbn [l_mingw l_default32 l_default64 l_gcc store load] in *.
  exists more. rewrite Em, E32, E64, Eg, <- app_assoc.
  repeat split; reflexivity.
Qed.

End ScriptFacts.

(** ** The script, step by step *)

Section MainFacts.

Variable popen : filesystem -> list str -> str -> option completed.

Lemma main_valid_arch prog a_name a_arch w :
  a_arch = lit "32" \/ a_arch = lit "64" ->
  main popen [prog; a_name; a_arch] w
  = (flatten_header popen (gcc_cmd_of a_arch) a_name a_arch ;;
     generate_options popen (gcc_cmd_of a_arch) a_name a_arch)%py
      (says w (profile_message a_name a_arch)).
Proof.
  intros [-> | ->]; reflexivity.
Qed.

Lemma content_fs_set f c fs : content (fs_set f c fs) f = c.
Proof. unfold content, fs_set. rewrite str_eqb_refl. reflexivity. Qed.

Lemma fs_set_same f c fs : fs_set f c fs f = Some c.
Proof. unfold fs_set. rewrite str_eqb_refl. reflexivity. Qed.

Lemma fs_set_other f c fs g : g <> f -> fs_set f c fs g = fs g.
Proof. intros H. unfold fs_set. rewrite (str_eqb_neq H). reflexivity. Qed.

(** The flattening step when the preprocessor fails. *)
Lemma flatten_header_failure gcc_cmd a_name a_arch w p e :
  unwritable w (header_file a_name a_arch) = false ->
  encodable a_name = true ->
  popen (fs_set (header_file a_name a_arch) [] (files w))
    ([gcc_cmd] ++ l_gcc (heap w) ++ [lit "-P"; lit "-E"] ++ [lit "-"])
    (lit "#include <" ++ a_name ++ lit ".h>") = Some p ->
  returncode p <> 0%Z ->
  s_err p = Some e ->
  fst (flatten_header popen gcc_cmd a_name a_arch w) = Raised (SystemExit 1)
  /\ printed (snd (flatten_header popen gcc_cmd a_name a_arch w))
     = printed w ++ [lit "Processing sources...";
                     lit "GCC command failed: " ++ e]
  /\ files (snd (flatten_header popen gcc_cmd a_name a_arch w))
       (header_file a_name a_arch) = Some DEFAULT_SOURCE
  /\ (forall g, g <> header_file a_name a_arch ->
        files (snd (flatten_header popen gcc_cmd a_name a_arch w)) g
        = files w g)
  /\ heap (snd (flatten_header popen gcc_cmd a_name a_arch w)) = heap w.
Proof.
  intros Hopen Henc Hp Hrc He.
  set (h := header_file a_name a_arch) in *.
  set (w0 := says w (lit "Processing sources...")).
  assert (E : (write h DEFAULT_SOURCE ;;
               src <- run_gcc popen gcc_cmd [lit "-P"; lit "-E"]
                        (lit "#include <" ++ a_name ++ lit ".h>") false ;;
               write h (process_source src))%py (opened h w0)
              = (Raised (SystemExit 1),
                 says (with_buffers (opened h w0)
                         (fs_set h DEFAULT_SOURCE (buffers (opened h w0))))
                   (lit "GCC command failed: " ++ e))).
  { rewrite (write_bind h DEFAULT_SOURCE _ (opened h w0) [])
      by apply fs_set_same.
    change ([] ++ DEFAULT_SOURCE) with DEFAULT_SOURCE.
    unfold run_gcc. unfold bind at 1. rewrite get_list_bind.
    cbn [files heap says with_files with_buffers opened load w0].
    rewrite Hp. rewrite encode_bind by (rewrite encodable_include; exact Henc).
    apply Z.eqb_neq in Hrc. rewrite Hrc. cbn [negb].
    rewrite He. reflexivity. }
  unfold flatten_header. rewrite print_bind. fold w0. fold h.
  rewrite with_open_eq, E by exact Hopen. cbn [fst snd].
  unfold closed.
  cbn [buffers says with_buffers with_files opened].
  rewrite fs_set_same.
  cbn [printed files heap buffers says with_buffers with_files opened w0].
  rewrite content_fs_set. cbn [app].
  repeat split.
  - rewrite <- app_assoc. reflexivity.
  - apply fs_set_same.
  - intros g Hg. rewrite !fs_set_other by exact Hg. reflexivity.
Qed.

End MainFacts.

(** A whole run in the sample environment: the header file holds the
    prologue and the sanitized preprocessor output, the options file one
    flag per line, and the process ends with status 0. *)
Example sample_run :
  fst (main sample_popen (sample_argv "32") (initial_world no_files)) = Ok tt
  /\ printed (snd (main sample_popen (sample_argv "32")
                     (initial_world no_files)))
     = [lit "Generating profile d3d9 (32-bit)";
        lit "Processing sources...";
        lit "Generating parser options..."]
  /\ files (snd (main sample_popen (sample_argv "32")
                   (initial_world no_files))) (lit "d3d9_32.h")
     = Some (DEFAULT_SOURCE
             ++ text [lit "typedef long /* GHIDRA: Removed __int128 */ wide_t;"])
  /\ files (snd (main sample_popen (sample_argv "32")
                   (initial_world no_files)))
       (lit "d3d9_32_parser_options.txt")
     = Some (text (MINGW_OPTIONS_0 ++ DEFAULT_OPTIONS_32_0
                   ++ [lit "-I/usr/lib/gcc/i686-w64-mingw32/10-win32/include";
                       lit "-I/usr/i686-w64-mingw32/include";
                       lit "-D__SIZEOF_INT__=" ++ quoted (lit "4");
                       lit "-D__VERSION__="
                       ++ quoted (lit "10-win32 20210110")])).
Proof. vm_compute. repeat split. Qed.

(** ** Failure of the flattening step *)

(** C3, as the specification states it, fails: with a compiler that exits
    with status 1 the script stops with status 1, and the header file is
    there and holds the prologue. *)
Lemma failed_flattening_leaves_prologue :
  fst (main failing_popen (sample_argv "32") (initial_world no_files))
  = Raised (SystemExit 1)
  /\ files (snd (main failing_popen (sample_argv "32")
                   (initial_world no_files))) (lit "d3d9_32.h")
     = Some DEFAULT_SOURCE
  /\ content (files (snd (main failing_popen (sample_argv "32")
                            (initial_world no_files))))
       (lit "d3d9_32.h") <> [].
Proof.
  vm_compute. repeat split. discriminate.
Qed.

Lemma compiler_for_gcc a_arch gcc :
  compiler_for a_arch gcc ->
  (a_arch = lit "32" \/ a_arch = lit "64") /\ gcc = gcc_cmd_of a_arch.
Proof.
  intros [[-> ->]|[-> ->]]; split; auto.
Qed.

(** C3, amended.  When the header file can be opened, the name of the
    header has a UTF-8 encoding, and the preprocessor run of the
    flattening step exits with a status other than zero and an error
    stream that is valid UTF-8, the script prints [GCC command failed: ]
    followed by the captured error stream and stops with status 1.  The
    header file was opened and the prologue written before the
    preprocessor ran: the file exists and holds exactly the prologue.
    Option generation is not started, and the lists are as they were.
    The compiler is [i686-w64-mingw32-gcc] for 32 and
    [x86_64-w64-mingw32-gcc] for 64. *)
Theorem flattening_failure
  (popen : filesystem -> list str -> str -> option completed)
  (prog a_name a_arch gcc : str) (w : world) (p : completed) (e : str) :
  compiler_for a_arch gcc ->
  unwritable w (header_file a_name a_arch) = false ->
  encodable a_name = true ->
  popen (fs_set (header_file a_name a_arch) [] (files w))
    ([gcc] ++ l_gcc (heap w) ++ [lit "-P"; lit "-E"] ++ [lit "-"])
    (lit "#include <" ++ a_name ++ lit ".h>") = Some p ->
  returncode p <> 0%Z ->
  s_err p = Some e ->
  fst (main popen [prog; a_name; a_arch] w) = Raised (SystemExit 1)
  /\ exit_status (fst (main popen [prog; a_name; a_arch] w)) = 1%Z
  /\ printed (snd (main popen [prog; a_name; a_arch] w))
     = printed w ++ [profile_message a_name a_arch;
                     lit "Processing sources...";
                     lit "GCC command failed: " ++ e]
  /\ files (snd (main popen [prog; a_name; a_arch] w))
       (header_file a_name a_arch) = Some DEFAULT_SOURCE
  /\ heap (snd (main popen [prog; a_name; a_arch] w)) = heap w.
Proof.
  intros Hgcc Hopen Henc Hp Hrc He.
  destruct (compiler_for_gcc _ _ Hgcc) as [Harch ->].
  rewrite (main_valid_arch popen prog a_name a_arch w Harch).
  destruct (flatten_header_failure popen (gcc_cmd_of a_arch) a_name a_arch
              (says w (profile_message a_name a_arch)) p e Hopen Henc Hp Hrc
              He)
    as [H1 [H2 [H3 [H4 H5]]]].
  unfold bind.
  destruct (flatten_header popen (gcc_cmd_of a_arch) a_name a_arch
              (says w (profile_message a_name a_arch))) as [r w'].
  cbn [fst snd] in *. subst r. cbn [fst snd exit_status].
  repeat split; try assumption.
  rewrite H2. cbn [printed says]. rewrite <- app_assoc. reflexivity.
Qed.

Lemma flattening_failure_witness :
  fst (main failing_popen (sample_argv "32") (initial_world no_files))
  = Raised (SystemExit 1)
  /\ files (snd (main failing_popen (sample_argv "32")
                   (initial_world no_files)))
       (header_file (lit "d3d9") (lit "32")) = Some DEFAULT_SOURCE.
Proof.
  destruct (flattening_failure failing_popen (lit "generate.py")
              (lit "d3d9") (lit "32") (lit "i686-w64-mingw32-gcc")
              (initial_world no_files)
              {| returncode := 1; s_out := Some [];
                 s_err := Some sample_error |}
              sample_error)
    as [H1 [_ [_ [H4 _]]]].
  - left. split; reflexivity.
  - reflexivity.
  - reflexivity.
  - reflexivity.
  - discriminate.
  - reflexivity.
  - split; [exact H1|exact H4].
Defined.

(** ** The default-macro table *)

(** Option generation with a compiler that cannot be started: the table
    has been appended, and nothing else. *)
Lemma generate_options_table_only
  (popen : filesystem -> list str -> str -> option completed)
  (gcc_cmd a_name a_arch : str) (w : world) :
  unwritable w (options_file a_name a_arch) = false ->
  popen (fs_set (options_file a_name a_arch) [] (files w))
    ([gcc_cmd] ++ l_gcc (heap w) ++ [lit "-xc"; lit "-E"; lit "-v"]
     ++ [lit "-"]) (lit " /* :) */ ") = None ->
  l_mingw (heap (snd (generate_options popen gcc_cmd a_name a_arch w)))
  = l_mingw (heap w) ++ load (default_options a_arch) (heap w).
Proof.
  intros Ho Hp. unfold generate_options.
  rewrite print_bind, with_open_eq by exact Ho. cbn [snd].
  rewrite heap_closed, get_list_bind, extend_bind.
  unfold run_gcc. unfold bind at 1. rewrite get_list_bind.
  cbn [files heap says with_files with_buffers with_heap opened load store
       l_gcc].
  rewrite Hp. reflexivity.
Qed.

(** C4. For both accepted architecture values the comparison with ['x64']
    is false and the table chosen is [DEFAULT_OPTIONS_32].  Once the
    options file is open, it is the table option generation appends to
    the flag list, right after the flags the list already holds; with a
    compiler that cannot be started the list ends with it.  When the
    options file cannot be opened, nothing is appended. *)
Theorem option_generator_selects_32
  (popen : filesystem -> list str -> str -> option completed)
  (gcc_cmd a_name a_arch : str) (w : world) :
  a_arch = lit "32" \/ a_arch = lit "64" ->
  str_eqb a_arch (lit "x64") = false
  /\ default_options a_arch = DEFAULT_OPTIONS_32
  /\ (unwritable w (options_file a_name a_arch) = false ->
      exists more,
        l_mingw (heap (snd (generate_options popen gcc_cmd a_name a_arch w)))
        = l_mingw (heap w) ++ l_default32 (heap w) ++ more)
  /\ (unwritable w (options_file a_name a_arch) = false ->
      popen (fs_set (options_file a_name a_arch) [] (files w))
        ([gcc_cmd] ++ l_gcc (heap w) ++ [lit "-xc"; lit "-E"; lit "-v"]
         ++ [lit "-"]) (lit " /* :) */ ") = None ->
      l_mingw (heap (snd (generate_options popen gcc_cmd a_name a_arch w)))
      = l_mingw (heap w) ++ l_default32 (heap w))
  /\ (unwritable w (options_file a_name a_arch) = true ->
      heap (snd (generate_options popen gcc_cmd a_name a_arch w)) = heap w).
Proof.
  intros Harch.
  split; [destruct Harch as [-> | ->]; reflexivity|].
  split; [apply default_options_32_or_64, Harch|].
  split; [|split].
  - intros Ho.
    destruct (generate_options_appends popen gcc_cmd a_name a_arch w Ho)
      as [more [Em _]].
    rewrite (default_options_32_or_64 Harch) in Em.
    exists more. exact Em.
  - intros Ho Hp.
    rewrite (generate_options_table_only popen gcc_cmd a_name a_arch w Ho Hp).
    rewrite (default_options_32_or_64 Harch). reflexivity.
  - intros Ho.
    rewrite (generate_options_locked popen gcc_cmd a_name a_arch w Ho).
    reflexivity.
Qed.

Lemma option_generator_selects_32_witness :
  default_options (lit "64") = DEFAULT_OPTIONS_32
  /\ (exists more,
        l_mingw (heap (snd (generate_options sample_popen
                              (lit "x86_64-w64-mingw32-gcc") (lit "d3d9")
                              (lit "64") (initial_world no_files))))
        = MINGW_OPTIONS_0 ++ DEFAULT_OPTIONS_32_0 ++ more)
  /\ l_mingw (heap (snd (generate_options missing_popen
                           (lit "x86_64-w64-mingw32-gcc") (lit "d3d9")
                           (lit "64") (initial_world no_files))))
     = MINGW_OPTIONS_0 ++ DEFAULT_OPTIONS_32_0.
Proof.
  split; [|split].
  - apply (option_generator_selects_32 sample_popen
             (lit "x86_64-w64-mingw32-gcc") (lit "d3d9") (lit "64")
             (initial_world no_files)).
    right. reflexivity.
  - apply (option_generator_selects_32 sample_popen
             (lit "x86_64-w64-mingw32-gcc") (lit "d3d9") (lit "64")
             (initial_world no_files));
      [right; reflexivity|reflexivity].
  - apply (option_generator_selects_32 missing_popen
             (lit "x86_64-w64-mingw32-gcc") (lit "d3d9") (lit "64")
             (initial_world no_files));
      [right; reflexivity|reflexivity|reflexivity].
Defined.

(** ** The lists after a run *)

Lemma valid_arch a_arch :
  negb (str_eqb a_arch (lit "32")) && negb (str_eqb a_arch (lit "64")) = false ->
  a_arch = lit "32" \/ a_arch = lit "64".
Proof.
  intros H. apply andb_false_iff in H.
  destruct H as [H|H]; apply negb_false_iff, str_eqb_eq in H; auto.
Qed.

Lemma eq_lists_refl (h : lists) : h = h.
Proof. reflexivity. Qed.

Lemma eq_lists_trans (h1 h2 h3 : lists) : h1 = h2 -> h2 = h3 -> h1 = h3.
Proof. congruence. Qed.

(** C5, as the specification states it, fails: after a successful run for
    the sample environment [MINGW_OPTIONS] holds twenty-two flags, not its
    initial five. *)
Lemma mingw_options_is_mutated :
  fst (main sample_popen (sample_argv "32") (initial_world no_files)) = Ok tt
  /\ length (l_mingw (heap (snd (main sample_popen (sample_argv "32")
                                   (initial_world no_files))))) = 22
  /\ l_mingw (heap (snd (main sample_popen (sample_argv "32")
                           (initial_world no_files))))
     <> MINGW_OPTIONS_0.
Proof.
  vm_compute. repeat split. discriminate.
Qed.

(** C5, amended.  [DEFAULT_OPTIONS_32], [DEFAULT_OPTIONS_64] and
    [GCC_FLAGS] are never mutated: after every run, however it ends, they
    hold their initial values.  [MINGW_OPTIONS] is shared with [opts] and
    is extended in place: after every run it begins with its initial five
    flags, and after a successful run these are followed by the flags of
    [DEFAULT_OPTIONS_32] and the discovered flags. *)
Theorem lists_after_run
  (popen : filesystem -> list str -> str -> option completed)
  (argv : list str) (w : world) :
  heap w = initial_lists ->
  l_default32 (heap (snd (main popen argv w))) = DEFAULT_OPTIONS_32_0
  /\ l_default64 (heap (snd (main popen argv w))) = DEFAULT_OPTIONS_64_0
  /\ l_gcc (heap (snd (main popen argv w))) = GCC_FLAGS_0
  /\ (exists more,
        l_mingw (heap (snd (main popen argv w))) = MINGW_OPTIONS_0 ++ more)
  /\ (fst (main popen argv w) = Ok tt ->
      exists more,
        l_mingw (heap (snd (main popen argv w)))
        = MINGW_OPTIONS_0 ++ DEFAULT_OPTIONS_32_0 ++ more).
Proof.
  intros Hw.
  assert (Hbad : forall r : res unit * world,
             heap (snd r) = initial_lists -> fst r <> Ok tt ->
             l_default32 (heap (snd r)) = DEFAULT_OPTIONS_32_0
             /\ l_default64 (heap (snd r)) = DEFAULT_OPTIONS_64_0
             /\ l_gcc (heap (snd r)) = GCC_FLAGS_0
             /\ (exists more, l_mingw (heap (snd r)) = MINGW_OPTIONS_0 ++ more)
             /\ (fst r = Ok tt ->
                 exists more,
                   l_mingw (heap (snd r))
                   = MINGW_OPTIONS_0 ++ DEFAULT_OPTIONS_32_0 ++ more)).
  { intros r -> Hr. repeat split; try reflexivity.
    - exists []. reflexivity.
    - intros E. contradiction. }
  destruct argv as [|prog [|a_name [|a_arch [|x argv]]]];
    try (apply Hbad; [exact Hw|discriminate]).
  destruct (negb (str_eqb a_arch (lit "32")) && negb (str_eqb a_arch (lit "64")))
    eqn:Ea.
  { unfold main. rewrite Ea. apply Hbad; [exact Hw|discriminate]. }
  apply valid_arch in Ea.
  rewrite (main_valid_arch popen prog a_name a_arch w Ea).
  pose proof (keeps_flatten_header eq eq_lists_refl eq_lists_trans popen
                (gcc_cmd_of a_arch) a_name a_arch
                (says w (profile_message a_name a_arch))) as Hf.
  unfold bind.
  destruct (flatten_header popen (gcc_cmd_of a_arch) a_name a_arch
              (says w (profile_message a_name a_arch))) as [[[]|e] w1].
  - cbn [snd heap says] in Hf. rewrite Hw in Hf.
    destruct (unwritable w1 (options_file a_name a_arch)) eqn:Ho.
    + rewrite (generate_options_locked popen _ _ _ _ Ho).
      apply Hbad; [cbn [snd heap says]; symmetry; exact Hf|discriminate].
    + destruct (generate_options_appends popen (gcc_cmd_of a_arch) a_name
                  a_arch w1 Ho) as [more [Em [E32 [E64 Eg]]]].
      rewrite (default_options_32_or_64 Ea) in Em.
      rewrite <- Hf in Em, E32, E64, Eg.
      rewrite Em, E32, E64, Eg.
      repeat split; try reflexivity.
      * exists (DEFAULT_OPTIONS_32_0 ++ more). reflexivity.
      * intros _. exists more. reflexivity.
  - apply Hbad; [|discriminate]. cbn [snd heap says] in Hf |- *.
    rewrite <- Hf. exact Hw.
Qed.

Lemma lists_after_run_witness :
  exists more,
    l_mingw (heap (snd (main sample_popen (sample_argv "64")
                          (initial_world no_files))))
    = MINGW_OPTIONS_0 ++ DEFAULT_OPTIONS_32_0 ++ more.
Proof.
  apply (lists_after_run sample_popen (sample_argv "64")
           (initial_world no_files)).
  - reflexivity.
  - vm_compute. reflexivity.
Defined.

(** ** Include paths *)

Lemma index_app_first x l1 l2 :
  ~ In x l1 -> index x (l1 ++ x :: l2) = Some (length l1).
Proof.
  induction l1 as [|y l1 IH]; simpl; intros H.
  - rewrite str_eqb_refl. reflexivity.
  - rewrite str_eqb_neq by (intros E; apply H; left; exact E).
    rewrite IH by (intros E; apply H; right; exact E). reflexivity.
Qed.

Lemma slice_middle (l1 mid l2 : list str) (a : str) :
  slice (l1 ++ a :: mid ++ l2) (length l1 + 1) (length l1 + 1 + length mid)
  = mid.
Proof.
  unfold slice.
  replace (length l1 + 1 + length mid - (length l1 + 1)) with (length mid)
    by lia.
  replace (l1 ++ a :: mid ++ l2) with ((l1 ++ [a]) ++ mid ++ l2)
    by (rewrite <- app_assoc; reflexivity).
  replace (length l1 + 1) with (length (l1 ++ [a]))
    by (rewrite length_app; reflexivity).
  rewrite skipn_app, skipn_all, Nat.sub_diag. simpl.
  rewrite firstn_app, firstn_all, Nat.sub_diag. simpl.
  apply app_nil_r.
Qed.

(** The include flags of a diagnostic output whose first start marker is
    followed by [mid] and then by the first end marker. *)
Lemma include_flags_of_lines l1 mid l2 w :
  ~ In search_starts l1 -> ~ In search_ends l1 -> ~ In search_ends mid ->
  include_flags (l1 ++ [search_starts] ++ mid ++ [search_ends] ++ l2) w
  = (Ok (map (fun inc => lit "-I" ++ strip inc) mid), w).
Proof.
  intros Hs He Hm. unfold include_flags.
  cbn [app]. rewrite index_app_first by exact Hs.
  replace (l1 ++ search_starts :: mid ++ search_ends :: l2)
    with ((l1 ++ search_starts :: mid) ++ search_ends :: l2)
    by (rewrite <- app_assoc; reflexivity).
  rewrite index_app_first.
  - rewrite <- app_assoc. cbn [app].
    replace (length (l1 ++ search_starts :: mid))
      with (length l1 + 1 + length mid)
      by (rewrite length_app; simpl; lia).
    replace (mid ++ search_ends :: l2) with (mid ++ (search_ends :: l2))
      by reflexivity.
    rewrite slice_middle. reflexivity.
  - intros Hin. apply in_app_or in Hin. destruct Hin as [Hin|[Hin|Hin]].
    + apply He, Hin.
    + vm_compute in Hin. discriminate.
    + apply Hm, Hin.
Qed.

(** ** The matcher *)

Lemma prefixb_app (p t : str) : prefixb p (p ++ t) = true.
Proof.
  induction p as [|x p IH]; simpl; [reflexivity|].
  rewrite N.eqb_refl. exact IH.
Qed.

Lemma prefixb_true (p s : str) :
  prefixb p s = true -> s = p ++ skipn (length p) s.
Proof.
  revert s. induction p as [|x p IH]; intros s H; [reflexivity|].
  destruct s as [|y s]; [discriminate|]. simpl in H.
  apply andb_true_iff in H. destruct H as [Hx Hp].
  apply N.eqb_eq in Hx. subst y. simpl. f_equal. apply IH, Hp.
Qed.

Lemma prefixb_weaken (p a t : str) :
  prefixb p a = true -> prefixb p (a ++ t) = true.
Proof.
  revert a. induction p as [|x p IH]; intros a H; [reflexivity|].
  destruct a as [|y a]; [discriminate|]. simpl in *.
  apply andb_true_iff in H. destruct H as [Hx Hp].
  rewrite Hx. simpl. apply IH, Hp.
Qed.

Lemma skipn_app_exact (p t : str) : skipn (length p) (p ++ t) = t.
Proof. induction p as [|x p IH]; [reflexivity|exact IH]. Qed.

Lemma match_here_lits p re s o g :
  match_here (lits p ++ re) s o g
  = if prefixb p s then match_here re (skipn (length p) s) o g else None.
Proof.
  revert s. induction p as [|x p IH]; intros s; [reflexivity|].
  destruct s as [|y s]; [reflexivity|]. simpl.
  rewrite (N.eqb_sym x y).
  destruct (N.eqb y x); [apply IH|reflexivity].
Qed.

Lemma match_here_group_lit p s :
  match_here (group_lit p) s [] []
  = if prefixb p s
    then Some (skipn (length p) s, [(1, firstn (length p) s)])
    else None.
Proof.
  unfold group_lit. cbn [match_here]. rewrite match_here_lits.
  destruct (prefixb p s) eqn:E; [|reflexivity].
  cbn [match_here lookup Nat.eqb].
  rewrite length_skipn.
  apply prefixb_true in E.
  assert (length p <= length s).
  { rewrite E, length_app. lia. }
  replace (length s - (length s - length p)) with (length p) by lia.
  reflexivity.
Qed.

Lemma sub_nil re repl :
  sub re repl []
  = match match_here re [] [] [] with Some _ => repl | None => [] end.
Proof. simp sub. destruct (match_here re [] [] []); reflexivity. Qed.

Lemma sub_cons re repl c s :
  sub re repl (c :: s)
  = match match_here re (c :: s) [] [] with
    | Some (rest, _) =>
        if le_lt_dec (length (c :: s)) (length rest)
        then repl ++ c :: sub re repl s
        else repl ++ sub re repl rest
    | None => c :: sub re repl s
    end.
Proof.
  rewrite sub_equation_2.
  destruct (match_here re (c :: s) [] []) as [[rest g]|];
    cbn [sub_unfold_clause_2]; [|reflexivity].
  destruct (le_lt_dec (length (c :: s)) (length rest)); reflexivity.
Qed.

(** *** Replacing a literal *)

Section Literal.

Variables p r : str.
Hypothesis p_nonempty : p <> [].

Lemma rep_nil : sub (group_lit p) r [] = [].
Proof.
  rewrite sub_nil, match_here_group_lit.
  destruct p; [contradiction|reflexivity].
Qed.

Lemma rep_miss c s :
  prefixb p (c :: s) = false ->
  sub (group_lit p) r (c :: s) = c :: sub (group_lit p) r s.
Proof.
  intros H. rewrite sub_cons, match_here_group_lit, H. reflexivity.
Qed.

Lemma rep_hit s : sub (group_lit p) r (p ++ s) = r ++ sub (group_lit p) r s.
Proof.
  destruct p as [|x p'] eqn:Ep; [contradiction|]. rewrite <- Ep.
  assert (E : p ++ s = x :: (p' ++ s)) by (rewrite Ep; reflexivity).
  rewrite E at 1. rewrite sub_cons, <- E, match_here_group_lit.
  rewrite prefixb_app, skipn_app_exact.
  destruct (le_lt_dec (length (p ++ s)) (length s)) as [Hle|Hlt];
    [|reflexivity].
  rewrite Ep in Hle. simpl in Hle. rewrite length_app in Hle. lia.
Qed.

Lemma rep_absent s : occursb p s = false -> sub (group_lit p) r s = s.
Proof.
  induction s as [|c s IH]; intros H; [apply rep_nil|].
  simpl in H. apply orb_false_iff in H. destruct H as [Hp Ho].
  rewrite rep_miss by exact Hp. f_equal. apply IH, Ho.
Qed.

(** A match of [p] that starts in [a] and runs into [w] needs a suffix of
    [p] at the start of [w]. *)
Lemma straddle x a w :
  prefixb x (a ++ w) = true -> enters x w = true -> prefixb x a = true.
Proof.
  revert x. induction a as [|c a IH]; intros x Hp He.
  - destruct x as [|y x]; [reflexivity|].
    cbn [enters] in He. cbn [app] in Hp. rewrite Hp in He. discriminate.
  - destruct x as [|y x]; [reflexivity|].
    cbn [app prefixb] in *. cbn [enters] in He.
    apply andb_true_iff in Hp. destruct Hp as [Hy Hp]. rewrite Hy.
    apply andb_true_iff in He. destruct He as [_ He].
    apply IH; assumption.
Qed.

Lemma rep_through q b :
  blocks p q b = true ->
  sub (group_lit p) r (q ++ b) = q ++ sub (group_lit p) r b.
Proof.
  induction q as [|c q IH]; intros H; [reflexivity|].
  cbn [blocks] in H. apply andb_true_iff in H. destruct H as [H1 H2].
  apply negb_true_iff in H1. cbn [app] in *.
  rewrite rep_miss by exact H1. f_equal. apply IH, H2.
Qed.

(** A block [q] that no match of [p] can touch is copied, and the text on
    its two sides is rewritten as if it stood alone. *)
Lemma rep_block a q b :
  enters p (q ++ b) = true -> blocks p q b = true ->
  sub (group_lit p) r (a ++ q ++ b)
  = sub (group_lit p) r a ++ q ++ sub (group_lit p) r b.
Proof.
  intros He Hb.
  remember (length a) as n eqn:En. revert a En.
  induction n as [n IH] using lt_wf_ind. intros a En.
  destruct a as [|c a'].
  - rewrite rep_nil. cbn [app]. apply rep_through, Hb.
  - destruct (prefixb p (c :: a')) eqn:Ep.
    + apply prefixb_true in Ep. rewrite Ep, <- app_assoc, !rep_hit.
      rewrite <- app_assoc. f_equal.
      apply (IH (length (skipn (length p) (c :: a')))); [|reflexivity].
      subst n. rewrite length_skipn.
      destruct p; [contradiction|]. simpl. lia.
    + assert (Ep' : prefixb p ((c :: a') ++ q ++ b) = false).
      { destruct (prefixb p ((c :: a') ++ q ++ b)) eqn:E; [|reflexivity].
        rewrite (straddle _ _ _ E He) in Ep. discriminate. }
      cbn [app] in *. rewrite !rep_miss by assumption.
      cbn [app]. f_equal.
      apply (IH (length a')); [subst n; simpl; lia|reflexivity].
Qed.

(** For a pattern none of whose proper suffixes starts it again, an
    occurrence is replaced where it stands. *)
Lemma rep_at a b :
  enters (tl p) (p ++ b) = true ->
  sub (group_lit p) r (a ++ p ++ b)
  = sub (group_lit p) r a ++ r ++ sub (group_lit p) r b.
Proof.
  intros He.
  remember (length a) as n eqn:En. revert a En.
  induction n as [n IH] using lt_wf_ind. intros a En.
  destruct a as [|c a'].
  - rewrite rep_nil. cbn [app]. apply rep_hit.
  - destruct (prefixb p (c :: a')) eqn:Ep.
    + apply prefixb_true in Ep. rewrite Ep, <- app_assoc, !rep_hit.
      rewrite <- app_assoc. f_equal.
      apply (IH (length (skipn (length p) (c :: a')))); [|reflexivity].
      subst n. rewrite length_skipn.
      destruct p; [contradiction|]. simpl. lia.
    + assert (Ep' : prefixb p ((c :: a') ++ p ++ b) = false).
      { destruct (prefixb p ((c :: a') ++ p ++ b)) eqn:E; [|reflexivity].
        destruct p as [|y p']; [contradiction|].
        cbn [tl] in He. cbn [app prefixb] in E, Ep.
        apply andb_true_iff in E. destruct E as [Ey E].
        rewrite Ey in Ep. cbn [andb] in Ep.
        rewrite (straddle _ _ _ E He) in Ep. discriminate. }
      cbn [app] in *. rewrite !rep_miss by assumption.
      cbn [app]. f_equal.
      apply (IH (length a')); [subst n; simpl; lia|reflexivity].
Qed.

End Literal.

(** *** Occurrences *)

Lemma occursb_app_false x a b :
  occursb x (a ++ b) = false -> occursb x a = false /\ occursb x b = false.
Proof.
  induction a as [|c a IH]; intros H.
  - cbn [app] in H. split; [|exact H].
    destruct x as [|y x]; [|reflexivity].
    destruct b; discriminate.
  - cbn [app occursb] in *. apply orb_false_iff in H. destruct H as [H1 H2].
    destruct (IH H2) as [Ha Hb]. split; [|exact Hb].
    apply orb_false_iff. split; [|exact Ha].
    destruct (prefixb x (c :: a)) eqn:E; [|reflexivity].
    change (c :: a ++ b) with ((c :: a) ++ b) in H1.
    rewrite (prefixb_weaken _ _ b E) in H1. discriminate.
Qed.

Lemma occursb_around x a q b :
  enters x (q ++ b) = true -> blocks x q b = true ->
  occursb x a = false -> occursb x b = false ->
  occursb x (a ++ q ++ b) = false.
Proof.
  intros He Hb Ha Hob.
  induction a as [|c a IH].
  - cbn [app]. clear He Ha. induction q as [|c q IHq]; [exact Hob|].
    cbn [blocks] in Hb. apply andb_true_iff in Hb. destruct Hb as [H1 H2].
    apply negb_true_iff in H1. cbn [app occursb] in *.
    rewrite H1. apply IHq, H2.
  - cbn [occursb] in Ha. apply orb_false_iff in Ha. destruct Ha as [H1 H2].
    cbn [app occursb]. apply orb_false_iff. split; [|apply IH, H2].
    destruct (prefixb x (c :: a ++ q ++ b)) eqn:E; [|reflexivity].
    change (c :: a ++ q ++ b) with ((c :: a) ++ q ++ b) in E.
    rewrite (straddle _ _ _ E He) in H1. discriminate.
Qed.

(** Replacing [p] by [r] creates no occurrence of a text [x] that cannot
    touch [r]. *)
Lemma rep_keeps_absent p r x :
  p <> [] ->
  (forall b, enters x (r ++ b) = true) ->
  (forall b, blocks x r b = true) ->
  forall s pre,
    occursb x (pre ++ s) = false ->
    occursb x (pre ++ sub (group_lit p) r s) = false.
Proof.
  intros Hp He Hb s.
  remember (length s) as n eqn:En. revert s En.
  induction n as [n IH] using lt_wf_ind. intros s En pre H.
  destruct s as [|c s'].
  - rewrite rep_nil by exact Hp. exact H.
  - destruct (prefixb p (c :: s')) eqn:Ep.
    + apply prefixb_true in Ep. rewrite Ep in H |- *.
      rewrite rep_hit by exact Hp.
      destruct (occursb_app_false _ _ _ H) as [Hpre Hrest].
      destruct (occursb_app_false _ _ _ Hrest) as [_ Htail].
      apply occursb_around; [apply He|apply Hb|exact Hpre|].
      apply (IH (length (skipn (length p) (c :: s')))) with (pre := []);
        [|reflexivity|exact Htail].
      subst n. rewrite length_skipn.
      destruct p; [contradiction|]. simpl. lia.
    + rewrite rep_miss by assumption.
      replace (pre ++ c :: sub (group_lit p) r s')
        with ((pre ++ [c]) ++ sub (group_lit p) r s')
        by (rewrite <- app_assoc; reflexivity).
      apply (IH (length s')); [subst n; simpl; lia|reflexivity|].
      rewrite <- app_assoc. exact H.
Qed.

(** *** Criteria that do not depend on the text that follows *)

Lemma diverge_prefixb x y z : diverge x y = true -> prefixb x (y ++ z) = false.
Proof.
  revert y. induction x as [|a x IH]; intros y H; [discriminate|].
  destruct y as [|b y]; [discriminate|].
  cbn [diverge] in H. cbn [app prefixb].
  destruct (N.eqb a b); [|reflexivity].
  cbn [negb orb andb] in *. apply IH, H.
Qed.

Lemma enters_any_sound x q b :
  enters_any x q = true -> enters x (q ++ b) = true.
Proof.
  induction x as [|a x IH]; intros H; [reflexivity|].
  cbn [enters_any] in H. apply andb_true_iff in H. destruct H as [H1 H2].
  cbn [enters]. rewrite (diverge_prefixb _ _ b H1). apply IH, H2.
Qed.

Lemma blocks_any_sound x q b : blocks_any x q = true -> blocks x q b = true.
Proof.
  induction q as [|c q IH]; intros H; [reflexivity|].
  cbn [blocks_any] in H. apply andb_true_iff in H. destruct H as [H1 H2].
  cbn [blocks]. rewrite (diverge_prefixb _ _ b H1). apply IH, H2.
Qed.

(** ** The three rules *)

Lemma process_source_steps s :
  process_source s = after_asm (re_sub asm_pattern asm_repl s).
Proof. reflexivity. Qed.

Lemma int128_re_eq :
  Re.re_compile int128_pattern = Some (group_lit (lit "__int128")).
Proof. reflexivity. Qed.

Lemma f16_re_eq : Re.re_compile f16_pattern = Some (group_lit (lit ".0f16")).
Proof. reflexivity. Qed.

Lemma int128_rule s :
  re_sub int128_pattern int128_repl s
  = Re.sub (group_lit (lit "__int128")) int128_repl s.
Proof. unfold re_sub. rewrite int128_re_eq. reflexivity. Qed.

Lemma f16_rule s :
  re_sub f16_pattern f16_repl s = Re.sub (group_lit (lit ".0f16")) f16_repl s.
Proof. unfold re_sub. rewrite f16_re_eq. reflexivity. Qed.

Lemma int128_nonempty : lit "__int128" <> [].
Proof. discriminate. Qed.

Lemma f16_nonempty : lit ".0f16" <> [].
Proof. discriminate. Qed.

(** The second and third rule around a block neither can touch. *)
Lemma after_asm_block a q b :
  apart (lit "__int128") q = true -> apart (lit ".0f16") q = true ->
  after_asm (a ++ q ++ b) = after_asm a ++ q ++ after_asm b.
Proof.
  intros H1 H2. unfold after_asm.
  apply andb_true_iff in H1. destruct H1 as [E1 B1].
  apply andb_true_iff in H2. destruct H2 as [E2 B2].
  rewrite !int128_rule, !f16_rule.
  rewrite (rep_block _ int128_repl int128_nonempty)
    by (apply enters_any_sound || apply blocks_any_sound; assumption).
  apply (rep_block _ f16_repl f16_nonempty);
    (apply enters_any_sound || apply blocks_any_sound); assumption.
Qed.

(** C6, as the specification states it, fails: an [__int128] inside an
    inline-assembly statement disappears with the statement, and the
    output holds no [long] with its marker comment. *)
Lemma int128_inside_asm_is_dropped :
  occursb (lit "__int128") (lit "__asm__ volatile (mul : (__int128)x);") = true
  /\ process_source (lit "__asm__ volatile (mul : (__int128)x);")
     = lit "(void)123; /* GHIDRA: Removed __asm__ statement */"
  /\ occursb (lit "long /* GHIDRA: Removed __int128 */")
       (process_source (lit "__asm__ volatile (mul : (__int128)x);")) = false.
Proof. vm_compute. repeat split. Qed.

(** C6, amended.  Every [__int128] that is still in the text after the
    inline-assembly rule is replaced, where it stands, by [long] and the
    marker comment; the text before it and the text after it are rewritten
    by the two remaining rules as if each stood alone. *)
Theorem int128_replaced (s pre post : str) :
  re_sub asm_pattern asm_repl s = pre ++ lit "__int128" ++ post ->
  process_source s
  = after_asm pre ++ lit "long /* GHIDRA: Removed __int128 */"
    ++ after_asm post.
Proof.
  intros H. rewrite process_source_steps, H. unfold after_asm.
  rewrite !int128_rule, !f16_rule.
  rewrite (rep_at _ int128_repl int128_nonempty)
    by (apply (enters_any_sound (tl (lit "__int128")) (lit "__int128"));
        reflexivity).
  apply (rep_block _ f16_repl f16_nonempty);
    [apply enters_any_sound|apply blocks_any_sound]; reflexivity.
Qed.

Lemma int128_replaced_witness :
  process_source (lit "__int128 x;")
  = lit "long /* GHIDRA: Removed __int128 */ x;".
Proof.
  rewrite (int128_replaced (lit "__int128 x;") [] (lit " x;")).
  - reflexivity.
  - reflexivity.
Defined.

(** C7, as the specification states it, fails in the same way. *)
Lemma f16_inside_asm_is_dropped :
  occursb (lit "1.0f16") (lit "__asm__ volatile (fld : 1.0f16);") = true
  /\ process_source (lit "__asm__ volatile (fld : 1.0f16);")
     = lit "(void)123; /* GHIDRA: Removed __asm__ statement */"
  /\ occursb (lit "1.0f /* GHIDRA: Removed f16 */")
       (process_source (lit "__asm__ volatile (fld : 1.0f16);")) = false.
Proof. vm_compute. repeat split. Qed.

(** C7, amended.  Every [1.0f16] that is still in the text after the
    inline-assembly rule is replaced, where it stands, by [1.0f] and the
    marker comment; the text before it and the text after it are rewritten
    by the second and third rule as if each stood alone. *)
Theorem f16_replaced (s pre post : str) :
  re_sub asm_pattern asm_repl s = pre ++ lit "1.0f16" ++ post ->
  process_source s
  = after_asm pre ++ lit "1.0f /* GHIDRA: Removed f16 */" ++ after_asm post.
Proof.
  intros H. rewrite process_source_steps, H.
  assert (E : after_asm (pre ++ lit "1.0f16" ++ post)
              = re_sub f16_pattern f16_repl
                  (re_sub int128_pattern int128_repl pre ++ lit "1.0f16"
                   ++ re_sub int128_pattern int128_repl post)).
  { unfold after_asm. rewrite !int128_rule. f_equal.
    apply (rep_block _ int128_repl int128_nonempty);
      [apply enters_any_sound|apply blocks_any_sound]; reflexivity. }
  rewrite E. unfold after_asm. rewrite !f16_rule.
  set (A := re_sub int128_pattern int128_repl pre).
  set (B := re_sub int128_pattern int128_repl post).
  change (A ++ lit "1.0f16" ++ B) with (A ++ [49%N] ++ lit ".0f16" ++ B).
  rewrite (app_assoc A [49%N]).
  rewrite (rep_at _ f16_repl f16_nonempty)
    by (apply (enters_any_sound (tl (lit ".0f16")) (lit ".0f16"));
        reflexivity).
  replace (A ++ [49%N]) with (A ++ [49%N] ++ @nil char) by reflexivity.
  rewrite (rep_block _ f16_repl f16_nonempty) by reflexivity.
  rewrite (rep_nil _ f16_repl f16_nonempty), <- !app_assoc. reflexivity.
Qed.

Lemma f16_replaced_witness :
  process_source (lit "float h = 1.0f16;")
  = lit "float h = 1.0f /* GHIDRA: Removed f16 */;".
Proof.
  rewrite (f16_replaced (lit "float h = 1.0f16;") (lit "float h = ") (lit ";")).
  - reflexivity.
  - reflexivity.
Defined.

(** ** Stars *)

Lemma match_here_many_nil c re o g :
  match_here (Many c :: re) [] o g = match_here re [] o g.
Proof. reflexivity. Qed.

Lemma match_here_many_cons c re x s o g :
  match_here (Many c :: re) (x :: s) o g
  = if accepts c x then
      match match_here (Many c :: re) s o g with
      | Some r => Some r
      | None => match_here re (x :: s) o g
      end
    else match_here re (x :: s) o g.
Proof. reflexivity. Qed.

Lemma match_here_open n re s o g :
  match_here (Open n :: re) s o g = match_here re s ((n, s) :: o) g.
Proof. reflexivity. Qed.

Lemma match_here_close n re s o g :
  match_here (Close n :: re) s o g
  = match lookup n o with
    | Some s0 =>
        match_here re s o ((n, firstn (length s0 - length s) s0) :: g)
    | None => None
    end.
Proof. reflexivity. Qed.

Lemma match_here_one c re s o g :
  match_here (One c :: re) s o g
  = match s with
    | x :: s' => if accepts c x then match_here re s' o g else None
    | [] => None
    end.
Proof. reflexivity. Qed.


(** ** Macro definitions *)





(** ** Option generation, step by step *)

Section OptionFacts.

Variable popen : filesystem -> list str -> str -> option completed.

Lemma run_gcc_ok gcc flags input (cap : bool) w p text :
  encodable input = true ->
  popen (files w) ([gcc] ++ l_gcc (heap w) ++ flags ++ [lit "-"]) input
  = Some p ->
  returncode p = 0%Z ->
  (if cap then s_err p else s_out p) = Some text ->
  run_gcc popen gcc flags input cap w = (Ok text, w).
Proof.
  intros He Hp Hrc Ht. unfold run_gcc. rewrite get_list_bind.
  cbn [load]. rewrite Hp, (encode_bind _ _ _ He), Hrc. cbn [Z.eqb negb].
  destruct cap; rewrite Ht; reflexivity.
Qed.



Lemma define_flag_grows i :
  keeps (grown_by is_define_flag) (define_flag MINGW_OPTIONS i).
Proof.
  unfold define_flag.
  destruct (re_search define_pattern i).
  - apply grown_by_extend. constructor; [reflexivity|constructor].
  - apply keeps_raise, grown_by_refl.
Qed.


(** Option generation up to the loop over the dumped macros, when both
    compiler runs succeed and the search list is found. *)
Lemma generate_options_to_loop gcc_cmd a_name a_arch w p1 err incs p2 out :
  unwritable w (options_file a_name a_arch) = false ->
  popen (fs_set (options_file a_name a_arch) [] (files w))
    ([gcc_cmd] ++ l_gcc (heap w) ++ [lit "-xc"; lit "-E"; lit "-v"]
     ++ [lit "-"]) (lit " /* :) */ ") = Some p1 ->
  returncode p1 = 0%Z ->
  s_err p1 = Some err ->
  (forall w0, include_flags (splitlines err) w0 = (Ok incs, w0)) ->
  popen (fs_set (options_file a_name a_arch) [] (files w))
    ([gcc_cmd] ++ l_gcc (heap w) ++ [lit "-dM"; lit "-E"] ++ [lit "-"])
    (lit " /* :) */ ") = Some p2 ->
  returncode p2 = 0%Z ->
  s_out p2 = Some out ->
  generate_options popen gcc_cmd a_name a_arch w
  = finally
      (for_each (splitlines out) (define_flag MINGW_OPTIONS) ;;
       all <- get_list MINGW_OPTIONS ;;
       for_each all
         (fun opt => write (options_file a_name a_arch) (opt ++ [nl])))%py
      (close (options_file a_name a_arch))
      (with_heap
         (opened (options_file a_name a_arch)
            (says w (lit "Generating parser options...")))
         (store MINGW_OPTIONS
            ((l_mingw (heap w) ++ load (default_options a_arch) (heap w))
             ++ incs) (heap w))).
Proof.
  intros Hopen Hp1 Hrc1 He Hinc Hp2 Hrc2 Ho.
  unfold generate_options.
  rewrite print_bind, with_open_eq, finally_close by exact Hopen.
  rewrite get_list_bind, extend_bind.
  erewrite bind_ok
    by (apply (run_gcc_ok _ _ _ true _ p1 err);
        [reflexivity|exact Hp1|exact Hrc1|exact He]).
  erewrite bind_ok by apply Hinc.
  rewrite extend_bind.
  erewrite bind_ok
    by (apply (run_gcc_ok _ _ _ false _ p2 out);
        [reflexivity|exact Hp2|exact Hrc2|exact Ho]).
  reflexivity.
Qed.

End OptionFacts.

(** C8, as the specification states it, fails: [out.index] gives the
    first line equal to each marker, so with an end marker in front of the
    start marker the slice is empty.  The line between the start marker
    and the end marker that follows it gives no flag: after a run that
    succeeds the flag list holds no flag that starts with [-I]. *)
Lemma early_end_marker_gives_no_flag :
  splitlines early_end_output
  = [search_ends; search_starts; lit " /usr/i686-w64-mingw32/include";
     search_ends]
  /\ fst (generate_options early_end_popen (lit "i686-w64-mingw32-gcc")
            (lit "d3d9") (lit "32") (initial_world no_files)) = Ok tt
  /\ l_mingw (heap (snd (generate_options early_end_popen
                           (lit "i686-w64-mingw32-gcc") (lit "d3d9")
                           (lit "32") (initial_world no_files))))
     = MINGW_OPTIONS_0 ++ DEFAULT_OPTIONS_32_0
       ++ [lit "-D__SIZEOF_INT__=" ++ [34%N] ++ lit "4" ++ [34%N];
           lit "-D__VERSION__=" ++ [34%N] ++ lit "10-win32 20210110"
           ++ [34%N]]
  /\ existsb (prefixb (lit "-I"))
       (l_mingw (heap (snd (generate_options early_end_popen
                              (lit "i686-w64-mingw32-gcc") (lit "d3d9")
                              (lit "32") (initial_world no_files)))))
     = false.
Proof. vm_compute. repeat split. Qed.

Section OptionTheorems.

Variable popen : filesystem -> list str -> str -> option completed.

(** What is left of option generation once the include flags are appended
    only appends flags that start with [-D]. *)
Lemma defines_tail_grows gcc_cmd f :
  keeps (grown_by is_define_flag)
    (out <- run_gcc popen gcc_cmd [lit "-dM"; lit "-E"] (lit " /* :) */ ")
              false ;;
     for_each (splitlines out) (define_flag MINGW_OPTIONS) ;;
     all <- get_list MINGW_OPTIONS ;;
     for_each all (fun opt => write f (opt ++ [nl])))%py.
Proof.
  pose proof (grown_by_refl is_define_flag) as Hr.
  pose proof (grown_by_trans is_define_flag) as Ht.
  apply keeps_bind; [assumption|apply keeps_run_gcc; assumption|intros out].
  apply keeps_bind; [assumption| |intros _].
  { apply keeps_for_each; [assumption..|]. intros. apply define_flag_grows. }
  apply keeps_bind; [assumption|apply keeps_get_list; assumption|intros all].
  apply keeps_for_each; [assumption..|]. intros. apply keeps_write, Hr.
Qed.

(** C8, amended.  When the options file can be opened, the verbose
    preprocessor run succeeds and, in its diagnostic output, the first
    end marker stands after the first start marker (the lines are [l1],
    the start marker, [mid], the end marker and [l2], with no marker in
    [l1] and no end marker in [mid]), the include flags are exactly the
    lines of [mid], in order, each stripped and prefixed with [-I]: they
    are what the list comprehension evaluates to, and in the flag list
    they stand right after the default table, followed only by flags that
    start with [-D]. *)
Theorem include_flags_between_markers
  (gcc_cmd a_name a_arch : str) (w : world) (p : completed) (err : str)
  (l1 mid l2 : list str) :
  unwritable w (options_file a_name a_arch) = false ->
  popen (fs_set (options_file a_name a_arch) [] (files w))
    ([gcc_cmd] ++ l_gcc (heap w) ++ [lit "-xc"; lit "-E"; lit "-v"]
     ++ [lit "-"]) (lit " /* :) */ ") = Some p ->
  returncode p = 0%Z ->
  s_err p = Some err ->
  splitlines err = l1 ++ [search_starts] ++ mid ++ [search_ends] ++ l2 ->
  ~ In search_starts l1 -> ~ In search_ends l1 -> ~ In search_ends mid ->
  (forall w0,
     include_flags (splitlines err) w0
     = (Ok (map (fun inc => lit "-I" ++ strip inc) mid), w0))
  /\ exists defines,
       l_mingw (heap (snd (generate_options popen gcc_cmd a_name a_arch w)))
       = l_mingw (heap w) ++ load (default_options a_arch) (heap w)
         ++ map (fun inc => lit "-I" ++ strip inc) mid ++ defines
       /\ Forall is_define_flag defines.
Proof.
  intros Hopen Hp Hrc He Hlines Hs Hl Hm.
  assert (Hinc : forall w0,
             include_flags (splitlines err) w0
             = (Ok (map (fun inc => lit "-I" ++ strip inc) mid), w0)).
  { intros w0. rewrite Hlines. apply include_flags_of_lines; assumption. }
  split; [exact Hinc|].
  unfold generate_options.
  rewrite print_bind, with_open_eq by exact Hopen. cbn [snd].
  rewrite heap_closed.
  rewrite get_list_bind, extend_bind.
  erewrite bind_ok
    by (apply (run_gcc_ok popen _ _ _ true _ p err);
        [reflexivity|exact Hp|exact Hrc|exact He]).
  erewrite bind_ok by apply Hinc.
  rewrite extend_bind.
  match goal with |- context [bind ?c ?k ?w1] =>
    destruct (defines_tail_grows gcc_cmd (options_file a_name a_arch) w1)
      as [[defines [Em HD]] _]
  end.
  cbn [heap with_heap with_files with_buffers opened says] in *.
  cbn [l_mingw store load] in *.
  exists defines. split; [|exact HD].
  rewrite Em, <- !app_assoc. reflexivity.
Qed.


End OptionTheorems.

Lemma include_flags_between_markers_witness :
  exists defines,
    l_mingw (heap (snd (generate_options sample_popen (gcc_cmd_of (lit "32"))
                          (lit "d3d9") (lit "32") (initial_world no_files))))
    = MINGW_OPTIONS_0 ++ DEFAULT_OPTIONS_32_0
      ++ [lit "-I/usr/lib/gcc/i686-w64-mingw32/10-win32/include";
          lit "-I/usr/i686-w64-mingw32/include"] ++ defines.
Proof.
  destruct (include_flags_between_markers sample_popen
              (gcc_cmd_of (lit "32")) (lit "d3d9") (lit "32")
              (initial_world no_files)
              {| returncode := 0; s_out := Some [];
                 s_err := Some sample_search_output |}
              sample_search_output
              [lit "ignoring nonexistent directory"]
              [lit " /usr/lib/gcc/i686-w64-mingw32/10-win32/include";
               lit " /usr/i686-w64-mingw32/include"]
              [])
    as [_ [defines [E _]]].
  - reflexivity.
  - reflexivity.
  - reflexivity.
  - reflexivity.
  - vm_compute. reflexivity.
  - intros [H|[]]. vm_compute in H. discriminate.
  - intros [H|[]]. vm_compute in H. discriminate.
  - intros [H|[H|[]]]; vm_compute in H; discriminate.
  - exists defines. exact E.
Defined.


(** ** The inline-assembly pattern *)

Lemma asm_re_eq : re_compile asm_pattern = Some asm_re.
Proof. reflexivity. Qed.

Lemma asm_rule s : re_sub asm_pattern asm_repl s = sub asm_re asm_repl s.
Proof. unfold re_sub. rewrite asm_re_eq. reflexivity. Qed.

Lemma match_here_close_paren s o g :
  match_here [Many CAny; One (CLit 41%N); One (CLit 59%N)] s o g
  = option_map (fun r => (r, g)) (after_close s).
Proof.
  induction s as [|c s IH].
  - reflexivity.
  - rewrite match_here_many_cons, IH. cbn [after_close accepts].
    change [One (CLit 41%N); One (CLit 59%N)] with (lits (lit ");") ++ []).
    rewrite match_here_lits.
    destruct (N.eqb c nl) eqn:Ec; cbn [negb].
    + apply N.eqb_eq in Ec. subst c. reflexivity.
    + destruct (after_close s); [reflexivity|].
      destruct (prefixb (lit ");") (c :: s)); reflexivity.
Qed.

Lemma match_here_args s o g :
  match_here [Many CAny; One (CLit 40%N); Many CAny; One (CLit 41%N);
              One (CLit 59%N)] s o g
  = option_map (fun r => (r, g)) (after_args s).
Proof.
  induction s as [|c s IH].
  - reflexivity.
  - rewrite match_here_many_cons, IH. cbn [after_args accepts].
    rewrite match_here_one, match_here_close_paren. cbn [accepts].
    destruct (N.eqb c nl) eqn:Ec; cbn [negb].
    + apply N.eqb_eq in Ec. subst c. reflexivity.
    + destruct (after_args s); [reflexivity|].
      destruct (N.eqb c 40); reflexivity.
Qed.

(** The matcher on the inline-assembly pattern, as a function of the text. *)
Lemma match_here_asm s :
  match_here asm_re s [] []
  = if prefixb kw s
    then option_map (fun r => (r, [])) (after_args (skipn (length kw) s))
    else None.
Proof.
  unfold asm_re. rewrite match_here_lits.
  destruct (prefixb kw s); [apply match_here_args|reflexivity].
Qed.

(** *** [re.sub] with a pattern that matches no empty text *)

Lemma sub_miss re r c s :
  match_here re (c :: s) [] [] = None -> sub re r (c :: s) = c :: sub re r s.
Proof. intros H. rewrite sub_cons, H. reflexivity. Qed.

Lemma sub_hit re r s rest g :
  match_here re s [] [] = Some (rest, g) ->
  length rest < length s ->
  sub re r s = r ++ sub re r rest.
Proof.
  intros H Hlen. destruct s as [|c s]; [simpl in Hlen; lia|].
  rewrite sub_cons, H.
  destruct (le_lt_dec (length (c :: s)) (length rest)); [lia|reflexivity].
Qed.

(** *** What the pattern leaves *)

Lemma free_cons cs c q :
  free cs (c :: q) = true ->
  existsb (N.eqb c) cs = false /\ free cs q = true.
Proof.
  cbn [free forallb]. intros H. apply andb_true_iff in H.
  destruct H as [H1 H2]. apply negb_true_iff in H1. split; assumption.
Qed.

Lemma not_in_free c q : ~ In c q -> free [c] q = true.
Proof.
  intros H. apply forallb_forall. intros x Hx. cbn.
  rewrite orb_false_r. apply negb_true_iff, N.eqb_neq.
  intros ->. contradiction.
Qed.

Lemma after_close_skip q w :
  free [nl; 41%N] q = true -> after_close (q ++ w) = after_close w.
Proof.
  induction q as [|c q IH]; intros H; [reflexivity|].
  apply free_cons in H. destruct H as [Hc Hq]. cbn in Hc.
  apply orb_false_iff in Hc. destruct Hc as [Hnl Hc].
  rewrite orb_false_r in Hc.
  cbn [app after_close]. rewrite Hnl, (IH Hq).
  destruct (after_close w); [reflexivity|].
  change (lit ");") with [41%N; 59%N]. cbn [prefixb].
  rewrite (N.eqb_sym 41 c), Hc. reflexivity.
Qed.

Lemma after_args_skip q w :
  free [nl; 40%N] q = true -> after_args (q ++ w) = after_args w.
Proof.
  induction q as [|c q IH]; intros H; [reflexivity|].
  apply free_cons in H. destruct H as [Hc Hq]. cbn in Hc.
  apply orb_false_iff in Hc. destruct Hc as [Hnl Hc].
  rewrite orb_false_r in Hc.
  cbn [app after_args]. rewrite Hnl, (IH Hq), Hc.
  destruct (after_args w); reflexivity.
Qed.

Lemma after_close_some_app y w r :
  free [nl] y = true -> after_close w = Some r -> after_close (y ++ w) = Some r.
Proof.
  intros Hy Hw. induction y as [|c y IH]; [exact Hw|].
  apply free_cons in Hy. destruct Hy as [Hc Hy]. cbn in Hc.
  rewrite orb_false_r in Hc.
  cbn [app after_close]. rewrite Hc, (IH Hy). reflexivity.
Qed.

Lemma after_args_some_app x w r :
  free [nl] x = true -> after_args w = Some r -> after_args (x ++ w) = Some r.
Proof.
  intros Hx Hw. induction x as [|c x IH]; [exact Hw|].
  apply free_cons in Hx. destruct Hx as [Hc Hx]. cbn in Hc.
  rewrite orb_false_r in Hc.
  cbn [app after_args]. rewrite Hc, (IH Hx). reflexivity.
Qed.

(** A match of the whole pattern ends where [.*\);] alone would end. *)
Lemma after_args_close s r : after_args s = Some r -> after_close s = Some r.
Proof.
  induction s as [|c s IH]; intros H; [discriminate|].
  cbn [after_args after_close] in *.
  destruct (N.eqb c nl); [discriminate|].
  destruct (after_args s) as [r'|].
  - rewrite (IH H). reflexivity.
  - destruct (N.eqb c 40); [|discriminate].
    rewrite H. reflexivity.
Qed.

(** The star is greedy: nothing it leaves on the line closes again. *)
Lemma after_close_max s r : after_close s = Some r -> after_close r = None.
Proof.
  induction s as [|c s IH]; intros H; [discriminate|].
  cbn [after_close] in H.
  destruct (N.eqb c nl); [discriminate|].
  destruct (after_close s) as [r'|] eqn:Es.
  - injection H as <-. apply IH. reflexivity.
  - destruct (prefixb (lit ");") (c :: s)) eqn:Ep; [|discriminate].
    injection H as <-.
    change (lit ");") with [41%N; 59%N] in Ep.
    destruct s as [|d s];
      [cbn [prefixb] in Ep; rewrite andb_false_r in Ep; discriminate|].
    cbn [skipn]. cbn [prefixb] in Ep.
    apply andb_true_iff in Ep. destruct Ep as [_ Ep].
    rewrite andb_true_r in Ep. apply N.eqb_eq in Ep. subst d.
    cbn in Es. destruct (after_close s); [discriminate|reflexivity].
Qed.

Lemma after_close_split s r :
  after_close s = Some r ->
  exists m, s = m ++ r /\ free [nl] m = true /\ m <> [].
Proof.
  revert r. induction s as [|c s IH]; intros r H; [discriminate|].
  cbn [after_close] in H.
  destruct (N.eqb c nl) eqn:Ec; [discriminate|].
  destruct (after_close s) as [r'|].
  - injection H as <-. destruct (IH r' eq_refl) as [m [E [Hm _]]].
    exists (c :: m). split; [rewrite E; reflexivity|].
    split; [|discriminate].
    cbn [free forallb existsb]. rewrite Ec. exact Hm.
  - destruct (prefixb (lit ");") (c :: s)) eqn:Ep; [|discriminate].
    injection H as <-. exists (lit ");").
    split; [exact (prefixb_true _ _ Ep)|]. split; [reflexivity|discriminate].
Qed.

Lemma after_close_here z :
  after_close z = None -> after_close (lit ");" ++ z) = Some z.
Proof. intros H. cbn. rewrite H. reflexivity. Qed.

Lemma after_args_here v r :
  after_close v = Some r -> after_args (40%N :: v) = Some r.
Proof.
  intros H. cbn [after_args]. change (N.eqb 40 nl) with false.
  change (N.eqb 40 40) with true. cbv iota.
  destruct (after_args v) as [r'|] eqn:E; [|exact H].
  apply after_args_close in E. congruence.
Qed.

Lemma existsb_nl_app (a b : str) :
  existsb (N.eqb nl) (a ++ b) = existsb (N.eqb nl) a || existsb (N.eqb nl) b.
Proof. apply existsb_app. Qed.

Lemma free_nl_no_newline m : free [nl] m = true -> existsb (N.eqb nl) m = false.
Proof.
  induction m as [|c m IH]; intros H; [reflexivity|].
  apply free_cons in H. destruct H as [Hc Hm]. cbn in Hc.
  rewrite orb_false_r in Hc. cbn [existsb].
  rewrite (N.eqb_sym nl c), Hc. exact (IH Hm).
Qed.

(** A match does not look past the end of the line. *)
Lemma after_close_local u x :
  existsb (N.eqb nl) u = true ->
  after_close (u ++ x) = option_map (fun r => r ++ x) (after_close u).
Proof.
  induction u as [|c u IH]; intros H; [discriminate|].
  cbn [app after_close].
  destruct (N.eqb c nl) eqn:Ec; [reflexivity|].
  cbn [existsb] in H. rewrite (N.eqb_sym nl c), Ec in H. cbn [orb] in H.
  rewrite (IH H).
  destruct (after_close u); [reflexivity|]. cbn [option_map].
  destruct u as [|d u]; [discriminate|].
  change (lit ");") with [41%N; 59%N]. cbn [app prefixb].
  destruct (N.eqb 41 c && (N.eqb 59 d && true)); reflexivity.
Qed.

Lemma after_args_local u x :
  existsb (N.eqb nl) u = true ->
  after_args (u ++ x) = option_map (fun r => r ++ x) (after_args u).
Proof.
  induction u as [|c u IH]; intros H; [discriminate|].
  cbn [app after_args].
  destruct (N.eqb c nl) eqn:Ec; [reflexivity|].
  cbn [existsb] in H. rewrite (N.eqb_sym nl c), Ec in H. cbn [orb] in H.
  rewrite (IH H).
  destruct (after_args u); [reflexivity|]. cbn [option_map].
  destruct (N.eqb c 40); [apply after_close_local, H|reflexivity].
Qed.

Lemma last_line_no_newline s :
  existsb (N.eqb nl) s = false -> last_line s = s.
Proof.
  intros H. destruct s as [|c s]; [reflexivity|].
  cbn [last_line]. rewrite H. reflexivity.
Qed.

Lemma last_line_app m r :
  existsb (N.eqb nl) r = true -> last_line (m ++ r) = last_line r.
Proof.
  intros H. induction m as [|c m IH]; [reflexivity|].
  cbn [app last_line].
  change (c :: m ++ r) with ((c :: m) ++ r).
  rewrite existsb_nl_app, H, orb_true_r. exact IH.
Qed.

Lemma last_line_tail x c s :
  occursb x (last_line (c :: s)) = false -> occursb x (last_line s) = false.
Proof.
  cbn [last_line]. destruct (existsb (N.eqb nl) (c :: s)) eqn:E; [tauto|].
  intros H. cbn [existsb] in E. apply orb_false_iff in E. destruct E as [_ E].
  rewrite (last_line_no_newline _ E).
  cbn [occursb] in H. apply orb_false_iff in H. apply H.
Qed.

Lemma first_line_no_close t :
  occursb (lit ");") (first_line t) = false -> after_close t = None.
Proof.
  induction t as [|c t IH]; intros H; [reflexivity|].
  cbn [first_line after_close] in *.
  destruct (N.eqb c nl); [reflexivity|].
  cbn [occursb] in H. apply orb_false_iff in H. destruct H as [Hp Ho].
  rewrite (IH Ho).
  change (lit ");") with [41%N; 59%N] in *.
  destruct t as [|d t];
    [cbn [prefixb]; rewrite andb_false_r; reflexivity|].
  cbn [first_line] in Hp. cbn [prefixb] in *.
  destruct (N.eqb 41 c); [|reflexivity].
  destruct (N.eqb 59 d) eqn:Ed; [|reflexivity].
  apply N.eqb_eq in Ed. subst d. cbn in Hp. discriminate.
Qed.

(** What a match of the pattern at the start of a text tells. *)
Lemma match_here_asm_some s rest g :
  match_here asm_re s [] [] = Some (rest, g) ->
  g = []
  /\ prefixb kw s = true
  /\ after_args (skipn (length kw) s) = Some rest
  /\ after_close rest = None
  /\ length rest < length s
  /\ exists m, skipn (length kw) s = m ++ rest /\ free [nl] m = true.
Proof.
  rewrite match_here_asm. intros H.
  destruct (prefixb kw s) eqn:Ep; [|discriminate].
  destruct (after_args (skipn (length kw) s)) as [r|] eqn:Ea; [|discriminate].
  injection H as <- <-.
  pose proof (after_args_close _ _ Ea) as Ec.
  destruct (after_close_split _ _ Ec) as [m [Em [Hm _]]].
  repeat split; try reflexivity.
  - exact (after_close_max _ _ Ec).
  - apply prefixb_true in Ep.
    apply (f_equal (@length N)) in Ep. rewrite length_app, Em in Ep.
    rewrite length_app in Ep. change (length kw) with 8 in Ep. lia.
  - exists m. split; assumption.
Qed.

(** *** One statement on its line *)

Lemma kw_unbordered b : enters (tl kw) (kw ++ b) = true.
Proof. apply enters_any_sound. reflexivity. Qed.

(** In front of a text that starts with the keyword, the keyword starts
    the whole only when it starts the front part. *)
Lemma prefixb_kw_front c a x :
  prefixb kw (c :: a) = false -> prefixb kw ((c :: a) ++ kw ++ x) = false.
Proof.
  intros H.
  destruct (prefixb kw ((c :: a) ++ kw ++ x)) eqn:E; [|reflexivity].
  change kw with (95%N :: tl kw) in E at 1.
  change kw with (95%N :: tl kw) in H at 1.
  cbn [app prefixb] in E, H.
  apply andb_true_iff in E. destruct E as [Ec E].
  rewrite Ec in H. cbn [andb] in H.
  rewrite (straddle _ _ _ E (kw_unbordered x)) in H. discriminate.
Qed.

Lemma match_here_statement mid args post :
  free [nl] mid = true -> free [nl] args = true ->
  after_close post = None ->
  match_here asm_re (kw ++ mid ++ lit "(" ++ args ++ lit ");" ++ post) [] []
  = Some (post, []).
Proof.
  intros Hm Ha Hp.
  rewrite match_here_asm, prefixb_app, skipn_app_exact.
  rewrite (after_args_some_app mid _ post Hm); [reflexivity|].
  apply after_args_here, after_close_some_app; [exact Ha|].
  apply after_close_here, Hp.
Qed.

(** The inline-assembly rule on a text with one statement set apart: no
    keyword before it on its line, no [);] after it on its line. *)
Lemma asm_statement_sub pre mid args post :
  free [nl] mid = true -> free [nl] args = true ->
  occursb kw (last_line pre) = false ->
  after_close post = None ->
  sub asm_re asm_repl
    (pre ++ kw ++ mid ++ lit "(" ++ args ++ lit ");" ++ post)
  = sub asm_re asm_repl pre ++ asm_repl ++ sub asm_re asm_repl post.
Proof.
  intros Hm Ha Hpre Hpost.
  pose proof (match_here_statement mid args post Hm Ha Hpost) as HX.
  set (x := mid ++ lit "(" ++ args ++ lit ");" ++ post) in *.
  remember (length pre) as n eqn:En. revert pre En Hpre.
  induction n as [n IH] using lt_wf_ind. intros pre En Hpre.
  destruct pre as [|c pre'].
  - cbn [app]. rewrite (sub_hit asm_re asm_repl _ post [] HX).
    + rewrite sub_nil. reflexivity.
    + unfold x. rewrite !length_app. change (length kw) with 8. lia.
  - destruct (prefixb kw (c :: pre')) eqn:Ek.
    + (* a keyword in front: its line ends inside [pre] *)
      assert (Hnl : existsb (N.eqb nl) (c :: pre') = true).
      { destruct (existsb (N.eqb nl) (c :: pre')) eqn:E; [reflexivity|].
        rewrite (last_line_no_newline _ E) in Hpre.
        cbn [occursb] in Hpre. rewrite Ek in Hpre. discriminate. }
      pose proof (prefixb_true _ _ Ek) as Eu.
      set (u := skipn (length kw) (c :: pre')) in *.
      assert (Hu : existsb (N.eqb nl) u = true).
      { rewrite Eu, existsb_nl_app in Hnl. exact Hnl. }
      assert (E1 : match_here asm_re (c :: pre') [] []
                   = option_map (fun r => (r, [])) (after_args u)).
      { rewrite match_here_asm, Ek. reflexivity. }
      assert (E2 : match_here asm_re ((c :: pre') ++ kw ++ x) [] []
                   = option_map (fun r => (r ++ kw ++ x, []))
                       (after_args u)).
      { rewrite match_here_asm, (prefixb_weaken _ _ _ Ek).
        rewrite Eu at 1. rewrite <- app_assoc, skipn_app_exact.
        rewrite (after_args_local u _ Hu).
        destruct (after_args u); reflexivity. }
      destruct (after_args u) as [r|] eqn:Er.
      * cbn [option_map] in E1, E2.
        pose proof (after_args_close _ _ Er) as Ec.
        destruct (after_close_split _ _ Ec) as [m [Em [Hfm Hne]]].
        assert (Hlen : length r < length (c :: pre')).
        { rewrite Eu, length_app, Em, length_app.
          change (length kw) with 8. lia. }
        rewrite (sub_hit asm_re asm_repl _ _ _ E1 Hlen).
        rewrite (sub_hit asm_re asm_repl _ _ _ E2)
          by (rewrite !length_app in *; lia).
        rewrite <- app_assoc. f_equal.
        apply (IH (length r)); [subst n; exact Hlen|reflexivity|].
        assert (Hr : existsb (N.eqb nl) r = true).
        { rewrite Em, existsb_nl_app, (free_nl_no_newline _ Hfm) in Hu.
          exact Hu. }
        rewrite Eu, Em in Hpre.
        rewrite app_assoc, (last_line_app _ r Hr) in Hpre. exact Hpre.
      * cbn [option_map] in E1, E2.
        rewrite (sub_miss asm_re asm_repl _ _ E1).
        cbn [app] in E2 |- *. rewrite (sub_miss asm_re asm_repl _ _ E2).
        f_equal.
        apply (IH (length pre')); [subst n; simpl; lia|reflexivity|].
        exact (last_line_tail _ _ _ Hpre).
    + assert (E1 : match_here asm_re (c :: pre') [] [] = None)
        by (rewrite match_here_asm, Ek; reflexivity).
      assert (E2 : match_here asm_re ((c :: pre') ++ kw ++ x) [] [] = None)
        by (rewrite match_here_asm, (prefixb_kw_front _ _ _ Ek); reflexivity).
      rewrite (sub_miss asm_re asm_repl _ _ E1).
      cbn [app] in E2 |- *. rewrite (sub_miss asm_re asm_repl _ _ E2).
      f_equal.
      apply (IH (length pre')); [subst n; simpl; lia|reflexivity|].
      exact (last_line_tail _ _ _ Hpre).
Qed.

Lemma sub_asm_absent s : occursb kw s = false -> sub asm_re asm_repl s = s.
Proof.
  induction s as [|c s IH]; intros H.
  - rewrite sub_nil. reflexivity.
  - cbn [occursb] in H. apply orb_false_iff in H. destruct H as [Hp Ho].
    rewrite sub_miss by (rewrite match_here_asm, Hp; reflexivity).
    f_equal. apply IH, Ho.
Qed.

Lemma process_source_untouched s : untouched s = true -> process_source s = s.
Proof.
  unfold untouched. intros H.
  apply andb_true_iff in H. destruct H as [H H3].
  apply andb_true_iff in H. destruct H as [H1 H2].
  apply negb_true_iff in H1, H2, H3.
  rewrite process_source_steps, asm_rule, (sub_asm_absent s H1).
  unfold after_asm.
  rewrite int128_rule, (rep_absent _ int128_repl int128_nonempty s H2).
  rewrite f16_rule. apply (rep_absent _ f16_repl f16_nonempty s H3).
Qed.

(** C1, as the specification states it, fails.  The pattern asks for a
    space after the keyword, and [__asm__("nop");] has none: the statement
    is left as it is and no marker comment is inserted.  With the space,
    the match runs on to the last [);] of the line, so a call that follows
    the statement on its line is replaced with it; and the two other rules
    rewrite the text around the statement. *)
Lemma asm_statement_claim_fails :
  process_source (lit "__asm__(" ++ quoted (lit "nop") ++ lit ");")
  = lit "__asm__(" ++ quoted (lit "nop") ++ lit ");"
  /\ occursb (lit "GHIDRA")
       (process_source (lit "__asm__(" ++ quoted (lit "nop") ++ lit ");"))
     = false
  /\ process_source
       (lit "__asm__ (" ++ quoted (lit "nop") ++ lit "); f(1);")
     = lit "(void)123; /* GHIDRA: Removed __asm__ statement */"
  /\ process_source
       (lit "__int128 a; __asm__ (" ++ quoted (lit "nop") ++ lit ");")
     = lit "long /* GHIDRA: Removed __int128 */ a; "
       ++ lit "(void)123; /* GHIDRA: Removed __asm__ statement */".
Proof. vm_compute. repeat split. Qed.

(** C1, amended.  A statement made of the keyword and a space, any text,
    an opening parenthesis, any text and [);], all on one line, with no
    keyword-and-space before it on its line and no [);] after it on its
    line, is replaced by the no-op statement with its marker comment; the
    text before it and the text after it are rewritten as if each stood
    alone, and are unchanged when none of the three patterns occurs in
    them. *)
Theorem asm_statement_replaced (pre mid args post : str) :
  ~ In nl mid -> ~ In nl args ->
  occursb (lit "__asm__ ") (last_line pre) = false ->
  occursb (lit ");") (first_line post) = false ->
  process_source
    (pre ++ lit "__asm__ " ++ mid ++ lit "(" ++ args ++ lit ");" ++ post)
  = process_source pre
    ++ lit "(void)123; /* GHIDRA: Removed __asm__ statement */"
    ++ process_source post
  /\ (untouched pre = true -> untouched post = true ->
      process_source
        (pre ++ lit "__asm__ " ++ mid ++ lit "(" ++ args ++ lit ");" ++ post)
      = pre ++ lit "(void)123; /* GHIDRA: Removed __asm__ statement */"
        ++ post).
Proof.
  intros Hm Ha Hpre Hpost.
  assert (E : process_source
                (pre ++ lit "__asm__ " ++ mid ++ lit "(" ++ args ++ lit ");"
                 ++ post)
              = process_source pre ++ asm_repl ++ process_source post).
  { rewrite !process_source_steps, !asm_rule.
    change (lit "__asm__ ") with kw.
    rewrite (asm_statement_sub pre mid args post (not_in_free _ _ Hm)
               (not_in_free _ _ Ha) Hpre (first_line_no_close _ Hpost)).
    apply after_asm_block; reflexivity. }
  split; [exact E|].
  intros U1 U2. rewrite E.
  rewrite (process_source_untouched _ U1), (process_source_untouched _ U2).
  reflexivity.
Qed.

Lemma asm_statement_replaced_witness :
  process_source
    (text [lit "void f(void) {"] ++ lit "    __asm__ (" ++ quoted (lit "nop")
     ++ lit ");" ++ [nl] ++ text [lit "}"])
  = text [lit "void f(void) {";
          lit "    (void)123; /* GHIDRA: Removed __asm__ statement */";
          lit "}"].
Proof.
  apply (asm_statement_replaced (text [lit "void f(void) {"] ++ lit "    ") []
           (quoted (lit "nop")) ([nl] ++ text [lit "}"])).
  - vm_compute. tauto.
  - vm_compute. intuition discriminate.
  - reflexivity.
  - reflexivity.
  - reflexivity.
  - reflexivity.
Defined.

(** *** A rewritten text has no new match *)

Lemma has_asm_skip q b : blocks kw q b = true -> has_asm (q ++ b) = has_asm b.
Proof.
  induction q as [|c q IH]; intros H; [reflexivity|].
  cbn [blocks] in H. apply andb_true_iff in H. destruct H as [H1 H2].
  apply negb_true_iff in H1. cbn [app has_asm] in *.
  unfold matches_asm at 1. rewrite match_here_asm, H1. cbn [orb].
  apply IH, H2.
Qed.

Lemma has_asm_suffix a b : has_asm (a ++ b) = false -> has_asm b = false.
Proof.
  induction a as [|c a IH]; intros H; [exact H|].
  cbn [app has_asm] in H. apply orb_false_iff in H. apply IH, H.
Qed.

Lemma sub_asm_fixed t : has_asm t = false -> sub asm_re asm_repl t = t.
Proof.
  induction t as [|c t IH]; intros H.
  - rewrite sub_nil. reflexivity.
  - cbn [has_asm] in H. apply orb_false_iff in H. destruct H as [Hm Ht].
    unfold matches_asm in Hm.
    destruct (match_here asm_re (c :: t) [] []) eqn:E; [discriminate|].
    rewrite (sub_miss _ _ _ _ E). f_equal. apply IH, Ht.
Qed.

Lemma matches_asm_eq s :
  matches_asm s
  = prefixb kw s
    && match after_args (skipn (length kw) s) with
       | Some _ => true
       | None => false
       end.
Proof.
  unfold matches_asm. rewrite match_here_asm.
  destruct (prefixb kw s); [|reflexivity].
  destruct (after_args (skipn (length kw) s)); reflexivity.
Qed.

(** How a substitution whose replacement starts with [h] acts on the three
    searches the pattern is made of. *)
Section Pullback.

Variable re : regex.
Variables (r : str) (h : N) (r' : str).
Hypothesis r_head : r = h :: r'.
Hypothesis nonempty :
  forall s rest g,
    match_here re s [] [] = Some (rest, g) -> length rest < length s.
Hypothesis h_not_semicolon : h <> 59%N.
Hypothesis h_not_in_kw : ~ In h (tl kw).
Hypothesis close_hit :
  forall u rest g,
    match_here re u [] [] = Some (rest, g) -> after_close u = None ->
    after_close rest = None /\ free [nl; 41%N] r = true.
Hypothesis args_hit :
  forall u rest g,
    match_here re u [] [] = Some (rest, g) -> after_args u = None ->
    after_args rest = None /\ free [nl; 40%N] r = true.

(** A text without [h] at the start of the result was copied. *)
Lemma sub_head q t :
  ~ In h q -> prefixb q (sub re r t) = true ->
  prefixb q t = true
  /\ skipn (length q) (sub re r t) = sub re r (skipn (length q) t).
Proof.
  revert t. induction q as [|x q IH]; intros t Hq Hp.
  - split; reflexivity.
  - destruct t as [|c t].
    + rewrite sub_nil in Hp.
      destruct (match_here re [] [] []) as [[rest g]|] eqn:E;
        [|discriminate].
      apply nonempty in E. simpl in E. lia.
    + destruct (match_here re (c :: t) [] []) as [[rest g]|] eqn:E.
      * rewrite (sub_hit _ _ _ _ _ E (nonempty _ _ _ E)), r_head in Hp.
        cbn [app prefixb] in Hp. apply andb_true_iff in Hp.
        destruct Hp as [Hx _]. apply N.eqb_eq in Hx. subst x.
        exfalso. apply Hq. left. reflexivity.
      * rewrite (sub_miss _ _ _ _ E) in Hp |- *.
        cbn [prefixb] in Hp |- *. apply andb_true_iff in Hp.
        destruct Hp as [Hx Hp]. rewrite Hx. cbn [andb length skipn].
        apply IH; [|exact Hp]. intros Hin. apply Hq. right. exact Hin.
Qed.

Lemma pull_close u : after_close u = None -> after_close (sub re r u) = None.
Proof.
  remember (length u) as n eqn:En. revert u En.
  induction n as [n IH] using lt_wf_ind. intros u En H.
  destruct u as [|c u'].
  - rewrite sub_nil.
    destruct (match_here re [] [] []) as [[rest g]|] eqn:E; [|reflexivity].
    apply nonempty in E. simpl in E. lia.
  - destruct (match_here re (c :: u') [] []) as [[rest g]|] eqn:E.
    + pose proof (nonempty _ _ _ E) as Hlen.
      rewrite (sub_hit _ _ _ _ _ E Hlen).
      destruct (close_hit _ _ _ E H) as [Hrest Hfree].
      rewrite (after_close_skip _ _ Hfree).
      apply (IH (length rest)); [subst n; exact Hlen|reflexivity|exact Hrest].
    + rewrite (sub_miss _ _ _ _ E).
      cbn [after_close] in H |- *.
      destruct (N.eqb c nl); [reflexivity|].
      destruct (after_close u') eqn:Eu; [discriminate|].
      rewrite (IH (length u') ltac:(subst n; simpl; lia) u' eq_refl Eu).
      destruct (prefixb (lit ");") (c :: u')) eqn:Ep; [discriminate|].
      destruct (prefixb (lit ");") (c :: sub re r u')) eqn:Ep'; [|reflexivity].
      change (lit ");") with [41%N; 59%N] in Ep, Ep'.
      cbn [prefixb] in Ep, Ep'.
      apply andb_true_iff in Ep'. destruct Ep' as [Hc Hs].
      rewrite Hc in Ep. cbn [andb] in Ep.
      destruct (sub_head [59%N] u') as [Hq _].
      * intros [Hin|[]]. apply h_not_semicolon. symmetry. exact Hin.
      * exact Hs.
      * cbn [prefixb] in Hq. rewrite Hq in Ep. discriminate.
Qed.

Lemma pull_args u : after_args u = None -> after_args (sub re r u) = None.
Proof.
  remember (length u) as n eqn:En. revert u En.
  induction n as [n IH] using lt_wf_ind. intros u En H.
  destruct u as [|c u'].
  - rewrite sub_nil.
    destruct (match_here re [] [] []) as [[rest g]|] eqn:E; [|reflexivity].
    apply nonempty in E. simpl in E. lia.
  - destruct (match_here re (c :: u') [] []) as [[rest g]|] eqn:E.
    + pose proof (nonempty _ _ _ E) as Hlen.
      rewrite (sub_hit _ _ _ _ _ E Hlen).
      destruct (args_hit _ _ _ E H) as [Hrest Hfree].
      rewrite (after_args_skip _ _ Hfree).
      apply (IH (length rest)); [subst n; exact Hlen|reflexivity|exact Hrest].
    + rewrite (sub_miss _ _ _ _ E).
      cbn [after_args] in H |- *.
      destruct (N.eqb c nl); [reflexivity|].
      destruct (after_args u') eqn:Eu; [discriminate|].
      rewrite (IH (length u') ltac:(subst n; simpl; lia) u' eq_refl Eu).
      destruct (N.eqb c 40); [|reflexivity].
      apply pull_close, H.
Qed.

(** Where the text was copied, a match in the result is a match in the
    text. *)
Lemma pull_match c t :
  match_here re (c :: t) [] [] = None ->
  matches_asm (c :: t) = false ->
  matches_asm (c :: sub re r t) = false.
Proof.
  intros _ H.
  destruct (matches_asm (c :: sub re r t)) eqn:E; [|reflexivity].
  rewrite matches_asm_eq in E, H.
  change (length kw) with (S (length (tl kw))) in E, H.
  cbn [skipn] in E, H.
  change (prefixb kw) with (prefixb (95%N :: tl kw)) in E, H.
  cbn [prefixb] in E, H.
  apply andb_true_iff in E. destruct E as [Ep Ea].
  apply andb_true_iff in Ep. destruct Ep as [Hc Hp].
  destruct (sub_head (tl kw) t h_not_in_kw Hp) as [Hq Hs].
  rewrite Hc, Hq in H. cbn [andb] in H.
  rewrite Hs in Ea.
  destruct (after_args (skipn (length (tl kw)) t)) eqn:Et; [discriminate|].
  rewrite (pull_args _ Et) in Ea. discriminate.
Qed.

End Pullback.

Lemma asm_nonempty s rest g :
  match_here asm_re s [] [] = Some (rest, g) -> length rest < length s.
Proof. intros H. apply (match_here_asm_some s rest g H). Qed.

Lemma group_lit_match p s rest g :
  match_here (group_lit p) s [] [] = Some (rest, g) -> s = p ++ rest.
Proof.
  rewrite match_here_group_lit.
  destruct (prefixb p s) eqn:E; [|discriminate].
  intros H. injection H as <- _. apply prefixb_true, E.
Qed.

Lemma group_lit_nonempty p s rest g :
  p <> [] ->
  match_here (group_lit p) s [] [] = Some (rest, g) -> length rest < length s.
Proof.
  intros Hp H. apply group_lit_match in H. subst s.
  rewrite length_app. destruct p; [contradiction|]. simpl. lia.
Qed.

Lemma asm_close_hit u rest g :
  match_here asm_re u [] [] = Some (rest, g) -> after_close u = None ->
  after_close rest = None /\ free [nl; 41%N] asm_repl = true.
Proof.
  intros H Hu. exfalso.
  destruct (match_here_asm_some u rest g H) as [_ [Hp [Ha _]]].
  apply prefixb_true in Hp. rewrite Hp in Hu.
  rewrite after_close_skip in Hu by reflexivity.
  rewrite (after_args_close _ _ Ha) in Hu. discriminate.
Qed.

Lemma asm_args_hit u rest g :
  match_here asm_re u [] [] = Some (rest, g) -> after_args u = None ->
  after_args rest = None /\ free [nl; 40%N] asm_repl = true.
Proof.
  intros H Hu. exfalso.
  destruct (match_here_asm_some u rest g H) as [_ [Hp [Ha _]]].
  apply prefixb_true in Hp. rewrite Hp in Hu.
  rewrite after_args_skip in Hu by reflexivity.
  rewrite Ha in Hu. discriminate.
Qed.

Lemma f16_close_hit u rest g :
  match_here (group_lit (lit ".0f16")) u [] [] = Some (rest, g) ->
  after_close u = None ->
  after_close rest = None /\ free [nl; 41%N] f16_repl = true.
Proof.
  intros H Hu. apply group_lit_match in H. subst u.
  rewrite after_close_skip in Hu by reflexivity.
  split; [exact Hu|reflexivity].
Qed.

Lemma f16_args_hit u rest g :
  match_here (group_lit (lit ".0f16")) u [] [] = Some (rest, g) ->
  after_args u = None ->
  after_args rest = None /\ free [nl; 40%N] f16_repl = true.
Proof.
  intros H Hu. apply group_lit_match in H. subst u.
  rewrite after_args_skip in Hu by reflexivity.
  split; [exact Hu|reflexivity].
Qed.

Lemma not_in_tl_kw_40 : ~ In 40%N (tl kw).
Proof. vm_compute. intuition discriminate. Qed.

Lemma not_in_tl_kw_46 : ~ In 46%N (tl kw).
Proof. vm_compute. intuition discriminate. Qed.

(** After the inline-assembly rule the pattern matches nowhere. *)
Lemma sub_asm_clean s : has_asm (sub asm_re asm_repl s) = false.
Proof.
  remember (length s) as n eqn:En. revert s En.
  induction n as [n IH] using lt_wf_ind. intros s En.
  destruct s as [|c s'].
  - rewrite sub_nil. reflexivity.
  - destruct (match_here asm_re (c :: s') [] []) as [[rest g]|] eqn:E.
    + pose proof (asm_nonempty _ _ _ E) as Hlen.
      rewrite (sub_hit _ _ _ _ _ E Hlen).
      destruct (match_here_asm_some _ _ _ E) as [_ [_ [_ [Hmax _]]]].
      pose proof (pull_close asm_re asm_repl 40%N (tl asm_repl) eq_refl
                    asm_nonempty ltac:(discriminate) asm_close_hit rest Hmax)
        as Hc.
      assert (Ha : after_args (sub asm_re asm_repl rest) = None).
      { destruct (after_args (sub asm_re asm_repl rest)) eqn:Ea;
          [|reflexivity].
        rewrite (after_args_close _ _ Ea) in Hc. discriminate. }
      set (w := sub asm_re asm_repl rest) in *.
      change (asm_repl ++ w)
        with (lit "(void)123; /* GHIDRA: Removed "
              ++ kw ++ lit "statement */" ++ w).
      rewrite has_asm_skip by (apply blocks_any_sound; reflexivity).
      change (kw ++ lit "statement */" ++ w)
        with (95%N :: (tl kw ++ lit "statement */") ++ w).
      cbn [has_asm].
      change (95%N :: (tl kw ++ lit "statement */") ++ w)
        with (kw ++ lit "statement */" ++ w).
      rewrite matches_asm_eq, prefixb_app, skipn_app_exact.
      rewrite after_args_skip by reflexivity. rewrite Ha. cbn [andb orb].
      rewrite has_asm_skip by (apply blocks_any_sound; reflexivity).
      unfold w.
      apply (IH (length rest)); [subst n; exact Hlen|reflexivity].
    + rewrite (sub_miss _ _ _ _ E). cbn [has_asm].
      rewrite (IH (length s') ltac:(subst n; simpl; lia) s' eq_refl).
      rewrite orb_false_r.
      apply (pull_match asm_re asm_repl 40%N (tl asm_repl) eq_refl
               asm_nonempty ltac:(discriminate) not_in_tl_kw_40
               asm_close_hit asm_args_hit c s' E).
      unfold matches_asm. rewrite E. reflexivity.
Qed.

(** The f16 rule creates no match of the inline-assembly pattern. *)
Lemma sub_f16_keeps_clean t :
  has_asm t = false ->
  has_asm (sub (group_lit (lit ".0f16")) f16_repl t) = false.
Proof.
  remember (length t) as n eqn:En. revert t En.
  induction n as [n IH] using lt_wf_ind. intros t En H.
  destruct t as [|c t'].
  - rewrite (rep_nil _ f16_repl f16_nonempty). reflexivity.
  - destruct (match_here (group_lit (lit ".0f16")) (c :: t') [] [])
      as [[rest g]|] eqn:E.
    + pose proof (group_lit_nonempty _ _ _ _ f16_nonempty E) as Hlen.
      rewrite (sub_hit _ _ _ _ _ E Hlen).
      rewrite has_asm_skip by (apply blocks_any_sound; reflexivity).
      apply (IH (length rest)); [subst n; exact Hlen|reflexivity|].
      pose proof (group_lit_match _ _ _ _ E) as Et. rewrite Et in H.
      exact (has_asm_suffix _ _ H).
    + rewrite (sub_miss _ _ _ _ E).
      cbn [has_asm] in H |- *. apply orb_false_iff in H.
      destruct H as [Hm Ht].
      rewrite (IH (length t') ltac:(subst n; simpl; lia) t' eq_refl Ht).
      rewrite orb_false_r.
      apply (pull_match (group_lit (lit ".0f16")) f16_repl 46%N (tl f16_repl)
               eq_refl (fun s rest g => group_lit_nonempty _ s rest g f16_nonempty)
               ltac:(discriminate) not_in_tl_kw_46
               f16_close_hit f16_args_hit c t' E Hm).
Qed.

(** *** Nothing is left to replace *)

Lemma blocks_occursb_front p a b :
  blocks p a b = true -> occursb p b = false -> occursb p (a ++ b) = false.
Proof.
  intros Hb Ho. induction a as [|c a IH]; [exact Ho|].
  cbn [blocks] in Hb. apply andb_true_iff in Hb. destruct Hb as [H1 H2].
  apply negb_true_iff in H1. cbn [app occursb] in *.
  rewrite H1. apply IH, H2.
Qed.

Lemma blocks_occursb_left p a b :
  p <> [] -> blocks p a b = true -> occursb p a = false.
Proof.
  intros Hp. induction a as [|c a IH]; intros H.
  - destruct p; [contradiction|reflexivity].
  - cbn [blocks] in H. apply andb_true_iff in H. destruct H as [H1 H2].
    apply negb_true_iff in H1. cbn [occursb].
    rewrite (IH H2), orb_false_r.
    destruct (prefixb p (c :: a)) eqn:E; [|reflexivity].
    rewrite (prefixb_weaken _ _ b E) in H1. discriminate.
Qed.

Lemma blocks_snoc p a c s :
  blocks p a (c :: s) = true -> prefixb p (c :: s) = false ->
  blocks p (a ++ [c]) s = true.
Proof.
  intros Hb Hp. induction a as [|x a IH].
  - cbn [app blocks]. rewrite Hp. reflexivity.
  - cbn [blocks] in Hb. apply andb_true_iff in Hb. destruct Hb as [H1 H2].
    cbn [app blocks]. rewrite (IH H2), andb_true_r.
    change (x :: a ++ [c]) with ((x :: a) ++ [c]).
    rewrite <- app_assoc. exact H1.
Qed.

(** After a literal is replaced by a text it cannot touch, it occurs
    nowhere. *)
Lemma rep_removes p r :
  p <> [] ->
  (forall b, enters p (r ++ b) = true) ->
  (forall b, blocks p r b = true) ->
  forall s pre,
    blocks p pre s = true ->
    occursb p (pre ++ sub (group_lit p) r s) = false.
Proof.
  intros Hp He Hb s.
  remember (length s) as n eqn:En. revert s En.
  induction n as [n IH] using lt_wf_ind. intros s En pre H.
  destruct s as [|c s'].
  - rewrite rep_nil by exact Hp.
    apply blocks_occursb_front; [exact H|].
    destruct p; [contradiction|reflexivity].
  - destruct (prefixb p (c :: s')) eqn:Ep.
    + apply prefixb_true in Ep. rewrite Ep.
      rewrite rep_hit by exact Hp.
      apply occursb_around; [apply He|apply Hb| |].
      * exact (blocks_occursb_left _ _ _ Hp H).
      * apply (IH (length (skipn (length p) (c :: s')))) with (pre := []);
          [|reflexivity|reflexivity].
        subst n. rewrite length_skipn.
        destruct p; [contradiction|]. simpl. lia.
    + rewrite rep_miss by assumption.
      replace (pre ++ c :: sub (group_lit p) r s')
        with ((pre ++ [c]) ++ sub (group_lit p) r s')
        by (rewrite <- app_assoc; reflexivity).
      apply (IH (length s')); [subst n; simpl; lia|reflexivity|].
      apply blocks_snoc; assumption.
Qed.

(** The inline-assembly rule creates no occurrence of a text that cannot
    touch its replacement. *)
Lemma sub_asm_keeps_absent x :
  (forall b, enters x (asm_repl ++ b) = true) ->
  (forall b, blocks x asm_repl b = true) ->
  forall s pre,
    occursb x (pre ++ s) = false ->
    occursb x (pre ++ sub asm_re asm_repl s) = false.
Proof.
  intros He Hb s.
  remember (length s) as n eqn:En. revert s En.
  induction n as [n IH] using lt_wf_ind. intros s En pre H.
  destruct s as [|c s'].
  - rewrite sub_nil. exact H.
  - destruct (match_here asm_re (c :: s') [] []) as [[rest g]|] eqn:E.
    + pose proof (asm_nonempty _ _ _ E) as Hlen.
      rewrite (sub_hit _ _ _ _ _ E Hlen).
      destruct (match_here_asm_some _ _ _ E)
        as [_ [Hk [_ [_ [_ [m [Em _]]]]]]].
      apply prefixb_true in Hk. rewrite Hk, Em in H.
      destruct (occursb_app_false _ _ _ H) as [Hpre H1].
      destruct (occursb_app_false _ _ _ H1) as [_ H2].
      destruct (occursb_app_false _ _ _ H2) as [_ H3].
      apply occursb_around; [apply He|apply Hb|exact Hpre|].
      apply (IH (length rest)) with (pre := []);
        [subst n; exact Hlen|reflexivity|exact H3].
    + rewrite (sub_miss _ _ _ _ E).
      replace (pre ++ c :: sub asm_re asm_repl s')
        with ((pre ++ [c]) ++ sub asm_re asm_repl s')
        by (rewrite <- app_assoc; reflexivity).
      apply (IH (length s')); [subst n; simpl; lia|reflexivity|].
      rewrite <- app_assoc. exact H.
Qed.

(** ** Applying the sanitizer twice *)

(** C2, as the specification states it, fails: the marker comment of the
    second rule holds the keyword the rule looks for, so a second
    application inserts a second marker comment. *)
Lemma process_source_twice_differs :
  process_source (lit "__int128")
  = lit "long /* GHIDRA: Removed __int128 */"
  /\ process_source (process_source (lit "__int128"))
     = lit "long /* GHIDRA: Removed long /* GHIDRA: Removed __int128 */ */"
  /\ process_source (process_source (lit "__int128"))
     <> process_source (lit "__int128").
Proof.
  split; [reflexivity|]. split; [reflexivity|].
  intros H. apply (f_equal (@length N)) in H. vm_compute in H. discriminate.
Qed.

(** C2, amended.  Applying [process_source] twice gives the same text as
    applying it once for every input in which no [__int128] is left after
    the inline-assembly rule; this holds in particular for every input
    without [__int128]. *)
Theorem process_source_idempotent (s : str) :
  occursb (lit "__int128") s = false
  \/ occursb (lit "__int128") (re_sub asm_pattern asm_repl s) = false ->
  process_source (process_source s) = process_source s.
Proof.
  intros H.
  assert (H1 : occursb (lit "__int128") (sub asm_re asm_repl s) = false).
  { destruct H as [H|H]; [|rewrite asm_rule in H; exact H].
    apply (sub_asm_keeps_absent (lit "__int128")) with (pre := []);
      [intros b; apply enters_any_sound; reflexivity
      |intros b; apply blocks_any_sound; reflexivity
      |exact H]. }
  set (t1 := sub asm_re asm_repl s) in *.
  set (t3 := sub (group_lit (lit ".0f16")) f16_repl t1).
  assert (E : process_source s = t3).
  { rewrite process_source_steps, asm_rule. fold t1. unfold after_asm.
    rewrite int128_rule, (rep_absent _ int128_repl int128_nonempty _ H1).
    apply f16_rule. }
  rewrite E.
  assert (C3 : has_asm t3 = false)
    by (apply sub_f16_keeps_clean, sub_asm_clean).
  assert (I3 : occursb (lit "__int128") t3 = false).
  { apply (rep_keeps_absent (lit ".0f16") f16_repl (lit "__int128")
             f16_nonempty) with (pre := []);
      [intros b; apply enters_any_sound; reflexivity
      |intros b; apply blocks_any_sound; reflexivity
      |exact H1]. }
  assert (F3 : occursb (lit ".0f16") t3 = false).
  { apply (rep_removes (lit ".0f16") f16_repl f16_nonempty) with (pre := []);
      [intros b; apply enters_any_sound; reflexivity
      |intros b; apply blocks_any_sound; reflexivity
      |reflexivity]. }
  rewrite process_source_steps, asm_rule, (sub_asm_fixed _ C3).
  unfold after_asm.
  rewrite int128_rule, (rep_absent _ int128_repl int128_nonempty _ I3).
  rewrite f16_rule. apply (rep_absent _ f16_repl f16_nonempty _ F3).
Qed.

Lemma process_source_idempotent_witness :
  process_source
    (process_source (lit "__asm__ volatile (nop); float h = 1.0f16;"))
  = process_source (lit "__asm__ volatile (nop); float h = 1.0f16;").
Proof.
  apply process_source_idempotent. left. reflexivity.
Defined.

(** * Further properties *)

(** ** What a computation leaves of the world *)

Section Preserves.

Variable R : world -> world -> Prop.
Hypothesis R_refl : forall w, R w w.
Hypothesis R_trans : forall w1 w2 w3, R w1 w2 -> R w2 w3 -> R w1 w3.
Hypothesis R_says : forall w s, R w (says w s).
Hypothesis R_heap : forall w h, R w (with_heap w h).

Lemma preserves_bind {A B} (c : M A) (k : A -> M B) :
  preserves R c -> (forall a, preserves R (k a)) -> preserves R (bind c k).
Proof.
  intros Hc Hk w. unfold bind. specialize (Hc w).
  destruct (c w) as [[a|e] w1]; cbn [snd] in *; [|exact Hc].
  eapply R_trans; [exact Hc|apply Hk].
Qed.

Lemma preserves_ret {A} (a : A) : preserves R (ret a).
Proof. intros w. apply R_refl. Qed.

Lemma preserves_raise {A} e : preserves R (@raise A e).
Proof. intros w. apply R_refl. Qed.

Lemma preserves_print s : preserves R (print s).
Proof. intros w. apply R_says. Qed.

Lemma preserves_get_list r : preserves R (get_list r).
Proof. intros w. apply R_refl. Qed.

Lemma preserves_extend r xs : preserves R (extend r xs).
Proof. intros w. apply R_heap. Qed.

Lemma preserves_decode b : preserves R (decode b).
Proof. destruct b; [apply preserves_ret|apply preserves_raise]. Qed.

Lemma preserves_encode s : preserves R (encode s).
Proof.
  unfold encode.
  destruct (encodable s); [apply preserves_ret|apply preserves_raise].
Qed.

Lemma preserves_for_each {A} (l : list A) (body : A -> M unit) :
  (forall x, preserves R (body x)) -> preserves R (for_each l body).
Proof.
  intros Hb. induction l as [|x l IH]; cbn [for_each].
  - apply preserves_ret.
  - apply preserves_bind; [apply Hb|intros _; exact IH].
Qed.

Variable popen : filesystem -> list str -> str -> option completed.

Lemma preserves_run_gcc gcc flags input cap :
  preserves R (run_gcc popen gcc flags input cap).
Proof.
  unfold run_gcc. apply preserves_bind; [apply preserves_get_list|].
  intros gcc_flags w.
  destruct (popen (files w) _ input) as [p|]; [|apply R_refl].
  apply preserves_bind; [apply preserves_encode|]. intros _.
  destruct (negb (returncode p =? 0)%Z).
  - apply preserves_bind; [apply preserves_decode|]. intros e.
    apply preserves_bind; [apply preserves_print|]. intros _.
    apply preserves_raise.
  - destruct cap; apply preserves_decode.
Qed.

Lemma preserves_include_flags out : preserves R (include_flags out).
Proof.
  unfold include_flags.
  destruct (index search_starts out); [|apply preserves_raise].
  destruct (index search_ends out); [apply preserves_ret|apply preserves_raise].
Qed.

Lemma preserves_define_flag opts i : preserves R (define_flag opts i).
Proof.
  unfold define_flag.
  destruct (re_search define_pattern i);
    [apply preserves_extend|apply preserves_raise].
Qed.

End Preserves.

(** *** The files a computation may change *)

Lemma touches_refl fs w : touches fs w w.
Proof. intros g _. split; reflexivity. Qed.

Lemma touches_trans fs w1 w2 w3 :
  touches fs w1 w2 -> touches fs w2 w3 -> touches fs w1 w3.
Proof.
  intros H1 H2 g Hg. destruct (H1 g Hg) as [A1 B1].
  destruct (H2 g Hg) as [A2 B2]. split; congruence.
Qed.

Lemma touches_says fs w s : touches fs w (says w s).
Proof. intros g _. split; reflexivity. Qed.

Lemma touches_heap fs w h : touches fs w (with_heap w h).
Proof. intros g _. split; reflexivity. Qed.

Lemma not_in_neq (g f : str) (fs : list str) : In f fs -> ~ In g fs -> g <> f.
Proof. intros Hf Hg ->. contradiction. Qed.

Lemma fs_drop_other f fs g : g <> f -> fs_drop f fs g = fs g.
Proof. intros H. unfold fs_drop. rewrite (str_eqb_neq H). reflexivity. Qed.

Lemma fs_drop_same f fs : fs_drop f fs f = None.
Proof. unfold fs_drop. rewrite str_eqb_refl. reflexivity. Qed.

Lemma touches_opened fs p w : In p fs -> touches fs w (opened p w).
Proof.
  intros Hp g Hg. pose proof (not_in_neq g p fs Hp Hg) as Hn.
  cbn [opened files buffers with_buffers with_files].
  rewrite !fs_set_other by exact Hn. split; reflexivity.
Qed.

Lemma touches_closed fs p w : In p fs -> touches fs w (closed p w).
Proof.
  intros Hp g Hg. pose proof (not_in_neq g p fs Hp Hg) as Hn.
  unfold closed. destruct (buffers w p); [|split; reflexivity].
  cbn [files buffers with_buffers with_files].
  rewrite fs_set_other, fs_drop_other by exact Hn. split; reflexivity.
Qed.

Lemma touches_write fs f s : In f fs -> preserves (touches fs) (write f s).
Proof.
  intros Hf w g Hg. pose proof (not_in_neq g f fs Hf Hg) as Hn.
  unfold write. destruct (buffers w f); [|split; reflexivity].
  cbn [snd files buffers with_buffers].
  rewrite fs_set_other by exact Hn. split; reflexivity.
Qed.

Lemma touches_with_open {A} fs p (body : str -> M A) :
  In p fs -> preserves (touches fs) (body p) ->
  preserves (touches fs) (with_open p body).
Proof.
  intros Hp Hb w. destruct (unwritable w p) eqn:Ho.
  - rewrite (with_open_fails _ _ _ Ho). apply touches_refl.
  - rewrite (with_open_eq _ _ _ Ho). cbn [snd].
    eapply touches_trans; [apply touches_opened, Hp|].
    eapply touches_trans; [apply Hb|apply touches_closed, Hp].
Qed.

(** A file that was closed is not open. *)
Lemma buffers_closed f w : buffers (closed f w) f = None.
Proof.
  unfold closed. destruct (buffers w f) eqn:E; [|exact E].
  cbn [buffers with_buffers]. apply fs_drop_same.
Qed.

Lemma files_closed f w b :
  buffers w f = Some b ->
  files (closed f w) f = Some (content (files w) f ++ b).
Proof.
  intros E. unfold closed. rewrite E. cbn [files with_buffers with_files].
  apply fs_set_same.
Qed.

Lemma header_not_options a_name a_arch :
  header_file a_name a_arch <> options_file a_name a_arch.
Proof.
  unfold header_file, options_file. intros H.
  do 3 apply app_inv_head in H. discriminate H.
Qed.

Ltac rel_side :=
  solve [ exact (touches_refl _) | exact (touches_trans _)
        | exact (touches_says _) | exact (touches_heap _)
        | assumption ].

Ltac preserve :=
  repeat first
    [ rel_side
    | match goal with |- forall _, _ => intro end
    | apply preserves_run_gcc | apply preserves_include_flags
    | apply preserves_define_flag
    | apply preserves_for_each
    | apply preserves_print | apply preserves_get_list
    | apply preserves_extend | apply preserves_ret | apply preserves_raise
    | apply preserves_decode
    | apply preserves_bind ].

(** ** The files of a run *)

Section Frames.

Variable popen : filesystem -> list str -> str -> option completed.

Lemma touches_flatten_header fs gcc_cmd a_name a_arch :
  In (header_file a_name a_arch) fs ->
  preserves (touches fs) (flatten_header popen gcc_cmd a_name a_arch).
Proof.
  intros Hin. unfold flatten_header.
  apply preserves_bind; [rel_side|preserve|intros _].
  apply touches_with_open; [exact Hin|].
  apply preserves_bind; [rel_side|apply touches_write, Hin|intros _].
  apply preserves_bind; [rel_side|preserve|intros src].
  apply touches_write, Hin.
Qed.

Lemma touches_generate_options fs gcc_cmd a_name a_arch :
  In (options_file a_name a_arch) fs ->
  preserves (touches fs) (generate_options popen gcc_cmd a_name a_arch).
Proof.
  intros Hin. unfold generate_options.
  apply preserves_bind; [rel_side|preserve|intros _].
  apply touches_with_open; [exact Hin|].
  apply preserves_bind; [rel_side|preserve|intros more].
  apply preserves_bind; [rel_side|preserve|intros _].
  apply preserves_bind; [rel_side|preserve|intros err].
  apply preserves_bind; [rel_side|preserve|intros incs].
  apply preserves_bind; [rel_side|preserve|intros _].
  apply preserves_bind; [rel_side|preserve|intros out].
  apply preserves_bind; [rel_side|preserve|intros _].
  apply preserves_bind; [rel_side|preserve|intros all].
  apply preserves_for_each; [rel_side|rel_side|].
  intros opt. apply touches_write, Hin.
Qed.

Lemma buffers_with_open {A} p (body : str -> M A) w :
  unwritable w p = false ->
  buffers (snd (with_open p body w)) p = None.
Proof.
  intros Ho. rewrite (with_open_eq _ _ _ Ho). cbn [snd].
  apply buffers_closed.
Qed.

Lemma buffers_with_open_kept {A} p (body : str -> M A) w :
  buffers w p = None ->
  buffers (snd (with_open p body w)) p = None.
Proof.
  intros H. destruct (unwritable w p) eqn:Ho.
  - rewrite (with_open_fails _ _ _ Ho). exact H.
  - apply buffers_with_open, Ho.
Qed.

Lemma buffers_flatten_header gcc_cmd a_name a_arch w g :
  buffers w g = None ->
  buffers (snd (flatten_header popen gcc_cmd a_name a_arch w)) g = None.
Proof.
  intros Hg.
  destruct (list_eq_dec N.eq_dec g (header_file a_name a_arch)) as [->|Hn].
  - unfold flatten_header. rewrite print_bind.
    apply buffers_with_open_kept, Hg.
  - destruct (touches_flatten_header [header_file a_name a_arch] gcc_cmd
                a_name a_arch (or_introl eq_refl) w g) as [_ E].
    + intros [H|[]]. congruence.
    + rewrite E. exact Hg.
Qed.

Lemma buffers_generate_options gcc_cmd a_name a_arch w g :
  buffers w g = None ->
  buffers (snd (generate_options popen gcc_cmd a_name a_arch w)) g = None.
Proof.
  intros Hg.
  destruct (list_eq_dec N.eq_dec g (options_file a_name a_arch)) as [->|Hn].
  - unfold generate_options. rewrite print_bind.
    apply buffers_with_open_kept, Hg.
  - destruct (touches_generate_options [options_file a_name a_arch] gcc_cmd
                a_name a_arch (or_introl eq_refl) w g) as [_ E].
    + intros [H|[]]. congruence.
    + rewrite E. exact Hg.
Qed.

End Frames.

(** X2. Every way out of the two [with] blocks closes the file: when no
    file is open at the start of the script, none is open at its end,
    whatever the arguments are, whatever the compiler does and however
    the run ends. *)
Theorem main_leaves_no_file_open
  (popen : filesystem -> list str -> str -> option completed)
  (argv : list str) (w : world) (g : str) :
  buffers w g = None ->
  buffers (snd (main popen argv w)) g = None.
Proof.
  intros Hg. unfold main.
  destruct argv as [|prog [|a_name [|a_arch [|x argv]]]];
    try exact Hg.
  destruct (negb (str_eqb a_arch (lit "32"))
            && negb (str_eqb a_arch (lit "64"))); [exact Hg|].
  rewrite print_bind. unfold bind.
  pose proof (buffers_flatten_header popen (gcc_cmd_of a_arch) a_name a_arch
                (says w (lit "Generating profile " ++ a_name ++ lit " ("
                         ++ a_arch ++ lit "-bit)")) g Hg) as H1.
  destruct (flatten_header popen (gcc_cmd_of a_arch) a_name a_arch _)
    as [[u|e] w1]; cbn [snd] in *; [|exact H1].
  apply buffers_generate_options, H1.
Qed.

Lemma main_leaves_no_file_open_witness :
  buffers (snd (main failing_popen (sample_argv "32")
                  (initial_world no_files))) (lit "d3d9_32.h")
  = None.
Proof.
  apply (main_leaves_no_file_open failing_popen (sample_argv "32")
           (initial_world no_files) (lit "d3d9_32.h")).
  reflexivity.
Defined.

(** ** The outcomes of a compiler run *)

Section Outcomes.

Variable popen : filesystem -> list str -> str -> option completed.

(** The three ways [run_gcc] ends. *)
Lemma run_gcc_cases gcc flags input (cap : bool) w :
  (exists p t,
     popen (files w) ([gcc] ++ l_gcc (heap w) ++ flags ++ [lit "-"]) input
     = Some p
     /\ encodable input = true
     /\ returncode p = 0%Z
     /\ (if cap then s_err p else s_out p) = Some t
     /\ run_gcc popen gcc flags input cap w = (Ok t, w))
  \/ (exists e,
        run_gcc popen gcc flags input cap w = (Raised e, w)
        /\ (e = FileNotFoundError
            /\ popen (files w) ([gcc] ++ l_gcc (heap w) ++ flags ++ [lit "-"])
                 input = None
            \/ e = UnicodeEncodeError /\ encodable input = false
            \/ e = UnicodeDecodeError))
  \/ (exists p err,
        popen (files w) ([gcc] ++ l_gcc (heap w) ++ flags ++ [lit "-"]) input
        = Some p
        /\ encodable input = true
        /\ returncode p <> 0%Z
        /\ s_err p = Some err
        /\ run_gcc popen gcc flags input cap w
           = (Raised (SystemExit 1), says w (failure_message err))).
Proof.
  unfold run_gcc. rewrite get_list_bind. cbn [load].
  destruct (popen (files w) _ input) as [p|] eqn:Hp.
  - destruct (encodable input) eqn:Hin.
    + rewrite (encode_bind _ _ _ Hin).
      destruct (returncode p =? 0)%Z eqn:Hrc; cbn [negb].
      * apply Z.eqb_eq in Hrc.
        destruct (if cap then s_err p else s_out p) as [t|] eqn:Ht.
        -- left. exists p, t. repeat split; try assumption.
           destruct cap; rewrite Ht; reflexivity.
        -- right. left. exists UnicodeDecodeError.
           split; [|right; right; reflexivity].
           destruct cap; rewrite Ht; reflexivity.
      * apply Z.eqb_neq in Hrc. destruct (s_err p) as [err|] eqn:He.
        -- right. right. exists p, err. repeat split; assumption.
        -- right. left. exists UnicodeDecodeError.
           split; [reflexivity|right; right; reflexivity].
    + rewrite (encode_fails _ _ _ Hin). right. left.
      exists UnicodeEncodeError. split; [reflexivity|].
      right. left. split; reflexivity.
  - right. left. exists FileNotFoundError. split; [reflexivity|].
    left. split; reflexivity.
Qed.

(** [run_gcc] changes no file, whatever its result. *)
Lemma run_gcc_files gcc flags input (cap : bool) w :
  files (snd (run_gcc popen gcc flags input cap w)) = files w
  /\ buffers (snd (run_gcc popen gcc flags input cap w)) = buffers w.
Proof.
  destruct (run_gcc_cases gcc flags input cap w)
    as [[p [t [_ [_ [_ [_ E]]]]]]
       |[[e [E _]]|[p [err [_ [_ [_ [_ E]]]]]]]];
    rewrite E; split; reflexivity.
Qed.

Lemma write_ok f s w b :
  buffers w f = Some b ->
  write f s w = (Ok tt, with_buffers w (fs_set f (b ++ s) (buffers w))).
Proof. intros H. unfold write. rewrite H. reflexivity. Qed.

(** The flattening step when the header file cannot be opened. *)
Lemma flatten_header_locked gcc_cmd a_name a_arch w :
  unwritable w (header_file a_name a_arch) = true ->
  flatten_header popen gcc_cmd a_name a_arch w
  = (Raised OSError, says w flatten_message).
Proof.
  intros H. unfold flatten_header. rewrite print_bind.
  apply with_open_fails, H.
Qed.

(** The flattening step from the point where the prologue is in the
    buffer of the header file. *)
Lemma flatten_header_unfold gcc_cmd a_name a_arch w :
  unwritable w (header_file a_name a_arch) = false ->
  flatten_header popen gcc_cmd a_name a_arch w
  = finally
      (src <- run_gcc popen gcc_cmd [lit "-P"; lit "-E"] (include_line a_name)
                false ;;
       write (header_file a_name a_arch) (process_source src))%py
      (close (header_file a_name a_arch))
      (with_buffers (opened (header_file a_name a_arch)
                       (says w flatten_message))
         (fs_set (header_file a_name a_arch) DEFAULT_SOURCE
            (buffers (opened (header_file a_name a_arch)
                        (says w flatten_message))))).
Proof.
  intros Ho. unfold flatten_header. rewrite print_bind. unfold with_open.
  rewrite open_w_bind by exact Ho. unfold finally at 1 2.
  rewrite (write_bind _ DEFAULT_SOURCE _ _ []) by apply fs_set_same.
  reflexivity.
Qed.

(** The two ways the flattening step ends once the header file is open. *)
Lemma flatten_header_cases gcc_cmd a_name a_arch w :
  unwritable w (header_file a_name a_arch) = false ->
  (exists p src,
     popen (fs_set (header_file a_name a_arch) [] (files w))
       (flatten_args gcc_cmd (l_gcc (heap w))) (include_line a_name) = Some p
     /\ encodable a_name = true
     /\ returncode p = 0%Z
     /\ s_out p = Some src
     /\ fst (flatten_header popen gcc_cmd a_name a_arch w) = Ok tt
     /\ files (snd (flatten_header popen gcc_cmd a_name a_arch w))
          (header_file a_name a_arch)
        = Some (DEFAULT_SOURCE ++ process_source src)
     /\ printed (snd (flatten_header popen gcc_cmd a_name a_arch w))
        = printed w ++ [flatten_message])
  \/ (exists e,
        fst (flatten_header popen gcc_cmd a_name a_arch w) = Raised e
        /\ files (snd (flatten_header popen gcc_cmd a_name a_arch w))
             (header_file a_name a_arch)
           = Some DEFAULT_SOURCE
        /\ exit_status (Raised e) = 1%Z).
Proof.
  intros Ho. rewrite (flatten_header_unfold _ _ _ _ Ho). rewrite finally_close.
  set (h := header_file a_name a_arch).
  set (w1 := with_buffers _ _).
  assert (Hb : buffers w1 h = Some DEFAULT_SOURCE) by apply fs_set_same.
  assert (Hc : content (files w1) h = []) by apply content_fs_set.
  destruct (run_gcc_cases gcc_cmd [lit "-P"; lit "-E"] (include_line a_name)
              false w1)
    as [[p [src [Hp [Hin [Hrc [Hs E]]]]]]
       |[[e [E He]]|[p [err [Hp [Hin [Hrc [He E]]]]]]]].
  - left. exists p, src.
    rewrite (bind_ok _ _ _ _ _ E), (write_ok _ _ _ _ Hb). cbn [fst snd].
    unfold include_line in Hin. rewrite encodable_include in Hin.
    repeat split; try assumption.
    + erewrite files_closed by apply fs_set_same.
      cbn [files with_buffers]. rewrite Hc. reflexivity.
    + rewrite printed_closed. reflexivity.
  - right. exists e. rewrite (bind_raised _ _ _ _ _ E). cbn [fst snd].
    split; [reflexivity|]. split.
    + rewrite (files_closed _ _ _ Hb), Hc. reflexivity.
    + destruct He as [[-> _]|[[-> _]| ->]]; reflexivity.
  - right. exists (SystemExit 1). rewrite (bind_raised _ _ _ _ _ E).
    cbn [fst snd]. split; [reflexivity|]. split; [|reflexivity].
    erewrite files_closed by exact Hb. cbn [files says]. rewrite Hc.
    reflexivity.
Qed.

End Outcomes.

(** X3. [run_gcc] returns a text only when the command was found and
    ended with return code 0.  The command line is the command, the
    flags of [GCC_FLAGS], the flags given and [-]; the text returned is the
    decoded diagnostic output when [capture_stderr] is set and the decoded
    standard output otherwise; nothing is printed, written or appended to
    a list. *)
Theorem run_gcc_returns
  (popen : filesystem -> list str -> str -> option completed)
  (gcc : str) (flags : list str) (input : str) (capture_stderr : bool)
  (w w' : world) (t : str) :
  run_gcc popen gcc flags input capture_stderr w = (Ok t, w') ->
  w' = w
  /\ exists p,
       popen (files w) ([gcc] ++ l_gcc (heap w) ++ flags ++ [lit "-"]) input
       = Some p
       /\ returncode p = 0%Z
       /\ (if capture_stderr then s_err p else s_out p) = Some t.
Proof.
  intros H.
  destruct (run_gcc_cases popen gcc flags input capture_stderr w)
    as [[p [t0 [Hp [_ [Hrc [Ht E]]]]]]
       |[[e [E _]]|[p [err [_ [_ [_ [_ E]]]]]]]];
    rewrite E in H; inversion H; subst.
  split; [reflexivity|]. exists p. repeat split; assumption.
Qed.

Lemma run_gcc_returns_witness :
  exists p,
    sample_popen no_files
      ([lit "gcc"] ++ GCC_FLAGS_0 ++ [lit "-xc"; lit "-E"; lit "-v"]
       ++ [lit "-"]) empty_file = Some p
    /\ returncode p = 0%Z
    /\ s_err p = Some sample_search_output.
Proof.
  apply (run_gcc_returns sample_popen (lit "gcc")
           [lit "-xc"; lit "-E"; lit "-v"] empty_file true
           (initial_world no_files) (initial_world no_files)
           sample_search_output).
  reflexivity.
Defined.



(** X21. [run_gcc] encodes its input once the command has been started.
    When the command is found and the input holds a surrogate code point
    (U+D800 to U+DFFF), which has no UTF-8 encoding, [run_gcc] ends with
    [UnicodeEncodeError], whatever the command would answer: nothing is
    printed and nothing else changes. *)
Theorem run_gcc_unencodable_input
  (popen : filesystem -> list str -> str -> option completed)
  (gcc : str) (flags : list str) (input : str) (capture_stderr : bool)
  (w : world) (p : completed) (pre post : str) (c : char) :
  popen (files w) ([gcc] ++ l_gcc (heap w) ++ flags ++ [lit "-"]) input
  = Some p ->
  input = pre ++ c :: post ->
  (55296 <= c <= 57343)%N ->
  run_gcc popen gcc flags input capture_stderr w
  = (Raised UnicodeEncodeError, w).
Proof.
  intros Hp Hi Hc. unfold run_gcc. rewrite get_list_bind. cbn [load].
  rewrite Hp. apply encode_fails.
  unfold encodable. rewrite Hi, forallb_app. cbn [forallb].
  assert (Hs : is_surrogate c = true).
  { unfold is_surrogate. apply andb_true_iff. split; apply N.leb_le; lia. }
  rewrite Hs. cbn [negb andb]. apply andb_false_r.
Qed.

Lemma run_gcc_unencodable_input_witness :
  run_gcc sample_popen (lit "i686-w64-mingw32-gcc") [lit "-P"; lit "-E"]
    (lit "#include <d3d" ++ [56448%N] ++ lit ".h>") false
    (initial_world no_files)
  = (Raised UnicodeEncodeError, initial_world no_files).
Proof.
  apply (run_gcc_unencodable_input sample_popen (lit "i686-w64-mingw32-gcc")
           [lit "-P"; lit "-E"]
           (lit "#include <d3d" ++ [56448%N] ++ lit ".h>") false
           (initial_world no_files)
           {| returncode := 0;
              s_out := Some (text [lit "typedef __int128 wide_t;"]);
              s_err := Some [] |}
           (lit "#include <d3d") (lit ".h>") 56448%N).
  - reflexivity.
  - reflexivity.
  - lia.
Defined.

(** X5. However the flattening step fails, the lists are as they were.
    When the header file could be opened (the compiler is not found, the
    name of the header has no UTF-8 encoding, the compiler ends with a
    return code other than 0, or its output is not valid UTF-8), the
    header file is left on disk, closed, holding exactly the prologue.
    When the header file could not be opened, the step ends with the
    error of [open]: no file is created or changed, and the progress
    line is all that was printed. *)
Theorem flatten_header_any_failure
  (popen : filesystem -> list str -> str -> option completed)
  (gcc_cmd a_name a_arch : str) (w : world) (e : exn) :
  fst (flatten_header popen gcc_cmd a_name a_arch w) = Raised e ->
  heap (snd (flatten_header popen gcc_cmd a_name a_arch w)) = heap w
  /\ (unwritable w (header_file a_name a_arch) = false ->
      files (snd (flatten_header popen gcc_cmd a_name a_arch w))
        (header_file a_name a_arch) = Some DEFAULT_SOURCE
      /\ buffers (snd (flatten_header popen gcc_cmd a_name a_arch w))
           (header_file a_name a_arch) = None)
  /\ (unwritable w (header_file a_name a_arch) = true ->
      e = OSError
      /\ files (snd (flatten_header popen gcc_cmd a_name a_arch w)) = files w
      /\ printed (snd (flatten_header popen gcc_cmd a_name a_arch w))
         = printed w ++ [lit "Processing sources..."]).
Proof.
  intros H. split; [|split].
  - symmetry.
    apply (keeps_flatten_header eq eq_lists_refl eq_lists_trans popen).
  - intros Ho. split.
    + destruct (flatten_header_cases popen gcc_cmd a_name a_arch w Ho)
        as [[p [src [_ [_ [_ [_ [E _]]]]]]]|[e' [_ [F _]]]].
      * rewrite E in H. discriminate.
      * exact F.
    + unfold flatten_header. rewrite print_bind.
      apply buffers_with_open, Ho.
  - intros Ho.
    rewrite (flatten_header_locked popen gcc_cmd a_name a_arch w Ho) in H |- *.
    cbn [fst snd] in *. inversion H. repeat split.
Qed.

Lemma flatten_header_any_failure_witness :
  files (snd (flatten_header missing_popen (lit "i686-w64-mingw32-gcc")
                (lit "d3d9") (lit "32") (initial_world no_files)))
    (lit "d3d9_32.h") = Some DEFAULT_SOURCE
  /\ files (snd (flatten_header sample_popen (lit "i686-w64-mingw32-gcc")
                   (lit "sys/types") (lit "32")
                   (locked_world no_files (lit "sys/types_32.h"))))
     = no_files.
Proof.
  split.
  - apply (flatten_header_any_failure missing_popen
             (lit "i686-w64-mingw32-gcc") (lit "d3d9") (lit "32")
             (initial_world no_files) FileNotFoundError);
      reflexivity.
  - apply (flatten_header_any_failure sample_popen
             (lit "i686-w64-mingw32-gcc") (lit "sys/types") (lit "32")
             (locked_world no_files (lit "sys/types_32.h")) OSError);
      reflexivity.
Defined.

(** X6. When the header file can be opened, it starts with the prologue
    after the flattening step, whatever the compiler returns, however the
    step ends and whatever the file held before: after a step that
    fails the file holds the prologue alone, after a step that succeeds
    the prologue followed by the sanitized standard output of a
    preprocessor run that ended with return code 0. *)
Theorem header_file_starts_with_prologue
  (popen : filesystem -> list str -> str -> option completed)
  (gcc_cmd a_name a_arch : str) (w : world) :
  unwritable w (header_file a_name a_arch) = false ->
  exists rest,
    files (snd (flatten_header popen gcc_cmd a_name a_arch w))
      (header_file a_name a_arch) = Some (DEFAULT_SOURCE ++ rest)
    /\ (forall e,
          fst (flatten_header popen gcc_cmd a_name a_arch w) = Raised e ->
          rest = [])
    /\ (fst (flatten_header popen gcc_cmd a_name a_arch w) = Ok tt ->
        exists p src,
          popen (fs_set (header_file a_name a_arch) [] (files w))
            ([gcc_cmd] ++ l_gcc (heap w) ++ [lit "-P"; lit "-E"]
             ++ [lit "-"])
            (lit "#include <" ++ a_name ++ lit ".h>") = Some p
          /\ returncode p = 0%Z
          /\ s_out p = Some src
          /\ rest = process_source src).
Proof.
  intros Ho.
  destruct (flatten_header_cases popen gcc_cmd a_name a_arch w Ho)
    as [[p [src [Hp [_ [Hrc [Hs [E [F _]]]]]]]]|[e [E [F _]]]].
  - exists (process_source src). split; [exact F|]. split.
    + intros e He. rewrite E in He. discriminate.
    + intros _. exists p, src. repeat split; assumption.
  - exists []. rewrite app_nil_r. split; [exact F|]. split.
    + intros; reflexivity.
    + intros He. rewrite E in He. discriminate.
Qed.

Lemma header_file_starts_with_prologue_witness :
  exists rest,
    files (snd (flatten_header sample_popen (lit "x86_64-w64-mingw32-gcc")
                  (lit "d3d9") (lit "64")
                  (initial_world (fs_set (lit "d3d9_64.h") (lit "old text")
                                    no_files))))
      (lit "d3d9_64.h")
    = Some (DEFAULT_SOURCE ++ rest).
Proof.
  destruct (header_file_starts_with_prologue sample_popen
              (lit "x86_64-w64-mingw32-gcc") (lit "d3d9") (lit "64")
              (initial_world (fs_set (lit "d3d9_64.h") (lit "old text")
                                no_files)))
    as [rest [H _]].
  - reflexivity.
  - exists rest. exact H.
Defined.

(** ** A compiler that is not installed *)

Section Missing.

Variable popen : filesystem -> list str -> str -> option completed.



End Missing.



(** ** Lines *)

Lemma forallb_rev {A} (f : A -> bool) (l : list A) :
  forallb f (rev l) = forallb f l.
Proof.
  induction l as [|x l IH]; [reflexivity|].
  cbn [rev forallb]. rewrite forallb_app, IH. cbn [forallb].
  rewrite andb_true_r. apply andb_comm.
Qed.

Lemma one_line_rev s : one_line (rev s) = one_line s.
Proof. apply forallb_rev. Qed.

Lemma one_line_app a b : one_line (a ++ b) = one_line a && one_line b.
Proof. apply forallb_app. Qed.

Lemma one_line_cons c s :
  one_line (c :: s) = negb (is_linebreak c) && one_line s.
Proof. reflexivity. Qed.

Lemma splitlines_from_one_line n :
  forall s cur,
    length s <= n -> one_line cur = true ->
    forallb one_line (splitlines_from s cur) = true.
Proof.
  induction n as [|n IH]; intros s cur Hn Hc.
  - destruct s; [|cbn [length] in Hn; lia].
    cbn [splitlines_from]. destruct cur; [reflexivity|].
    cbn [forallb]. rewrite one_line_rev, Hc. reflexivity.
  - destruct s as [|c s'].
    + cbn [splitlines_from]. destruct cur; [reflexivity|].
      cbn [forallb]. rewrite one_line_rev, Hc. reflexivity.
    + cbn [length] in Hn. cbn [splitlines_from].
      destruct (is_linebreak c) eqn:E.
      * cbn [forallb]. rewrite one_line_rev, Hc. cbn [andb].
        destruct (N.eqb c 13).
        -- destruct s' as [|d s''].
           ++ reflexivity.
           ++ cbn [length] in Hn.
              destruct (N.eqb d 10); apply IH; cbn [length];
                try lia; reflexivity.
        -- apply IH; [lia|reflexivity].
      * apply IH; [lia|]. rewrite one_line_cons, E, Hc. reflexivity.
Qed.

(** No line of [splitlines] holds a line boundary. *)
Lemma splitlines_one_line s : forallb one_line (splitlines s) = true.
Proof.
  apply (splitlines_from_one_line (length s)); [lia|reflexivity].
Qed.

Lemma splitlines_from_line l rest cur :
  one_line l = true ->
  splitlines_from (l ++ nl :: rest) cur
  = (rev cur ++ l) :: splitlines_from rest [].
Proof.
  revert cur. induction l as [|c l IH]; intros cur Hl.
  - cbn [app]. rewrite app_nil_r. reflexivity.
  - rewrite one_line_cons in Hl. apply andb_true_iff in Hl.
    destruct Hl as [Hc Hl]. apply negb_true_iff in Hc.
    cbn [app splitlines_from]. rewrite Hc, (IH (c :: cur) Hl).
    cbn [rev]. rewrite <- app_assoc. reflexivity.
Qed.

(** A text written one line at a time is read back as those lines. *)
Lemma splitlines_text ls :
  forallb one_line ls = true -> splitlines (text ls) = ls.
Proof.
  induction ls as [|l ls IH]; intros H; [reflexivity|].
  cbn [forallb] in H. apply andb_true_iff in H. destruct H as [Hl Hls].
  unfold splitlines, text. cbn [map concat].
  rewrite <- app_assoc. cbn [app].
  rewrite (splitlines_from_line l _ [] Hl). cbn [rev app].
  f_equal. apply IH, Hls.
Qed.

(** *** [strip] *)

Lemma lstrip_suffix s : exists ws, s = ws ++ lstrip s.
Proof.
  induction s as [|c s [ws IH]].
  - exists []. reflexivity.
  - cbn [lstrip]. destruct (is_space c).
    + exists (c :: ws). cbn [app]. f_equal. exact IH.
    + exists []. reflexivity.
Qed.

Lemma lstrip_head s c r : lstrip s = c :: r -> is_space c = false.
Proof.
  induction s as [|x s IH]; cbn [lstrip]; [discriminate|].
  destruct (is_space x) eqn:E; [exact IH|].
  intros H. inversion H. subst. exact E.
Qed.

Lemma lstrip_forallb (f : char -> bool) s :
  forallb f s = true -> forallb f (lstrip s) = true.
Proof.
  intros H. destruct (lstrip_suffix s) as [ws E].
  rewrite E, forallb_app in H. apply andb_true_iff in H. apply H.
Qed.

Lemma strip_forallb (f : char -> bool) s :
  forallb f s = true -> forallb f (strip s) = true.
Proof.
  intros H. unfold strip. rewrite forallb_rev. apply lstrip_forallb.
  rewrite forallb_rev. apply lstrip_forallb, H.
Qed.

(** What [strip] returns neither starts nor ends with a character it
    removes. *)
Lemma strip_trimmed s : trimmed (strip s) = true.
Proof.
  unfold strip.
  destruct (lstrip (rev (lstrip s))) as [|c u] eqn:Eu; [reflexivity|].
  pose proof (lstrip_head _ _ _ Eu) as Hc.
  destruct (lstrip_suffix (rev (lstrip s))) as [ws Ews].
  rewrite Eu in Ews.
  assert (Et : lstrip s = (rev u ++ [c]) ++ rev ws).
  { rewrite <- (rev_involutive (lstrip s)), Ews, rev_app_distr.
    reflexivity. }
  cbn [rev].
  destruct (rev u) as [|x r] eqn:Er.
  - cbn [app trimmed last]. rewrite Hc. reflexivity.
  - cbn [app] in Et. pose proof (lstrip_head _ _ _ Et) as Hx.
    cbn [app trimmed]. rewrite Hx.
    change (x :: r ++ [c]) with ((x :: r) ++ [c]).
    rewrite last_last, Hc. reflexivity.
Qed.

(** ** What a match is made of *)

Lemma lookup_In n (o : captures) t : lookup n o = Some t -> In (n, t) o.
Proof.
  induction o as [|[h v] o IH]; cbn [lookup]; [discriminate|].
  destruct (Nat.eqb n h) eqn:E.
  - apply Nat.eqb_eq in E. intros H. inversion H. subst. left. reflexivity.
  - intros H. right. apply IH, H.
Qed.

Lemma forallb_firstn {A} (f : A -> bool) n (l : list A) :
  forallb f l = true -> forallb f (firstn n l) = true.
Proof.
  intros H. rewrite <- (firstn_skipn n l), forallb_app in H.
  apply andb_true_iff in H. apply H.
Qed.

Lemma forallb_skipn {A} (f : A -> bool) n (l : list A) :
  forallb f l = true -> forallb f (skipn n l) = true.
Proof.
  intros H. rewrite <- (firstn_skipn n l), forallb_app in H.
  apply andb_true_iff in H. apply H.
Qed.

(** The text a match leaves and the groups it captures are made of
    characters of the subject. *)
Lemma match_here_forallb (P : char -> bool) re :
  forall s o g rest g',
    forallb P s = true ->
    (forall n t, In (n, t) o -> forallb P t = true) ->
    (forall n t, In (n, t) g -> forallb P t = true) ->
    match_here re s o g = Some (rest, g') ->
    forallb P rest = true
    /\ (forall n t, In (n, t) g' -> forallb P t = true).
Proof.
  induction re as [|i re IH]; intros s o g rest g' Hs Ho Hg H.
  - cbn [match_here] in H. inversion H. subst. split; assumption.
  - destruct i as [c|c|n|n].
    + rewrite match_here_one in H. destruct s as [|x s']; [discriminate|].
      destruct (accepts c x); [|discriminate].
      cbn [forallb] in Hs. apply andb_true_iff in Hs.
      apply (IH s' o g); [apply Hs|assumption..].
    + induction s as [|x s' IHs].
      * rewrite match_here_many_nil in H. apply (IH [] o g); assumption.
      * rewrite match_here_many_cons in H.
        pose proof Hs as Hs'. cbn [forallb] in Hs'.
        apply andb_true_iff in Hs'.
        destruct (accepts c x).
        -- destruct (match_here (Many c :: re) s' o g) as [r|] eqn:E.
           ++ inversion H. subst r. apply IHs; [apply Hs'|reflexivity].
           ++ apply (IH (x :: s') o g); assumption.
        -- apply (IH (x :: s') o g); assumption.
    + rewrite match_here_open in H.
      apply (IH s ((n, s) :: o) g); try assumption.
      intros n' t [E|Hin]; [inversion E; subst; exact Hs|].
      apply (Ho n' t Hin).
    + rewrite match_here_close in H.
      destruct (lookup n o) as [s0|] eqn:El; [|discriminate].
      apply (IH s o ((n, firstn (length s0 - length s) s0) :: g));
        try assumption.
      intros n' t [E|Hin]; [|apply (Hg n' t Hin)].
      inversion E. subst n' t. apply forallb_firstn.
      apply (Ho n s0), lookup_In, El.
Qed.

Lemma search_from_inv re s :
  forall i m,
    search_from re s i = Some m ->
    exists pre s',
      s = pre ++ s'
      /\ m_start m = i + length pre
      /\ match_here re s' [] [] = Some (m_rest m, m_groups m)
      /\ m_text m = firstn (length s' - length (m_rest m)) s'.
Proof.
  induction s as [|c s IH]; intros i m H.
  - cbn [search_from] in H.
    destruct (match_here re [] [] []) as [[rest gs]|] eqn:E; [|discriminate].
    inversion H. subst m. exists [], []. cbn [m_start m_rest m_groups m_text].
    repeat split; [cbn [length]; lia|exact E].
  - cbn [search_from] in H.
    destruct (match_here re (c :: s) [] []) as [[rest gs]|] eqn:E.
    + inversion H. subst m. exists [], (c :: s).
      cbn [m_start m_rest m_groups m_text app].
      repeat split; [cbn [length]; lia|exact E].
    + destruct (IH (S i) m H) as [pre [s' [Es [Hst [Hm Ht]]]]].
      exists (c :: pre), s'. subst s. cbn [app length].
      repeat split; [lia|exact Hm|exact Ht].
Qed.

Lemma search_groups_forallb (P : char -> bool) re s m :
  forallb P s = true ->
  search re s = Some m ->
  forall n t, In (n, t) (m_groups m) -> forallb P t = true.
Proof.
  intros Hs H. unfold search in H.
  destruct (search_from_inv re s 0 m H) as [pre [s' [Es [_ [Hm _]]]]].
  subst s. rewrite forallb_app in Hs. apply andb_true_iff in Hs.
  destruct Hs as [_ Hs'].
  apply (match_here_forallb P re s' [] [] (m_rest m) (m_groups m) Hs');
    [intros n t []|intros n t []|exact Hm].
Qed.

Lemma fmt_group_forallb (P : char -> bool) pattern s m g :
  forallb P (lit "None") = true ->
  forallb P s = true ->
  re_search pattern s = Some m ->
  forallb P (fmt_group m g) = true.
Proof.
  intros Hn Hs H. unfold re_search in H.
  destruct (re_compile pattern) as [re|]; [|discriminate].
  unfold fmt_group, group.
  destruct (lookup g (m_groups m)) as [t|] eqn:E; [|exact Hn].
  apply (search_groups_forallb P re s m Hs H g t), lookup_In, E.
Qed.

Lemma one_line_flag name value :
  one_line name = true -> one_line value = true ->
  one_line (lit "-D" ++ name ++ lit "=" ++ quoted value) = true.
Proof.
  intros Hn Hv. unfold quoted.
  change (dq :: value ++ [dq]) with ([dq] ++ value ++ [dq]).
  rewrite !one_line_app, Hn, Hv. reflexivity.
Qed.

(** The flag made from a line without line boundaries has none. *)
Lemma define_flag_of_one_line line d :
  one_line line = true -> define_flag_of line = Some d -> one_line d = true.
Proof.
  intros Hl H. unfold define_flag_of in H.
  destruct (re_search define_pattern line) as [m|] eqn:E; [|discriminate].
  injection H as <-. apply one_line_flag.
  - apply (fmt_group_forallb (fun c => negb (is_linebreak c)) define_pattern
             line m 1 eq_refl Hl E).
  - apply (fmt_group_forallb (fun c => negb (is_linebreak c)) define_pattern
             line m 2 eq_refl Hl E).
Qed.

Lemma define_flag_eq opts line :
  define_flag opts line
  = match define_flag_of line with
    | Some d => extend opts [d]
    | None => raise TypeError
    end.
Proof.
  unfold define_flag, define_flag_of.
  destruct (re_search define_pattern line); reflexivity.
Qed.

(** ** The outcomes of option generation *)

Lemma write_loop f all :
  forall w b,
    buffers w f = Some b ->
    exists w',
      for_each all (fun opt => write f (opt ++ [nl])) w = (Ok tt, w')
      /\ buffers w' f = Some (b ++ text all)
      /\ files w' = files w
      /\ printed w' = printed w
      /\ heap w' = heap w.
Proof.
  induction all as [|x all IH]; intros w b Hb.
  - exists w. cbn [for_each ret text map concat]. rewrite app_nil_r.
    repeat split. exact Hb.
  - cbn [for_each]. rewrite (write_bind f (x ++ [nl]) _ w b Hb).
    destruct (IH (with_buffers w (fs_set f (b ++ x ++ [nl]) (buffers w)))
                (b ++ x ++ [nl]))
      as [w' [E [B [F [P H]]]]]; [apply fs_set_same|].
    exists w'. split; [exact E|]. split; [|repeat split; assumption].
    rewrite B. unfold text. cbn [map concat].
    rewrite <- !app_assoc. reflexivity.
Qed.

Lemma define_loop lines :
  forall w,
    exists r w' ds,
      for_each lines (define_flag MINGW_OPTIONS) w = (r, w')
      /\ (r = Ok tt \/ r = Raised TypeError)
      /\ files w' = files w
      /\ buffers w' = buffers w
      /\ printed w' = printed w
      /\ l_mingw (heap w') = l_mingw (heap w) ++ ds
      /\ l_default32 (heap w') = l_default32 (heap w)
      /\ l_default64 (heap w') = l_default64 (heap w)
      /\ l_gcc (heap w') = l_gcc (heap w)
      /\ (forallb one_line lines = true -> forallb one_line ds = true)
      /\ (r = Ok tt -> map define_flag_of lines = map Some ds)
      /\ (r = Raised TypeError ->
          exists line, In line lines /\ define_flag_of line = None).
Proof.
  induction lines as [|l lines IH]; intros w.
  - exists (Ok tt), w, []. cbn [for_each ret]. rewrite app_nil_r.
    repeat split; try discriminate. left. reflexivity.
  - cbn [for_each]. rewrite define_flag_eq.
    destruct (define_flag_of l) as [d|] eqn:Ed.
    + rewrite extend_bind.
      destruct (IH (with_heap w
                      (store MINGW_OPTIONS
                         (load MINGW_OPTIONS (heap w) ++ [d]) (heap w))))
        as [r [w' [ds [E [Hr [F [B [P [Hm [H32 [H64 [Hg [Hl [Hd Hn]]]]]]]]]]]]]].
      exists r, w', (d :: ds). split; [exact E|].
      split; [exact Hr|].
      cbn [files buffers printed heap with_heap store load l_mingw
           l_default32 l_default64 l_gcc] in *.
      repeat split; try assumption.
      * rewrite Hm, <- app_assoc. reflexivity.
      * intros H. cbn [forallb] in *. apply andb_true_iff in H.
        destruct H as [H1 H2].
        rewrite (define_flag_of_one_line l d H1 Ed), (Hl H2). reflexivity.
      * intros H. cbn [map]. rewrite Ed, (Hd H). reflexivity.
      * intros H. destruct (Hn H) as [line [Hin Hnone]].
        exists line. split; [right; exact Hin|exact Hnone].
    + exists (Raised TypeError), w, [].
      rewrite (bind_raised (raise TypeError) _ w TypeError w eq_refl).
      rewrite app_nil_r. repeat split; try discriminate.
      * right. reflexivity.
      * intros _. exists l. split; [left; reflexivity|exact Ed].
Qed.

Lemma one_line_include_flags lines incs w w' :
  forallb one_line lines = true ->
  include_flags lines w = (Ok incs, w') ->
  forallb one_line incs = true.
Proof.
  intros Hl H. unfold include_flags in H.
  destruct (index search_starts lines) as [i|]; [|discriminate].
  destruct (index search_ends lines) as [j|]; [|discriminate].
  inversion H. subst. unfold slice.
  apply forallb_forall. intros flag Hin.
  apply in_map_iff in Hin. destruct Hin as [inc [<- Hin]].
  change (one_line (lit "-I" ++ strip inc) = true).
  rewrite one_line_app.
  change (one_line (lit "-I")) with true. cbn [andb].
  apply strip_forallb.
  assert (Hs : forallb one_line (firstn (j - (i + 1)) (skipn (i + 1) lines))
               = true) by apply forallb_firstn, forallb_skipn, Hl.
  rewrite forallb_forall in Hs. apply (Hs inc Hin).
Qed.

Section OptionOutcomes.

Variable popen : filesystem -> list str -> str -> option completed.

Lemma tidy_default a_arch h :
  tidy h = true -> forallb one_line (load (default_options a_arch) h) = true.
Proof.
  unfold tidy. intros H. apply andb_true_iff in H. destruct H as [H H64].
  apply andb_true_iff in H. destruct H as [_ H32].
  unfold default_options. destruct (str_eqb a_arch (lit "x64")); assumption.
Qed.

(** The two ways option generation ends once the options file is open. *)
Lemma generate_options_cases gcc_cmd a_name a_arch w :
  unwritable w (options_file a_name a_arch) = false ->
  (fst (generate_options popen gcc_cmd a_name a_arch w) = Ok tt
   /\ files (snd (generate_options popen gcc_cmd a_name a_arch w))
        (options_file a_name a_arch)
      = Some (text (l_mingw
                      (heap (snd (generate_options popen gcc_cmd a_name
                                    a_arch w)))))
   /\ (tidy (heap w) = true ->
       forallb one_line
         (l_mingw (heap (snd (generate_options popen gcc_cmd a_name a_arch
                                w)))) = true))
  \/ (exists e,
        fst (generate_options popen gcc_cmd a_name a_arch w) = Raised e
        /\ exit_status (Raised e) = 1%Z
        /\ files (snd (generate_options popen gcc_cmd a_name a_arch w))
             (options_file a_name a_arch) = Some []).
Proof.
  intros Hopen.
  unfold generate_options. rewrite print_bind, with_open_eq by exact Hopen.
  set (o := options_file a_name a_arch).
  set (w1 := opened o (says w (lit "Generating parser options..."))).
  cbn [fst snd]. rewrite heap_closed.
  match goal with |- context [closed o (snd ?b)] => set (B := b) end.
  assert (Hc : content (files w1) o = []) by apply content_fs_set.
  assert (HB :
    (fst B = Ok tt
     /\ buffers (snd B) o = Some (text (l_mingw (heap (snd B))))
     /\ files (snd B) = files w1
     /\ (tidy (heap w) = true ->
         forallb one_line (l_mingw (heap (snd B))) = true))
    \/ (exists e,
          fst B = Raised e /\ exit_status (Raised e) = 1%Z
          /\ files (snd B) = files w1 /\ buffers (snd B) o = Some [])).
  { unfold B. rewrite get_list_bind, extend_bind.
    set (w2 := with_heap w1 _).
    assert (Hb2 : buffers w2 o = Some []) by apply fs_set_same.
    destruct (run_gcc_cases popen gcc_cmd [lit "-xc"; lit "-E"; lit "-v"]
                (lit " /* :) */ ") true w2)
      as [[p1 [err [_ [_ [_ [_ E]]]]]]
         |[[e [E He]]|[p1 [msg [_ [_ [_ [_ E]]]]]]]].
    2:{ right. exists e. rewrite (bind_raised _ _ _ _ _ E). cbn [fst snd].
        split; [reflexivity|]. split; [|split; [reflexivity|exact Hb2]].
        destruct He as [[-> _]|[[-> _]| ->]]; reflexivity. }
    2:{ right. exists (SystemExit 1). rewrite (bind_raised _ _ _ _ _ E).
        cbn [fst snd]. repeat split. exact Hb2. }
    rewrite (bind_ok _ _ _ _ _ E).
    destruct (include_flags (splitlines err) w2) as [[incs|e] w2'] eqn:Ei.
    2:{ right. exists e. rewrite (bind_raised _ _ _ _ _ Ei). cbn [fst snd].
        unfold include_flags in Ei.
        destruct (index search_starts (splitlines err));
          [destruct (index search_ends (splitlines err))|];
          inversion Ei; subst; repeat split; exact Hb2. }
    assert (w2' = w2).
    { unfold include_flags in Ei.
      destruct (index search_starts (splitlines err));
        [destruct (index search_ends (splitlines err))|];
        inversion Ei; reflexivity. }
    subst w2'.
    pose proof (one_line_include_flags _ _ _ _ (splitlines_one_line err) Ei)
      as Hincs.
    rewrite (bind_ok _ _ _ _ _ Ei), extend_bind.
    set (w3 := with_heap w2 _).
    assert (Hb3 : buffers w3 o = Some []) by apply fs_set_same.
    destruct (run_gcc_cases popen gcc_cmd [lit "-dM"; lit "-E"]
                (lit " /* :) */ ") false w3)
      as [[p2 [out [_ [_ [_ [_ E2]]]]]]
         |[[e [E2 He]]|[p2 [msg [_ [_ [_ [_ E2]]]]]]]].
    2:{ right. exists e. rewrite (bind_raised _ _ _ _ _ E2). cbn [fst snd].
        split; [reflexivity|]. split; [|split; [reflexivity|exact Hb3]].
        destruct He as [[-> _]|[[-> _]| ->]]; reflexivity. }
    2:{ right. exists (SystemExit 1). rewrite (bind_raised _ _ _ _ _ E2).
        cbn [fst snd]. repeat split. exact Hb3. }
    rewrite (bind_ok _ _ _ _ _ E2).
    destruct (define_loop (splitlines out) w3)
      as [r [w4 [ds [E4 [Hr [F4 [B4 [_ [Hm [_ [_ [_ [Hl _]]]]]]]]]]]]].
    destruct Hr as [-> | ->].
    - rewrite (bind_ok _ _ _ _ _ E4), get_list_bind. cbn [load].
      destruct (write_loop o (l_mingw (heap w4)) w4 [])
        as [w5 [E5 [B5 [F5 [_ H5]]]]].
      { rewrite B4. exact Hb3. }
      rewrite E5. cbn [fst snd]. left. rewrite H5.
      split; [reflexivity|]. split; [exact B5|].
      split; [rewrite F5, F4; reflexivity|].
      intros Ht. rewrite Hm, forallb_app.
      rewrite (Hl (splitlines_one_line out)), andb_true_r.
      cbn [w3 w2 w1 heap with_heap store l_mingw opened says with_buffers
           with_files].
      change (load MINGW_OPTIONS) with l_mingw.
      cbn [w3 w2 w1 heap with_heap store l_mingw opened says with_buffers
           with_files].
      rewrite !forallb_app, Hincs, (tidy_default a_arch _ Ht).
      unfold tidy in Ht. apply andb_true_iff in Ht. destruct Ht as [Ht _].
      apply andb_true_iff in Ht. destruct Ht as [Ht _].
      rewrite Ht. reflexivity.
    - right. exists TypeError. rewrite (bind_raised _ _ _ _ _ E4).
      cbn [fst snd]. repeat split; [rewrite F4; reflexivity|].
      rewrite B4. exact Hb3. }
  destruct HB as [[H1 [H2 [H3 H4]]]|[e [H1 [H2 [H3 H4]]]]].
  - left. split; [exact H1|]. split; [|exact H4].
    rewrite (files_closed _ _ _ H2), H3, Hc. reflexivity.
  - right. exists e. split; [exact H1|]. split; [exact H2|].
    rewrite (files_closed _ _ _ H4), H3, Hc. reflexivity.
Qed.

End OptionOutcomes.

(** X8. Option generation writes the options file in its last loop only.
    When the options file could be opened, then however the step fails (a
    compiler run fails, the search list has no marker, a line of the
    macro dump does not match), the options file is left on disk, closed
    and empty.  When the options file could not be opened, the step ends
    with the error of [open]: no file is created or changed, and no list
    is extended. *)
Theorem options_file_after_failure
  (popen : filesystem -> list str -> str -> option completed)
  (gcc_cmd a_name a_arch : str) (w : world) (e : exn) :
  fst (generate_options popen gcc_cmd a_name a_arch w) = Raised e ->
  (unwritable w (options_file a_name a_arch) = false ->
   files (snd (generate_options popen gcc_cmd a_name a_arch w))
     (options_file a_name a_arch) = Some []
   /\ buffers (snd (generate_options popen gcc_cmd a_name a_arch w))
        (options_file a_name a_arch) = None)
  /\ (unwritable w (options_file a_name a_arch) = true ->
      e = OSError
      /\ files (snd (generate_options popen gcc_cmd a_name a_arch w))
         = files w
      /\ heap (snd (generate_options popen gcc_cmd a_name a_arch w))
         = heap w).
Proof.
  intros H. split.
  - intros Ho. split.
    + destruct (generate_options_cases popen gcc_cmd a_name a_arch w Ho)
        as [[E _]|[e' [_ [_ F]]]].
      * rewrite E in H. discriminate.
      * exact F.
    + unfold generate_options. rewrite print_bind.
      apply buffers_with_open, Ho.
  - intros Ho.
    rewrite (generate_options_locked popen gcc_cmd a_name a_arch w Ho)
      in H |- *.
    cbn [fst snd] in *. inversion H. repeat split.
Qed.

Lemma options_file_after_failure_witness :
  files (snd (generate_options odd_dump_popen (lit "i686-w64-mingw32-gcc")
                (lit "d3d9") (lit "32") (initial_world no_files)))
    (lit "d3d9_32_parser_options.txt") = Some []
  /\ files (snd (generate_options sample_popen (lit "i686-w64-mingw32-gcc")
                   (lit "sys/types") (lit "32")
                   (locked_world no_files
                      (lit "sys/types_32_parser_options.txt"))))
     = no_files.
Proof.
  split.
  - apply (options_file_after_failure odd_dump_popen
             (lit "i686-w64-mingw32-gcc") (lit "d3d9") (lit "32")
             (initial_world no_files) TypeError);
      reflexivity.
  - apply (options_file_after_failure sample_popen
             (lit "i686-w64-mingw32-gcc") (lit "sys/types") (lit "32")
             (locked_world no_files (lit "sys/types_32_parser_options.txt"))
             OSError);
      reflexivity.
Defined.

Lemma options_file_after_success_aux
  (popen : filesystem -> list str -> str -> option completed)
  (gcc_cmd a_name a_arch : str) (w : world) :
  fst (generate_options popen gcc_cmd a_name a_arch w) = Ok tt ->
  unwritable w (options_file a_name a_arch) = false
  /\ files (snd (generate_options popen gcc_cmd a_name a_arch w))
       (options_file a_name a_arch)
     = Some (text (l_mingw (heap (snd (generate_options popen gcc_cmd a_name
                                         a_arch w))))).
Proof.
  intros H.
  destruct (unwritable w (options_file a_name a_arch)) eqn:Ho.
  - rewrite (generate_options_locked popen gcc_cmd a_name a_arch w Ho) in H.
    discriminate.
  - split; [reflexivity|].
    destruct (generate_options_cases popen gcc_cmd a_name a_arch w Ho)
      as [[_ [F _]]|[e [E _]]].
    + exact F.
    + rewrite E in H. discriminate.
Qed.

(** X9. When option generation succeeds, the options file holds the flags
    of [MINGW_OPTIONS] as the list is at the end of the step, in order,
    each followed by a newline, and nothing else. *)
Theorem options_file_after_success
  (popen : filesystem -> list str -> str -> option completed)
  (gcc_cmd a_name a_arch : str) (w : world) :
  fst (generate_options popen gcc_cmd a_name a_arch w) = Ok tt ->
  files (snd (generate_options popen gcc_cmd a_name a_arch w))
    (options_file a_name a_arch)
  = Some (text (l_mingw (heap (snd (generate_options popen gcc_cmd a_name
                                      a_arch w))))).
Proof.
  intros H. apply options_file_after_success_aux, H.
Qed.

Lemma options_file_after_success_witness :
  files (snd (generate_options sample_popen (lit "i686-w64-mingw32-gcc")
                (lit "d3d9") (lit "32") (initial_world no_files)))
    (lit "d3d9_32_parser_options.txt")
  = Some (text (l_mingw
                  (heap (snd (generate_options sample_popen
                                (lit "i686-w64-mingw32-gcc") (lit "d3d9")
                                (lit "32") (initial_world no_files)))))).
Proof.
  apply (options_file_after_success sample_popen (lit "i686-w64-mingw32-gcc")
           (lit "d3d9") (lit "32") (initial_world no_files)).
  reflexivity.
Defined.

(** Every exception the two steps end with gives the process status 1. *)
Lemma flatten_header_status
  (popen : filesystem -> list str -> str -> option completed)
  (gcc_cmd a_name a_arch : str) (w : world) (e : exn) :
  fst (flatten_header popen gcc_cmd a_name a_arch w) = Raised e ->
  exit_status (Raised e) = 1%Z.
Proof.
  intros H. destruct (unwritable w (header_file a_name a_arch)) eqn:Ho.
  - rewrite (flatten_header_locked popen gcc_cmd a_name a_arch w Ho) in H.
    inversion H. reflexivity.
  - destruct (flatten_header_cases popen gcc_cmd a_name a_arch w Ho)
      as [[p [src [_ [_ [_ [_ [E _]]]]]]]|[e' [E [_ He]]]];
      rewrite E in H; inversion H. subst e'. exact He.
Qed.

Lemma generate_options_status
  (popen : filesystem -> list str -> str -> option completed)
  (gcc_cmd a_name a_arch : str) (w : world) (e : exn) :
  fst (generate_options popen gcc_cmd a_name a_arch w) = Raised e ->
  exit_status (Raised e) = 1%Z.
Proof.
  intros H. destruct (unwritable w (options_file a_name a_arch)) eqn:Ho.
  - rewrite (generate_options_locked popen gcc_cmd a_name a_arch w Ho) in H.
    inversion H. reflexivity.
  - destruct (generate_options_cases popen gcc_cmd a_name a_arch w Ho)
      as [[E _]|[e' [E [He _]]]];
      rewrite E in H; inversion H. subst e'. exact He.
Qed.

(** X10. The process status of the script is 0 or 1 and nothing else: it
    is 0 when both steps ran to their end, and 1 for every other run,
    whether the script called [exit(1)] or an exception went unhandled. *)
Theorem main_exit_status
  (popen : filesystem -> list str -> str -> option completed)
  (argv : list str) (w : world) :
  fst (main popen argv w) = Ok tt
  /\ exit_status (fst (main popen argv w)) = 0%Z
  \/ (exists e, fst (main popen argv w) = Raised e)
     /\ exit_status (fst (main popen argv w)) = 1%Z.
Proof.
  unfold main.
  destruct argv as [|prog [|a_name [|a_arch [|x argv]]]];
    try (right; split; [eexists|]; reflexivity).
  destruct (negb (str_eqb a_arch (lit "32"))
            && negb (str_eqb a_arch (lit "64")));
    [right; split; [eexists|]; reflexivity|].
  rewrite print_bind. unfold bind.
  match goal with |- context [flatten_header popen ?c ?n ?a ?w0] =>
    pose proof (flatten_header_status popen c n a w0) as Hf;
    destruct (flatten_header popen c n a w0) as [[[]|e] w1]
  end; cbn [fst] in Hf.
  - pose proof (generate_options_status popen (gcc_cmd_of a_arch) a_name
                  a_arch w1) as Hg.
    destruct (generate_options popen (gcc_cmd_of a_arch) a_name a_arch w1)
      as [[[]|e] w2]; cbn [fst] in *.
    + left. split; reflexivity.
    + right. split; [exists e; reflexivity|apply Hg; reflexivity].
  - right. split; [exists e; reflexivity|apply Hf; reflexivity].
Qed.

(** X11. No flag the script generates holds a line boundary, so the
    options file of a successful run has one flag on each line: read back
    with [splitlines], the file gives the flag list [MINGW_OPTIONS] as it
    is at the end of the run.  The flags the lists hold at the start must
    be free of line boundaries, as those of the source are. *)
Theorem options_file_reads_back
  (popen : filesystem -> list str -> str -> option completed)
  (prog a_name a_arch : str) (w : world) :
  tidy (heap w) = true ->
  fst (main popen [prog; a_name; a_arch] w) = Ok tt ->
  splitlines (content (files (snd (main popen [prog; a_name; a_arch] w)))
                (options_file a_name a_arch))
  = l_mingw (heap (snd (main popen [prog; a_name; a_arch] w))).
Proof.
  intros Ht. unfold main.
  destruct (negb (str_eqb a_arch (lit "32"))
            && negb (str_eqb a_arch (lit "64"))); [discriminate|].
  rewrite print_bind. unfold bind.
  match goal with |- context [flatten_header popen ?c ?n ?a ?w0] =>
    pose proof (keeps_flatten_header eq eq_lists_refl eq_lists_trans popen
                  c n a w0) as Hh;
    destruct (flatten_header popen c n a w0) as [[u|e] w1]
  end; [|discriminate].
  cbn [snd heap says] in Hh. rewrite Hh in Ht.
  intros H.
  destruct (options_file_after_success_aux popen (gcc_cmd_of a_arch) a_name
              a_arch w1 H) as [Ho F].
  destruct (generate_options_cases popen (gcc_cmd_of a_arch) a_name a_arch w1
              Ho)
    as [[_ [_ Hl]]|[e [E _]]]; [|rewrite E in H; discriminate].
  unfold content. rewrite F. apply splitlines_text, Hl, Ht.
Qed.

Lemma options_file_reads_back_witness :
  splitlines (content (files (snd (main sample_popen (sample_argv "32")
                                     (initial_world no_files))))
                (options_file (lit "d3d9") (lit "32")))
  = l_mingw (heap (snd (main sample_popen (sample_argv "32")
                          (initial_world no_files)))).
Proof.
  apply (options_file_reads_back sample_popen (lit "generate.py")
           (lit "d3d9") (lit "32") (initial_world no_files)).
  - reflexivity.
  - reflexivity.
Defined.

(** ** A run that succeeds *)

Lemma map_some_inj {A} (a b : list A) : map Some a = map Some b -> a = b.
Proof.
  revert b. induction a as [|x a IH]; intros [|y b] H;
    try discriminate; [reflexivity|].
  cbn [map] in H. inversion H. f_equal. apply IH. assumption.
Qed.

Lemma map_some_in {A B} (f : A -> option B) (l : list A) (ds : list B) x :
  map f l = map Some ds -> In x l -> f x <> None.
Proof.
  revert ds. induction l as [|y l IH]; intros [|d ds] H Hin;
    try discriminate; [destruct Hin|].
  cbn [map] in H. inversion H as [[Hy Hl]].
  destruct Hin as [->|Hin]; [congruence|]. apply (IH ds Hl Hin).
Qed.

Lemma unwritable_closed f w : unwritable (closed f w) = unwritable w.
Proof. unfold closed. destruct (buffers w f); reflexivity. Qed.

Section Success.

Variable popen : filesystem -> list str -> str -> option completed.

(** No step changes which paths can be opened. *)
Lemma unwritable_flatten_header gcc_cmd a_name a_arch w :
  unwritable (snd (flatten_header popen gcc_cmd a_name a_arch w))
  = unwritable w.
Proof.
  destruct (unwritable w (header_file a_name a_arch)) eqn:Ho.
  - rewrite (flatten_header_locked popen _ _ _ _ Ho). reflexivity.
  - rewrite (flatten_header_unfold popen _ _ _ _ Ho), finally_close.
    cbn [snd]. rewrite unwritable_closed.
    set (w1 := with_buffers _ _).
    destruct (run_gcc_cases popen gcc_cmd [lit "-P"; lit "-E"]
                (include_line a_name) false w1)
      as [[p [t [_ [_ [_ [_ E]]]]]]
         |[[e [E _]]|[p [err [_ [_ [_ [_ E]]]]]]]].
    + rewrite (bind_ok _ _ _ _ _ E).
      rewrite (write_ok _ _ _ DEFAULT_SOURCE) by apply fs_set_same.
      reflexivity.
    + rewrite (bind_raised _ _ _ _ _ E). reflexivity.
    + rewrite (bind_raised _ _ _ _ _ E). reflexivity.
Qed.

Lemma flatten_header_success gcc_cmd a_name a_arch w p src :
  unwritable w (header_file a_name a_arch) = false ->
  encodable a_name = true ->
  popen (fs_set (header_file a_name a_arch) [] (files w))
    (flatten_args gcc_cmd (l_gcc (heap w))) (include_line a_name) = Some p ->
  returncode p = 0%Z ->
  s_out p = Some src ->
  fst (flatten_header popen gcc_cmd a_name a_arch w) = Ok tt
  /\ printed (snd (flatten_header popen gcc_cmd a_name a_arch w))
     = printed w ++ [flatten_message]
  /\ files (snd (flatten_header popen gcc_cmd a_name a_arch w))
       (header_file a_name a_arch)
     = Some (DEFAULT_SOURCE ++ process_source src)
  /\ heap (snd (flatten_header popen gcc_cmd a_name a_arch w)) = heap w.
Proof.
  intros Ho Henc Hp Hrc Hs.
  pose proof (keeps_flatten_header eq eq_lists_refl eq_lists_trans popen
                gcc_cmd a_name a_arch w) as Hh.
  destruct (flatten_header_cases popen gcc_cmd a_name a_arch w Ho)
    as [[p' [src' [Hp' [_ [_ [Hs' [E [F P]]]]]]]]|[e [E _]]].
  - rewrite Hp in Hp'. inversion Hp'. subst p'.
    rewrite Hs in Hs'. inversion Hs'. subst src'.
    repeat split; try assumption. symmetry. exact Hh.
  - exfalso. revert E.
    rewrite (flatten_header_unfold popen _ _ _ _ Ho), finally_close.
    erewrite bind_ok
      by (apply (run_gcc_ok popen _ _ _ false _ p src);
          [unfold include_line; rewrite encodable_include; exact Henc
          |exact Hp|exact Hrc|exact Hs]).
    erewrite write_ok by apply fs_set_same. discriminate.
Qed.

Lemma generate_options_success gcc_cmd a_name a_arch w p1 err incs p2 out
  defs :
  unwritable w (options_file a_name a_arch) = false ->
  popen (fs_set (options_file a_name a_arch) [] (files w))
    (search_args gcc_cmd (l_gcc (heap w))) empty_file = Some p1 ->
  returncode p1 = 0%Z ->
  s_err p1 = Some err ->
  (forall w0, include_flags (splitlines err) w0 = (Ok incs, w0)) ->
  popen (fs_set (options_file a_name a_arch) [] (files w))
    (dump_args gcc_cmd (l_gcc (heap w))) empty_file = Some p2 ->
  returncode p2 = 0%Z ->
  s_out p2 = Some out ->
  map define_flag_of (splitlines out) = map Some defs ->
  fst (generate_options popen gcc_cmd a_name a_arch w) = Ok tt
  /\ printed (snd (generate_options popen gcc_cmd a_name a_arch w))
     = printed w ++ [options_message]
  /\ l_mingw (heap (snd (generate_options popen gcc_cmd a_name a_arch w)))
     = l_mingw (heap w) ++ load (default_options a_arch) (heap w)
       ++ incs ++ defs.
Proof.
  intros Hopen Hp1 Hrc1 He Hinc Hp2 Hrc2 Ho Hd.
  rewrite (generate_options_to_loop popen gcc_cmd a_name a_arch w p1 err incs
             p2 out Hopen Hp1 Hrc1 He Hinc Hp2 Hrc2 Ho).
  rewrite finally_close.
  set (o := options_file a_name a_arch).
  set (w3 := with_heap _ _).
  destruct (define_loop (splitlines out) w3)
    as [r [w4 [ds [E4 [Hr [F4 [B4 [P4 [Hm [_ [_ [_ [_ [Hok Hbad]]]]]]]]]]]]]].
  destruct Hr as [-> | ->].
  - pose proof (map_some_inj _ _ (eq_trans (eq_sym (Hok eq_refl)) Hd)).
    subst ds.
    rewrite (bind_ok _ _ _ _ _ E4), get_list_bind. cbn [load].
    destruct (write_loop o (l_mingw (heap w4)) w4 [])
      as [w5 [E5 [_ [_ [P5 H5]]]]].
    { rewrite B4. apply fs_set_same. }
    rewrite E5. cbn [fst snd]. rewrite printed_closed, heap_closed, P5, H5, P4.
    split; [reflexivity|]. split; [reflexivity|].
    rewrite Hm. cbn [w3 heap with_heap store l_mingw].
    rewrite <- !app_assoc. reflexivity.
  - exfalso. destruct (Hbad eq_refl) as [line [Hin Hnone]].
    exact (map_some_in _ _ _ _ Hd Hin Hnone).
Qed.

End Success.

(** X12. A run that succeeds.  When the architecture is 32 or 64, the two
    output files can be opened, the name of the header has a UTF-8
    encoding, the three compiler runs (the preprocessor on
    [#include <name.h>], the verbose run and the macro dump on the empty
    file, each with the compiler of the architecture,
    [i686-w64-mingw32-gcc] or [x86_64-w64-mingw32-gcc], the flags of
    [GCC_FLAGS] and [-] for the standard input) end with return code 0
    whatever the files hold, the search list is found and every line of
    the macro dump matches, the script ends with status 0 after printing
    its three progress lines.  The flattening step leaves the header file
    holding the prologue followed by the sanitized preprocessor output;
    the options file holds one flag per line: the flags [MINGW_OPTIONS]
    held, the 32-bit default table, the include flags and the macro flags
    (each [-D], the name, [=] and the value between two double quotes,
    code point 34), in this order; [MINGW_OPTIONS] holds the same
    flags. *)
Theorem successful_run
  (popen : filesystem -> list str -> str -> option completed)
  (prog a_name a_arch gcc : str) (w : world)
  (p0 p1 p2 : completed) (src err out : str) (incs defs : list str) :
  compiler_for a_arch gcc ->
  unwritable w (header_file a_name a_arch) = false ->
  unwritable w (options_file a_name a_arch) = false ->
  encodable a_name = true ->
  (forall fs,
     popen fs ([gcc] ++ l_gcc (heap w) ++ [lit "-P"; lit "-E"] ++ [lit "-"])
       (lit "#include <" ++ a_name ++ lit ".h>") = Some p0) ->
  returncode p0 = 0%Z ->
  s_out p0 = Some src ->
  (forall fs,
     popen fs
       ([gcc] ++ l_gcc (heap w) ++ [lit "-xc"; lit "-E"; lit "-v"]
        ++ [lit "-"]) (lit " /* :) */ ") = Some p1) ->
  returncode p1 = 0%Z ->
  s_err p1 = Some err ->
  (forall w0, include_flags (splitlines err) w0 = (Ok incs, w0)) ->
  (forall fs,
     popen fs ([gcc] ++ l_gcc (heap w) ++ [lit "-dM"; lit "-E"] ++ [lit "-"])
       (lit " /* :) */ ") = Some p2) ->
  returncode p2 = 0%Z ->
  s_out p2 = Some out ->
  Forall2
    (fun line flag =>
       exists m,
         re_search define_pattern line = Some m
         /\ flag = lit "-D" ++ fmt_group m 1 ++ lit "=" ++ [34%N]
                   ++ fmt_group m 2 ++ [34%N])
    (splitlines out) defs ->
  fst (main popen [prog; a_name; a_arch] w) = Ok tt
  /\ exit_status (fst (main popen [prog; a_name; a_arch] w)) = 0%Z
  /\ printed (snd (main popen [prog; a_name; a_arch] w))
     = printed w ++ [lit "Generating profile " ++ a_name ++ lit " ("
                     ++ a_arch ++ lit "-bit)";
                     lit "Processing sources...";
                     lit "Generating parser options..."]
  /\ files (snd (flatten_header popen gcc a_name a_arch
                   (says w (lit "Generating profile " ++ a_name ++ lit " ("
                            ++ a_arch ++ lit "-bit)"))))
       (header_file a_name a_arch)
     = Some (DEFAULT_SOURCE ++ process_source src)
  /\ files (snd (main popen [prog; a_name; a_arch] w))
       (options_file a_name a_arch)
     = Some (text (l_mingw (heap w) ++ l_default32 (heap w) ++ incs ++ defs))
  /\ l_mingw (heap (snd (main popen [prog; a_name; a_arch] w)))
     = l_mingw (heap w) ++ l_default32 (heap w) ++ incs ++ defs.
Proof.
  intros Hgcc Hoh Hoo Henc Hp0 Hrc0 Hs0 Hp1 Hrc1 He1 Hinc Hp2 Hrc2 Ho2 Hd.
  assert (Hd' : map define_flag_of (splitlines out) = map Some defs).
  { induction Hd as [|line flag lines flags [m [Hm ->]] _ IH];
      [reflexivity|].
    cbn [map]. unfold define_flag_of at 1. rewrite Hm, IH. reflexivity. }
  destruct (compiler_for_gcc _ _ Hgcc) as [Harch ->].
  rewrite (main_valid_arch popen prog a_name a_arch w Harch).
  change (lit "Generating profile " ++ a_name ++ lit " (" ++ a_arch
          ++ lit "-bit)") with (profile_message a_name a_arch).
  set (w0 := says w (profile_message a_name a_arch)).
  destruct (flatten_header_success popen (gcc_cmd_of a_arch) a_name a_arch w0
              p0 src Hoh Henc (Hp0 _) Hrc0 Hs0) as [E1 [P1 [F1 H1]]].
  pose proof (unwritable_flatten_header popen (gcc_cmd_of a_arch) a_name
                a_arch w0) as Hu.
  unfold bind.
  destruct (flatten_header popen (gcc_cmd_of a_arch) a_name a_arch w0)
    as [r w1].
  cbn [fst snd] in *. subst r.
  assert (Hg : l_gcc (heap w1) = l_gcc (heap w)) by (rewrite H1; reflexivity).
  assert (Hoo1 : unwritable w1 (options_file a_name a_arch) = false)
    by (rewrite Hu; exact Hoo).
  destruct (generate_options_success popen (gcc_cmd_of a_arch) a_name a_arch
              w1 p1 err incs p2 out defs)
    as [E2 [P2 M2]]; try assumption;
    try (unfold search_args, dump_args, empty_file; rewrite Hg;
         apply Hp1 || apply Hp2).
  destruct (options_file_after_success_aux popen (gcc_cmd_of a_arch) a_name
              a_arch w1 E2) as [_ F2].
  rewrite (default_options_32_or_64 Harch) in M2. cbn [load] in M2.
  rewrite H1 in M2. cbn [w0 heap says] in M2.
  rewrite E2. cbn [exit_status].
  repeat split.
  - rewrite P2, P1. cbn [w0 printed says]. rewrite <- !app_assoc.
    reflexivity.
  - exact F1.
  - rewrite F2, M2. reflexivity.
  - exact M2.
Qed.

Lemma successful_run_witness :
  fst (main sample_popen (sample_argv "64") (initial_world no_files)) = Ok tt
  /\ files (snd (main sample_popen (sample_argv "64")
                   (initial_world no_files)))
       (lit "d3d9_64_parser_options.txt")
     = Some (text (MINGW_OPTIONS_0 ++ DEFAULT_OPTIONS_32_0
                   ++ [lit "-I/usr/lib/gcc/i686-w64-mingw32/10-win32/include";
                       lit "-I/usr/i686-w64-mingw32/include"]
                   ++ [lit "-D__SIZEOF_INT__=" ++ [34%N] ++ lit "4"
                       ++ [34%N];
                       lit "-D__VERSION__=" ++ [34%N]
                       ++ lit "10-win32 20210110" ++ [34%N]])).
Proof.
  destruct (successful_run sample_popen (lit "generate.py") (lit "d3d9")
              (lit "64") (lit "x86_64-w64-mingw32-gcc")
              (initial_world no_files)
              {| returncode := 0;
                 s_out := Some (text [lit "typedef __int128 wide_t;"]);
                 s_err := Some [] |}
              {| returncode := 0; s_out := Some [];
                 s_err := Some sample_search_output |}
              {| returncode := 0; s_out := Some sample_dump;
                 s_err := Some [] |}
              (text [lit "typedef __int128 wide_t;"])
              sample_search_output sample_dump
              [lit "-I/usr/lib/gcc/i686-w64-mingw32/10-win32/include";
               lit "-I/usr/i686-w64-mingw32/include"]
              [lit "-D__SIZEOF_INT__=" ++ [34%N] ++ lit "4" ++ [34%N];
               lit "-D__VERSION__=" ++ [34%N] ++ lit "10-win32 20210110"
               ++ [34%N]])
    as [H1 [_ [_ [_ [H5 _]]]]].
  - right. split; reflexivity.
  - reflexivity.
  - reflexivity.
  - reflexivity.
  - intros fs. reflexivity.
  - reflexivity.
  - reflexivity.
  - intros fs. reflexivity.
  - reflexivity.
  - reflexivity.
  - intros w0. vm_compute. reflexivity.
  - intros fs. reflexivity.
  - reflexivity.
  - reflexivity.
  - change (splitlines sample_dump)
      with [lit "#define __SIZEOF_INT__ 4";
            lit "#define __VERSION__ 10-win32 20210110"].
    repeat constructor.
    + eexists. split; [vm_compute; reflexivity|vm_compute; reflexivity].
    + eexists. split; [vm_compute; reflexivity|vm_compute; reflexivity].
  - split; [exact H1|exact H5].
Defined.

(** ** The search list at its edges *)

Lemma index_none x l : index x l = None <-> ~ In x l.
Proof.
  induction l as [|y l IH]; cbn [index In].
  - split; [intros _ []|reflexivity].
  - destruct (str_eqb y x) eqn:E.
    + apply str_eqb_eq in E. split; [discriminate|].
      intros H. exfalso. apply H. left. exact E.
    + assert (Hn : y <> x).
      { intros ->. rewrite str_eqb_refl in E. discriminate. }
      destruct (index x l) as [n|].
      * split; [discriminate|]. intros H. exfalso.
        destruct IH as [_ IH].
        assert (Hc : @None nat = None -> False).
        { intros _.
          assert (Hin : ~ In x l) by (intros Hin; apply H; right; exact Hin).
          specialize (IH Hin). discriminate. }
        apply Hc. reflexivity.
      * split; [|reflexivity]. intros _ [H|H]; [exact (Hn H)|].
        destruct IH as [IH _]. exact (IH eq_refl H).
Qed.

Lemma index_le x l1 l2 :
  exists j, index x (l1 ++ x :: l2) = Some j /\ j <= length l1.
Proof.
  induction l1 as [|y l1 [j [E Hj]]]; cbn [app index length].
  - rewrite str_eqb_refl. exists 0. split; [reflexivity|lia].
  - destruct (str_eqb y x).
    + exists 0. split; [reflexivity|lia].
    + rewrite E. exists (S j). split; [reflexivity|lia].
Qed.

Lemma index_skip x l1 l2 i :
  ~ In x l1 -> index x (l1 ++ l2) = Some i -> length l1 <= i.
Proof.
  revert i. induction l1 as [|y l1 IH]; intros i Hn H; cbn [length].
  - lia.
  - cbn [app index] in H.
    rewrite str_eqb_neq in H by (intros E; apply Hn; left; exact E).
    destruct (index x (l1 ++ l2)) as [n|] eqn:E; [|discriminate].
    inversion H. subst i.
    assert (length l1 <= n); [|lia].
    apply IH; [|reflexivity]. intros Hin. apply Hn. right. exact Hin.
Qed.

Lemma include_flags_pure lines r w w' :
  include_flags lines w = (r, w') -> w' = w.
Proof.
  unfold include_flags.
  destruct (index search_starts lines); [destruct (index search_ends lines)|];
    intros H; inversion H; reflexivity.
Qed.

Section SearchList.

Variable popen : filesystem -> list str -> str -> option completed.

(** Option generation up to the search for the markers. *)
Lemma generate_options_to_markers gcc_cmd a_name a_arch w p err :
  unwritable w (options_file a_name a_arch) = false ->
  popen (fs_set (options_file a_name a_arch) [] (files w))
    (search_args gcc_cmd (l_gcc (heap w))) empty_file = Some p ->
  returncode p = 0%Z ->
  s_err p = Some err ->
  generate_options popen gcc_cmd a_name a_arch w
  = finally
      (incs <- include_flags (splitlines err) ;;
       extend MINGW_OPTIONS incs ;;
       out <- run_gcc popen gcc_cmd [lit "-dM"; lit "-E"] (lit " /* :) */ ")
                false ;;
       for_each (splitlines out) (define_flag MINGW_OPTIONS) ;;
       all <- get_list MINGW_OPTIONS ;;
       for_each all
         (fun opt => write (options_file a_name a_arch) (opt ++ [nl])))%py
      (close (options_file a_name a_arch))
      (with_heap
         (opened (options_file a_name a_arch) (says w options_message))
         (store MINGW_OPTIONS
            (l_mingw (heap w) ++ load (default_options a_arch) (heap w))
            (heap w))).
Proof.
  intros Hopen Hp Hrc He. unfold generate_options.
  rewrite print_bind, with_open_eq, finally_close by exact Hopen.
  rewrite get_list_bind, extend_bind.
  erewrite bind_ok
    by (apply (run_gcc_ok popen _ _ _ true _ p err);
        [reflexivity|exact Hp|exact Hrc|exact He]).
  reflexivity.
Qed.

End SearchList.

(** X13. When the options file can be opened, the verbose compiler run
    succeeds and its diagnostic output has no line equal to the start
    marker, or none equal to the end marker, option generation ends with
    the [ValueError] of [list.index], which nothing handles: the process
    status is 1 and no message is printed after the progress line.  The
    options file is left empty, and [MINGW_OPTIONS] has already been
    extended by the default table. *)
Theorem missing_search_list
  (popen : filesystem -> list str -> str -> option completed)
  (gcc_cmd a_name a_arch : str) (w : world) (p : completed) (err : str) :
  unwritable w (options_file a_name a_arch) = false ->
  popen (fs_set (options_file a_name a_arch) [] (files w))
    ([gcc_cmd] ++ l_gcc (heap w) ++ [lit "-xc"; lit "-E"; lit "-v"]
     ++ [lit "-"]) (lit " /* :) */ ") = Some p ->
  returncode p = 0%Z ->
  s_err p = Some err ->
  ~ In search_starts (splitlines err) \/ ~ In search_ends (splitlines err) ->
  fst (generate_options popen gcc_cmd a_name a_arch w) = Raised ValueError
  /\ exit_status (fst (generate_options popen gcc_cmd a_name a_arch w)) = 1%Z
  /\ printed (snd (generate_options popen gcc_cmd a_name a_arch w))
     = printed w ++ [lit "Generating parser options..."]
  /\ files (snd (generate_options popen gcc_cmd a_name a_arch w))
       (options_file a_name a_arch) = Some []
  /\ l_mingw (heap (snd (generate_options popen gcc_cmd a_name a_arch w)))
     = l_mingw (heap w) ++ load (default_options a_arch) (heap w).
Proof.
  intros Hopen Hp Hrc He Hmiss.
  rewrite (generate_options_to_markers popen gcc_cmd a_name a_arch w p err
             Hopen Hp Hrc He).
  rewrite finally_close.
  set (w2 := with_heap _ _).
  assert (E : include_flags (splitlines err) w2 = (Raised ValueError, w2)).
  { unfold include_flags. destruct Hmiss as [H|H].
    - apply index_none in H. rewrite H. reflexivity.
    - apply index_none in H. rewrite H.
      destruct (index search_starts (splitlines err)); reflexivity. }
  rewrite (bind_raised _ _ _ _ _ E). cbn [fst snd exit_status].
  rewrite printed_closed, heap_closed.
  repeat split.
  erewrite files_closed by apply fs_set_same.
  cbn [w2 files with_heap opened with_buffers with_files].
  rewrite content_fs_set. reflexivity.
Qed.

Lemma missing_search_list_witness :
  fst (generate_options no_list_popen (lit "i686-w64-mingw32-gcc")
         (lit "d3d9") (lit "32") (initial_world no_files))
  = Raised ValueError
  /\ l_mingw (heap (snd (generate_options no_list_popen
                           (lit "i686-w64-mingw32-gcc") (lit "d3d9")
                           (lit "32") (initial_world no_files))))
     = MINGW_OPTIONS_0 ++ DEFAULT_OPTIONS_32_0.
Proof.
  destruct (missing_search_list no_list_popen (lit "i686-w64-mingw32-gcc")
              (lit "d3d9") (lit "32") (initial_world no_files)
              {| returncode := 0; s_out := Some [];
                 s_err := Some (text [lit "ignoring nonexistent directory"]) |}
              (text [lit "ignoring nonexistent directory"]))
    as [H1 [_ [_ [_ H5]]]].
  - reflexivity.
  - reflexivity.
  - reflexivity.
  - reflexivity.
  - left. intros [H|[]]. vm_compute in H. discriminate.
  - split; [exact H1|exact H5].
Defined.

(** X14. The slice between the markers is taken as Python takes it: when
    the first end marker stands before the first start marker, the slice
    is empty, and the list comprehension gives no include flag and raises
    nothing. *)
Theorem include_flags_end_before_start (l1 l2 : list str) (w : world) :
  ~ In search_starts l1 ->
  In search_starts l2 ->
  include_flags (l1 ++ search_ends :: l2) w = (Ok [], w).
Proof.
  intros Hn Hin. unfold include_flags.
  destruct (index search_starts (l1 ++ search_ends :: l2)) as [i|] eqn:Ei.
  - destruct (index_le search_ends l1 l2) as [j [Ej Hj]]. rewrite Ej.
    pose proof (index_skip _ _ _ _ Hn Ei) as Hi.
    unfold slice. replace (j - (i + 1)) with 0 by lia. reflexivity.
  - exfalso. apply index_none in Ei. apply Ei, in_or_app.
    right. right. exact Hin.
Qed.

Lemma include_flags_end_before_start_witness :
  include_flags [search_ends; lit " /usr/include"; search_starts]
    (initial_world no_files)
  = (Ok [], initial_world no_files).
Proof.
  apply (include_flags_end_before_start [] [lit " /usr/include"; search_starts]
           (initial_world no_files)).
  - intros [].
  - right. left. reflexivity.
Defined.

(** X15. Every include flag is [-I] followed by a line of the compiler
    output with the white space at its two ends removed: the path of the
    flag neither starts nor ends with a white-space character, and holds
    no line boundary when the line holds none.  Computing the flags
    changes nothing. *)
Theorem include_flags_shape (lines incs : list str) (w w' : world) :
  include_flags lines w = (Ok incs, w') ->
  w' = w
  /\ Forall (fun flag =>
               exists line,
                 In line lines
                 /\ flag = lit "-I" ++ strip line
                 /\ trimmed (strip line) = true
                 /\ (one_line line = true -> one_line flag = true))
       incs.
Proof.
  intros H. split; [exact (include_flags_pure _ _ _ _ H)|].
  unfold include_flags in H.
  destruct (index search_starts lines) as [i|]; [|discriminate].
  destruct (index search_ends lines) as [j|]; [|discriminate].
  inversion H. subst. apply Forall_forall. intros flag Hin.
  apply in_map_iff in Hin. destruct Hin as [line [<- Hin]].
  exists line. split; [|split; [reflexivity|split; [apply strip_trimmed|]]].
  - unfold slice in Hin.
    rewrite <- (firstn_skipn (i + 1) lines). apply in_or_app. right.
    rewrite <- (firstn_skipn (j - (i + 1)) (skipn (i + 1) lines)).
    apply in_or_app. left. exact Hin.
  - intros Hl.
    change (one_line (lit "-I" ++ strip line) = true).
    rewrite one_line_app. apply strip_forallb, Hl.
Qed.

Lemma include_flags_shape_witness :
  Forall (fun flag =>
            exists line,
              In line (splitlines sample_search_output)
              /\ flag = lit "-I" ++ strip line
              /\ trimmed (strip line) = true
              /\ (one_line line = true -> one_line flag = true))
    [lit "-I/usr/lib/gcc/i686-w64-mingw32/10-win32/include";
     lit "-I/usr/i686-w64-mingw32/include"].
Proof.
  apply (include_flags_shape (splitlines sample_search_output)
           [lit "-I/usr/lib/gcc/i686-w64-mingw32/10-win32/include";
            lit "-I/usr/i686-w64-mingw32/include"]
           (initial_world no_files) (initial_world no_files)).
  vm_compute. reflexivity.
Defined.

(** ** The lines the macro pattern matches *)














(** ** The sanitizer, line by line *)

Lemma after_close_line v b :
  after_close (v ++ nl :: b)
  = option_map (fun r => r ++ nl :: b) (after_close v).
Proof.
  induction v as [|c v IH]; [reflexivity|].
  cbn [app after_close]. destruct (N.eqb c nl); [reflexivity|].
  rewrite IH. destruct (after_close v) as [r|]; [reflexivity|].
  cbn [option_map].
  change (lit ");") with [41%N; 59%N].
  destruct v as [|d v].
  - cbn [app prefixb]. destruct (N.eqb 41 c); reflexivity.
  - cbn [app prefixb]. destruct (N.eqb 41 c), (N.eqb 59 d); reflexivity.
Qed.

Lemma after_args_line v b :
  after_args (v ++ nl :: b)
  = option_map (fun r => r ++ nl :: b) (after_args v).
Proof.
  induction v as [|c v IH]; [reflexivity|].
  cbn [app after_args]. destruct (N.eqb c nl); [reflexivity|].
  rewrite IH. destruct (after_args v) as [r|]; [reflexivity|].
  cbn [option_map]. destruct (N.eqb c 40); [|reflexivity].
  apply after_close_line.
Qed.

Lemma match_here_asm_line a b :
  match_here asm_re (a ++ nl :: b) [] []
  = match match_here asm_re a [] [] with
    | Some (rest, g) => Some (rest ++ nl :: b, g)
    | None => None
    end.
Proof.
  rewrite !match_here_asm.
  destruct (prefixb kw a) eqn:Ea.
  - rewrite (prefixb_weaken _ _ _ Ea).
    apply prefixb_true in Ea. rewrite Ea at 1.
    rewrite <- app_assoc, skipn_app_exact, after_args_line.
    destruct (after_args (skipn (length kw) a)); reflexivity.
  - destruct (prefixb kw (a ++ nl :: b)) eqn:Eb; [|reflexivity].
    rewrite (straddle kw a (nl :: b) Eb) in Ea; [discriminate|].
    apply (enters_any_sound kw [nl] b). reflexivity.
Qed.

Lemma sub_asm_line a b :
  sub asm_re asm_repl (a ++ nl :: b)
  = sub asm_re asm_repl a ++ nl :: sub asm_re asm_repl b.
Proof.
  remember (length a) as n eqn:En. revert a En.
  induction n as [n IH] using lt_wf_ind. intros a En.
  destruct a as [|c a'].
  - cbn [app]. rewrite sub_miss by reflexivity.
    rewrite sub_nil. reflexivity.
  - pose proof (match_here_asm_line (c :: a') b) as Hm.
    destruct (match_here asm_re (c :: a') [] []) as [[rest g]|] eqn:E.
    + pose proof (asm_nonempty _ _ _ E) as Hlen.
      rewrite (sub_hit _ _ _ _ _ Hm)
        by (rewrite !length_app; cbn [length] in *; lia).
      rewrite (sub_hit _ _ _ _ _ E Hlen).
      rewrite (IH (length rest) ltac:(subst n; exact Hlen) rest eq_refl).
      rewrite <- app_assoc. reflexivity.
    + cbn [app] in Hm |- *.
      rewrite (sub_miss _ _ _ _ Hm), (sub_miss _ _ _ _ E).
      rewrite (IH (length a') ltac:(subst n; cbn [length]; lia) a' eq_refl).
      reflexivity.
Qed.

(** X17. The sanitizer works line by line: no rule matches across a
    newline or touches one, so the sanitized form of two texts joined by
    a newline is the sanitized form of each, joined by a newline. *)
Theorem process_source_line_by_line (a b : str) :
  process_source (a ++ nl :: b) = process_source a ++ nl :: process_source b.
Proof.
  rewrite !process_source_steps, !asm_rule, sub_asm_line.
  apply (after_asm_block _ [nl]); reflexivity.
Qed.

(** ** What the sanitizer leaves *)

Lemma search_from_asm_none s :
  forall i, search_from asm_re s i = None <-> has_asm s = false.
Proof.
  induction s as [|c s IH]; intros i.
  - split; reflexivity.
  - cbn [search_from has_asm]. unfold matches_asm.
    destruct (match_here asm_re (c :: s) [] []) as [[rest gs]|].
    + split; discriminate.
    + apply IH.
Qed.

Lemma re_search_asm_none s :
  re_search asm_pattern s = None <-> has_asm s = false.
Proof.
  unfold re_search. rewrite asm_re_eq. apply search_from_asm_none.
Qed.

Lemma search_from_lit_none p s :
  forall i, search_from (group_lit p) s i = None <-> occursb p s = false.
Proof.
  induction s as [|c s IH]; intros i.
  - cbn [search_from occursb]. rewrite match_here_group_lit.
    destruct (prefixb p []); split; discriminate || reflexivity.
  - cbn [search_from occursb]. rewrite match_here_group_lit.
    destruct (prefixb p (c :: s)).
    + split; discriminate.
    + apply IH.
Qed.

Lemma re_search_int128_none s :
  re_search int128_pattern s = None <-> occursb (lit "__int128") s = false.
Proof.
  unfold re_search. rewrite int128_re_eq. apply search_from_lit_none.
Qed.

Lemma re_search_f16_none s :
  re_search f16_pattern s = None <-> occursb (lit ".0f16") s = false.
Proof.
  unfold re_search. rewrite f16_re_eq. apply search_from_lit_none.
Qed.

Lemma int128_close_hit u rest g :
  match_here (group_lit (lit "__int128")) u [] [] = Some (rest, g) ->
  after_close u = None ->
  after_close rest = None /\ free [nl; 41%N] int128_repl = true.
Proof.
  intros H Hu. apply group_lit_match in H. subst u.
  rewrite after_close_skip in Hu by reflexivity.
  split; [exact Hu|reflexivity].
Qed.

Lemma int128_args_hit u rest g :
  match_here (group_lit (lit "__int128")) u [] [] = Some (rest, g) ->
  after_args u = None ->
  after_args rest = None /\ free [nl; 40%N] int128_repl = true.
Proof.
  intros H Hu. apply group_lit_match in H. subst u.
  rewrite after_args_skip in Hu by reflexivity.
  split; [exact Hu|reflexivity].
Qed.

Lemma not_in_tl_kw_108 : ~ In 108%N (tl kw).
Proof. vm_compute. intuition discriminate. Qed.

(** The __int128 rule creates no match of the inline-assembly pattern. *)
Lemma sub_int128_keeps_clean t :
  has_asm t = false ->
  has_asm (sub (group_lit (lit "__int128")) int128_repl t) = false.
Proof.
  remember (length t) as n eqn:En. revert t En.
  induction n as [n IH] using lt_wf_ind. intros t En H.
  destruct t as [|c t'].
  - rewrite (rep_nil _ int128_repl int128_nonempty). reflexivity.
  - destruct (match_here (group_lit (lit "__int128")) (c :: t') [] [])
      as [[rest g]|] eqn:E.
    + pose proof (group_lit_nonempty _ _ _ _ int128_nonempty E) as Hlen.
      rewrite (sub_hit _ _ _ _ _ E Hlen).
      rewrite has_asm_skip by (apply blocks_any_sound; reflexivity).
      apply (IH (length rest)); [subst n; exact Hlen|reflexivity|].
      pose proof (group_lit_match _ _ _ _ E) as Et. rewrite Et in H.
      exact (has_asm_suffix _ _ H).
    + rewrite (sub_miss _ _ _ _ E).
      cbn [has_asm] in H |- *. apply orb_false_iff in H.
      destruct H as [Hm Ht].
      rewrite (IH (length t') ltac:(subst n; simpl; lia) t' eq_refl Ht).
      rewrite orb_false_r.
      apply (pull_match (group_lit (lit "__int128")) int128_repl 108%N
               (tl int128_repl) eq_refl
               (fun s rest g =>
                  group_lit_nonempty _ s rest g int128_nonempty)
               ltac:(discriminate) not_in_tl_kw_108
               int128_close_hit int128_args_hit c t' E Hm).
Qed.

(** After the three rules the inline-assembly pattern matches nowhere and
    no [.0f16] is left. *)
Lemma process_source_clean s :
  has_asm (process_source s) = false
  /\ occursb (lit ".0f16") (process_source s) = false.
Proof.
  rewrite process_source_steps, asm_rule. unfold after_asm.
  rewrite int128_rule, f16_rule. split.
  - apply sub_f16_keeps_clean, sub_int128_keeps_clean, sub_asm_clean.
  - apply (rep_removes (lit ".0f16") f16_repl f16_nonempty) with (pre := []);
      [intros b; apply enters_any_sound; reflexivity
      |intros b; apply blocks_any_sound; reflexivity
      |reflexivity].
Qed.

(** A replacement that starts with another character than the literal
    changes every text in which the literal occurs. *)
Lemma rep_fixed_absent p r x y p' r' :
  p = x :: p' -> r = y :: r' -> x <> y ->
  forall s, sub (group_lit p) r s = s -> occursb p s = false.
Proof.
  intros Ep Er Hxy.
  assert (Hp : p <> []) by (rewrite Ep; discriminate).
  induction s as [|c s IH]; intros H.
  - rewrite Ep. reflexivity.
  - cbn [occursb]. destruct (prefixb p (c :: s)) eqn:E.
    + exfalso. apply prefixb_true in E. rewrite E in H.
      rewrite (rep_hit p r Hp) in H. rewrite Ep, Er in H.
      cbn [app] in H. inversion H. congruence.
    + rewrite (rep_miss p r c s E) in H. inversion H as [H']. rewrite H'.
      cbn [orb]. apply IH, H'.
Qed.

(** X18. In the text the sanitizer returns, the inline-assembly pattern
    matches nowhere and no [.0f16] is left: [re.search] with the first
    pattern and with the third pattern finds nothing in it, whatever the
    input was.  (The second pattern can still match: the marker comment of
    the second rule holds [__int128].) *)
Theorem process_source_output_clean (s : str) :
  re_search asm_pattern (process_source s) = None
  /\ re_search f16_pattern (process_source s) = None.
Proof.
  destruct (process_source_clean s) as [Ha Hf]. split.
  - apply re_search_asm_none, Ha.
  - apply re_search_f16_none, Hf.
Qed.

(** X19. The texts the sanitizer returns unchanged are exactly those in
    which none of its three patterns matches: [process_source(s) == s]
    holds if and only if [re.search] finds in [s] no inline-assembly
    statement, no [__int128] and no [.0f16].  An [__asm__] that is not
    followed, on its line, by a space, an opening parenthesis and [);]
    does not count. *)
Theorem process_source_fixed_points (s : str) :
  process_source s = s
  <-> re_search asm_pattern s = None
      /\ re_search int128_pattern s = None
      /\ re_search f16_pattern s = None.
Proof.
  rewrite re_search_asm_none, re_search_int128_none, re_search_f16_none.
  split.
  - intros H. destruct (process_source_clean s) as [Ha Hf].
    rewrite H in Ha, Hf. split; [exact Ha|]. split; [|exact Hf].
    rewrite process_source_steps, asm_rule, (sub_asm_fixed _ Ha) in H.
    unfold after_asm in H. rewrite int128_rule, f16_rule in H.
    assert (Hk : occursb (lit ".0f16")
                   (sub (group_lit (lit "__int128")) int128_repl s) = false).
    { apply (rep_keeps_absent (lit "__int128") int128_repl (lit ".0f16")
               int128_nonempty) with (pre := []);
        [intros b; apply enters_any_sound; reflexivity
        |intros b; apply blocks_any_sound; reflexivity
        |exact Hf]. }
    rewrite (rep_absent _ f16_repl f16_nonempty _ Hk) in H.
    apply (rep_fixed_absent (lit "__int128") int128_repl 95%N 108%N
             (tl (lit "__int128")) (tl int128_repl) eq_refl eq_refl
             ltac:(discriminate) s H).
  - intros [Ha [Hi Hf]].
    rewrite process_source_steps, asm_rule, (sub_asm_fixed _ Ha).
    unfold after_asm.
    rewrite int128_rule, (rep_absent _ int128_repl int128_nonempty _ Hi).
    rewrite f16_rule. apply (rep_absent _ f16_repl f16_nonempty _ Hf).
Qed.

Lemma process_source_fixed_points_witness :
  process_source (lit "void f(void) { __asm__ volatile; }")
  = lit "void f(void) { __asm__ volatile; }".
Proof.
  apply (proj2 (process_source_fixed_points
                  (lit "void f(void) { __asm__ volatile; }"))).
  repeat split.
Defined.

(** ** Looking for a command *)

